(** * Swarm mesh core: peer table, work distributor and nonce ledger

    A shallow embedding of the swarm package's [PeerTable]
    (peer-table.ts) and [WorkDistributor] (work-distributor.ts), with the
    data types of types.ts.  Mutable class fields become explicit state
    that every method takes and returns; [Date.now()] is an argument [now]
    (milliseconds since the epoch); a [throw] is the [Throw] outcome.
    The replay protection of [MeshManager.handleTaskRequest] is modelled
    from the specification, as mesh-manager.ts is not among the sources.

    Timestamps are kept as millisecond counts: the source stores
    [new Date().toISOString()] and reads it back with
    [new Date(s).getTime()], which is the identity on millisecond
    instants. *)

From stdpp Require Import gmap strings list fin_maps pretty.

Local Open Scope Z_scope.

(** ** Insertion-ordered string-keyed maps (the JavaScript [Map])

    A [Map<string, V>] iterates in insertion order, [set] on a present key
    keeps the key's position, and keys are unique.  It is an association
    list whose keys are pairwise distinct ([wf]). *)

Module JsMap.
Section ops.
Context {V : Type}.

Fixpoint get (k : string) (m : list (string * V)) : option V :=
  match m with
  | [] => None
  | (k', v) :: m' => if decide (k = k') then Some v else get k m'
  end.

Definition has (k : string) (m : list (string * V)) : bool :=
  match get k m with Some _ => true | None => false end.

Fixpoint set (k : string) (v : V) (m : list (string * V)) : list (string * V) :=
  match m with
  | [] => [(k, v)]
  | (k', v') :: m' =>
      if decide (k = k') then (k, v) :: m' else (k', v') :: set k v m'
  end.

Fixpoint delete (k : string) (m : list (string * V)) : list (string * V) :=
  match m with
  | [] => []
  | (k', v') :: m' =>
      if decide (k = k') then delete k m' else (k', v') :: delete k m'
  end.

(** A field assignment through a reference to the stored object:
    [m.get(k).f = x]. *)
Fixpoint alter (f : V → V) (k : string) (m : list (string * V)) : list (string * V) :=
  match m with
  | [] => []
  | (k', v') :: m' =>
      if decide (k = k') then (k', f v') :: m' else (k', v') :: alter f k m'
  end.

Definition size (m : list (string * V)) : Z := Z.of_nat (length m).

Definition keys (m : list (string * V)) : list string := m.*1.

Definition values (m : list (string * V)) : list V := m.*2.

Definition wf (m : list (string * V)) : Prop := NoDup (keys m).
End ops.
End JsMap.

(** ** Data model (types.ts) *)

Record SwarmNodeIdentity := {
  node_id : string;
  display_name : string;
  api_url : string;
  capabilities : list string;
  version : string;
}.

Inductive PeerStatus := Active | Suspected | Unreachable | Left.

Record PeerEntry := {
  identity : SwarmNodeIdentity;
  status : PeerStatus;
  last_heartbeat_at : Z;
  last_latency_ms : Z;
  consecutive_failures : Z;
  joined_at : Z;
}.

Record SweepThresholds := {
  suspected_after_ms : Z;
  unreachable_after_ms : Z;
  evict_after_ms : Z;
}.

#[global] Instance PeerStatus_eq_dec : EqDecision PeerStatus.
Proof. solve_decision. Defined.

#[global] Instance SwarmNodeIdentity_eq_dec : EqDecision SwarmNodeIdentity.
Proof. solve_decision. Defined.

#[global] Instance PeerEntry_eq_dec : EqDecision PeerEntry.
Proof. solve_decision. Defined.

(** Field assignments on a peer entry. *)

Definition set_identity (i : SwarmNodeIdentity) (p : PeerEntry) : PeerEntry :=
  {| identity := i; status := status p;
     last_heartbeat_at := last_heartbeat_at p;
     last_latency_ms := last_latency_ms p;
     consecutive_failures := consecutive_failures p;
     joined_at := joined_at p |}.

Definition set_status (s : PeerStatus) (p : PeerEntry) : PeerEntry :=
  {| identity := identity p; status := s;
     last_heartbeat_at := last_heartbeat_at p;
     last_latency_ms := last_latency_ms p;
     consecutive_failures := consecutive_failures p;
     joined_at := joined_at p |}.

Definition set_last_heartbeat_at (t : Z) (p : PeerEntry) : PeerEntry :=
  {| identity := identity p; status := status p;
     last_heartbeat_at := t;
     last_latency_ms := last_latency_ms p;
     consecutive_failures := consecutive_failures p;
     joined_at := joined_at p |}.

Definition set_last_latency_ms (l : Z) (p : PeerEntry) : PeerEntry :=
  {| identity := identity p; status := status p;
     last_heartbeat_at := last_heartbeat_at p;
     last_latency_ms := l;
     consecutive_failures := consecutive_failures p;
     joined_at := joined_at p |}.

Definition set_consecutive_failures (n : Z) (p : PeerEntry) : PeerEntry :=
  {| identity := identity p; status := status p;
     last_heartbeat_at := last_heartbeat_at p;
     last_latency_ms := last_latency_ms p;
     consecutive_failures := n;
     joined_at := joined_at p |}.

(** The result of a method that may [throw]. *)

Inductive outcome (A : Type) :=
  | Ok (a : A)
  | Throw (message : string).
Arguments Ok {A} a.
Arguments Throw {A} message.

(** ** PeerTable (peer-table.ts) *)

Module PeerTable.

Record t := {
  peers : list (string * PeerEntry);
  maxPeers : Z;
}.

(** [constructor(maxPeers = 50)] *)
Definition new (maxPeers : Z) : t := {| peers := []; maxPeers := maxPeers |}.

Definition with_peers (m : list (string * PeerEntry)) (tbl : t) : t :=
  {| peers := m; maxPeers := maxPeers tbl |}.

Definition size (tbl : t) : Z := JsMap.size (peers tbl).

Definition get (nodeId : string) (tbl : t) : option PeerEntry :=
  JsMap.get nodeId (peers tbl).

Definition add (now : Z) (ident : SwarmNodeIdentity) (tbl : t)
  : t * outcome PeerEntry :=
  match JsMap.get (node_id ident) (peers tbl) with
  | Some existing =>
      let refresh p :=
        set_consecutive_failures 0
          (set_last_heartbeat_at now (set_status Active (set_identity ident p))) in
      (with_peers (JsMap.alter refresh (node_id ident) (peers tbl)) tbl,
       Ok (refresh existing))
  | None =>
      if bool_decide (size tbl >= maxPeers tbl) then
        (tbl, Throw ("Peer table full (max " +:+ pretty (maxPeers tbl) +:+ ")"))
      else
        let entry :=
          {| identity := ident; status := Active;
             last_heartbeat_at := now; last_latency_ms := 0;
             consecutive_failures := 0; joined_at := now |} in
        (with_peers (JsMap.set (node_id ident) entry (peers tbl)) tbl, Ok entry)
  end.

Definition remove (nodeId : string) (tbl : t) : t * bool :=
  (with_peers (JsMap.delete nodeId (peers tbl)) tbl,
   JsMap.has nodeId (peers tbl)).

Definition getAll (tbl : t) : list PeerEntry := JsMap.values (peers tbl).

Definition getActive (tbl : t) : list PeerEntry :=
  List.filter (λ p, bool_decide (status p = Active)) (JsMap.values (peers tbl)).

Definition getByCapability (capability : string) (tbl : t) : list PeerEntry :=
  List.filter (λ p, bool_decide (capability ∈ capabilities (identity p)))
    (getActive tbl).

Definition getByStatus (s : PeerStatus) (tbl : t) : list PeerEntry :=
  List.filter (λ p, bool_decide (status p = s)) (JsMap.values (peers tbl)).

Definition recordHeartbeat (now : Z) (nodeId : string) (latencyMs : Z) (tbl : t)
  : t * bool :=
  match JsMap.get nodeId (peers tbl) with
  | None => (tbl, false)
  | Some _ =>
      (with_peers
         (JsMap.alter
            (λ peer, set_consecutive_failures 0
                       (set_last_latency_ms latencyMs
                         (set_last_heartbeat_at now (set_status Active peer))))
            nodeId (peers tbl)) tbl,
       true)
  end.

Definition recordFailure (nodeId : string) (tbl : t) : t * Z :=
  match JsMap.get nodeId (peers tbl) with
  | None => (tbl, -1)
  | Some peer =>
      (with_peers
         (JsMap.alter
            (λ p, set_consecutive_failures (consecutive_failures p + 1) p)
            nodeId (peers tbl)) tbl,
       consecutive_failures peer + 1)
  end.

Definition markLeft (nodeId : string) (tbl : t) : t * bool :=
  match JsMap.get nodeId (peers tbl) with
  | None => (tbl, false)
  | Some _ =>
      (with_peers (JsMap.alter (set_status Left) nodeId (peers tbl)) tbl, true)
  end.

(** The three id lists [sweep] returns. *)
Record SweepResult := {
  suspected : list string;
  unreachable : list string;
  evicted : list string;
}.

(** One iteration of the [for (const [nodeId, peer] of this.peers)] loop
    of [sweep]: the loop state is the map and the three arrays. *)
Definition sweep_body (thresholds : SweepThresholds) (now : Z)
    (st : list (string * PeerEntry) * SweepResult)
    (e : string * PeerEntry) : list (string * PeerEntry) * SweepResult :=
  let '(m, r) := st in
  let '(nodeId, peer) := e in
  if bool_decide (status peer = Left) then (m, r)
  else
    let age := now - last_heartbeat_at peer in
    if bool_decide (age >= evict_after_ms thresholds) then
      (JsMap.delete nodeId m,
       {| suspected := suspected r; unreachable := unreachable r;
          evicted := evicted r ++ [nodeId] |})
    else if bool_decide (age >= unreachable_after_ms thresholds)
              && bool_decide (status peer ≠ Unreachable) then
      (JsMap.alter (set_status Unreachable) nodeId m,
       {| suspected := suspected r; unreachable := unreachable r ++ [nodeId];
          evicted := evicted r |})
    else if bool_decide (age >= suspected_after_ms thresholds)
              && bool_decide (status peer = Active) then
      (JsMap.alter (set_status Suspected) nodeId m,
       {| suspected := suspected r ++ [nodeId]; unreachable := unreachable r;
          evicted := evicted r |})
    else (m, r).

Definition sweep (now : Z) (thresholds : SweepThresholds) (tbl : t)
  : t * SweepResult :=
  let '(m, r) :=
    fold_left (sweep_body thresholds now) (peers tbl)
      (peers tbl, {| suspected := []; unreachable := []; evicted := [] |}) in
  (with_peers m tbl, r).

Definition clear (tbl : t) : t := with_peers [] tbl.

End PeerTable.

(** ** Task messages (types.ts) *)

Record SwarmTaskConstraints := {
  tool_allowlist : option (list string);
  max_tokens : option Z;
  max_cost_usd : option Z;
  max_duration_ms : option Z;
}.

Inductive TaskStatus := completed | failed | aborted.

(** The payload fields of a result ([findings], [tokens_used], [cost_usd],
    [duration_ms]) are carried through and never inspected. *)
Module SwarmTaskResult.
Record t := {
  task_id : string;
  peer_node_id : string;
  peer_session_id : string;
  status : TaskStatus;
  findings : list string;
  tokens_used : Z;
  cost_usd : Z;
  duration_ms : Z;
}.
End SwarmTaskResult.

Inductive DistributionStrategy := round_robin | capability_match.

#[global] Instance DistributionStrategy_eq_dec : EqDecision DistributionStrategy.
Proof. solve_decision. Defined.

#[global] Instance TaskStatus_eq_dec : EqDecision TaskStatus.
Proof. solve_decision. Defined.

#[global] Instance SwarmTaskResult_eq_dec : EqDecision SwarmTaskResult.t.
Proof. solve_decision. Defined.

(** ** The runtime's promises and timers

    A delegation holds the [resolve] and [reject] closures of one promise
    and the handle of one [setTimeout] timer.  Promises and timers live in
    two tables indexed by their handles.  Settling a promise that is no
    longer pending does nothing, as does clearing or firing a timer that is
    no longer armed. *)

Inductive PromiseState :=
  | Pending
  | Fulfilled (result : SwarmTaskResult.t)
  | Rejected (message : string).

Inductive TimerState := Armed | Cleared | Fired.

#[global] Instance PromiseState_eq_dec : EqDecision PromiseState.
Proof. solve_decision. Defined.

#[global] Instance TimerState_eq_dec : EqDecision TimerState.
Proof. solve_decision. Defined.

(** A timer with what its callback closes over: the task id, the promise
    whose [reject] it calls, and the peer named in the error message. *)
Record Timer := {
  timer_state : TimerState;
  timer_task_id : string;
  timer_promise : nat;
  timer_peer : string;
}.

Definition set_timer_state (s : TimerState) (tm : Timer) : Timer :=
  {| timer_state := s; timer_task_id := timer_task_id tm;
     timer_promise := timer_promise tm; timer_peer := timer_peer tm |}.

(** What the runtime was asked to do, in call order. *)
Inductive Effect :=
  | DelegateTaskCall (peer : string)
  | ClearTimeoutCall (timer : nat)
  | ResolveCall (promise : nat) (result : SwarmTaskResult.t)
  | RejectCall (promise : nat) (message : string).

Record Runtime := {
  promises : list PromiseState;
  timers : list Timer;
  trace : list Effect;
}.

Definition settle (p : nat) (s : PromiseState) (ps : list PromiseState)
  : list PromiseState :=
  match ps !! p with
  | Some Pending => <[p := s]> ps
  | _ => ps
  end.

Definition resolve (p : nat) (result : SwarmTaskResult.t) (rt : Runtime) : Runtime :=
  {| promises := settle p (Fulfilled result) (promises rt);
     timers := timers rt;
     trace := trace rt ++ [ResolveCall p result] |}.

Definition reject (p : nat) (message : string) (rt : Runtime) : Runtime :=
  {| promises := settle p (Rejected message) (promises rt);
     timers := timers rt;
     trace := trace rt ++ [RejectCall p message] |}.

Definition disarm (s : TimerState) (tm : Timer) : Timer :=
  match timer_state tm with
  | Armed => set_timer_state s tm
  | _ => tm
  end.

Definition clearTimeout (tid : nat) (rt : Runtime) : Runtime :=
  {| promises := promises rt;
     timers := alter (disarm Cleared) tid (timers rt);
     trace := trace rt ++ [ClearTimeoutCall tid] |}.

(** [new Promise(...)]: a fresh pending promise and its handle. *)
Definition newPromise (rt : Runtime) : Runtime * nat :=
  ({| promises := promises rt ++ [Pending]; timers := timers rt; trace := trace rt |},
   length (promises rt)).

(** [setTimeout(callback, ms)]: a fresh armed timer and its handle. *)
Definition setTimeout (task : string) (p : nat) (peer : string) (rt : Runtime)
  : Runtime * nat :=
  ({| promises := promises rt;
      timers := timers rt ++ [{| timer_state := Armed; timer_task_id := task;
                                 timer_promise := p; timer_peer := peer |}];
      trace := trace rt |},
   length (timers rt)).

Definition log (e : Effect) (rt : Runtime) : Runtime :=
  {| promises := promises rt; timers := timers rt; trace := trace rt ++ [e] |}.

(** ** WorkDistributor (work-distributor.ts) *)

(** [ActiveDelegation] of types.ts.  The [resolve] and [reject] fields are
    the two closures of one promise: [promise] is its handle. *)
Module ActiveDelegation.
Record t := {
  task_id : string;
  peer_node_id : string;
  correlation_id : string;
  sent_at : Z;
  timeout_ms : Z;
  promise : nat;
  timer : nat;
}.
End ActiveDelegation.

(** What [MeshManager.delegateTask] answers. *)
Record DelegateResult := {
  accepted : bool;
  reason : option string;
  taskId : string;
}.

(** What can happen while a caller awaits a delegation promise: the outer
    layer posts a result ([resolveTask]), a timer fires, or the
    distributor is shut down ([cancelAll]). *)
Inductive Event :=
  | ResultPosted (result : SwarmTaskResult.t)
  | TimerFired (timer : nat)
  | CancelAllCalled.

(** The distributor's collaborators: the two [MeshManager] methods it
    calls, the [uuid] generator, and the events that arrive while the
    delegation for a given task id is awaited. *)
Record Env := {
  getActivePeers : list PeerEntry;
  delegateTask : string → DelegateResult;
  uuid : string → string;
  arrivals : string → list Event;
}.

(** How an [await] ends: with a value, with an exception, or never. *)
Inductive completion (A : Type) :=
  | Returned (a : A)
  | Thrown (message : string)
  | Blocked.
Arguments Returned {A} a.
Arguments Thrown {A} message.
Arguments Blocked {A}.

Module WorkDistributor.

Record t := {
  strategy : DistributionStrategy;
  delegationTimeoutMs : Z;
  maxRetries : Z;
  activeDelegations : list (string * ActiveDelegation.t);
  roundRobinIndex : nat;
  runtime : Runtime;
}.

(** [constructor(config)] *)
Definition new (strat : DistributionStrategy) (delegation_timeout_ms max_retries : Z)
  : t :=
  {| strategy := strat; delegationTimeoutMs := delegation_timeout_ms;
     maxRetries := max_retries; activeDelegations := []; roundRobinIndex := 0%nat;
     runtime := {| promises := []; timers := []; trace := [] |} |}.

Definition with_activeDelegations (m : list (string * ActiveDelegation.t)) (d : t) : t :=
  {| strategy := strategy d; delegationTimeoutMs := delegationTimeoutMs d;
     maxRetries := maxRetries d; activeDelegations := m;
     roundRobinIndex := roundRobinIndex d; runtime := runtime d |}.

Definition with_roundRobinIndex (i : nat) (d : t) : t :=
  {| strategy := strategy d; delegationTimeoutMs := delegationTimeoutMs d;
     maxRetries := maxRetries d; activeDelegations := activeDelegations d;
     roundRobinIndex := i; runtime := runtime d |}.

Definition with_runtime (rt : Runtime) (d : t) : t :=
  {| strategy := strategy d; delegationTimeoutMs := delegationTimeoutMs d;
     maxRetries := maxRetries d; activeDelegations := activeDelegations d;
     roundRobinIndex := roundRobinIndex d; runtime := rt |}.

Definition findDelegationByTaskId (task : string) (d : t) : option ActiveDelegation.t :=
  JsMap.get task (activeDelegations d).

Definition resolveTask (result : SwarmTaskResult.t) (d : t) : t * bool :=
  match findDelegationByTaskId (SwarmTaskResult.task_id result) d with
  | None => (d, false)
  | Some delegation =>
      let d1 := with_runtime (clearTimeout (ActiveDelegation.timer delegation) (runtime d)) d in
      let d2 := with_activeDelegations
                  (JsMap.delete (ActiveDelegation.task_id delegation) (activeDelegations d1)) d1 in
      let d3 := with_runtime (resolve (ActiveDelegation.promise delegation) result (runtime d2)) d2 in
      (d3, true)
  end.

Definition activeCount (d : t) : Z := JsMap.size (activeDelegations d).

(** The body of the [for (const [, delegation] of this.activeDelegations)]
    loop of [cancelAll]. *)
Definition cancel_body (rt : Runtime) (e : string * ActiveDelegation.t) : Runtime :=
  reject (ActiveDelegation.promise e.2) "Delegation cancelled"
    (clearTimeout (ActiveDelegation.timer e.2) rt).

Definition cancelAll (d : t) : t :=
  let rt := fold_left cancel_body (activeDelegations d) (runtime d) in
  with_activeDelegations [] (with_runtime rt d).

(** The rotation loop of [selectPeers]:
    [for (let i = 0; i < candidates.length; i++)
       rotated.push(candidates[(this.roundRobinIndex + i) % candidates.length])]. *)
Definition rotation (index : nat) (candidates : list PeerEntry) : list PeerEntry :=
  omap (λ i, candidates !! ((index + i) `mod` length candidates)%nat)
    (seq 0 (length candidates)).

(** [constraints?.tool_allowlist?.length]: truthy for a non-empty list. *)
Definition allowlist_given (constraints : option SwarmTaskConstraints)
  : option (list string) :=
  match constraints with
  | Some c =>
      match tool_allowlist c with
      | Some (tool :: tools) => Some (tool :: tools)
      | _ => None
      end
  | None => None
  end.

Definition selectPeers (env : Env) (constraints : option SwarmTaskConstraints) (d : t)
  : t * list PeerEntry :=
  let candidates :=
    match strategy d, allowlist_given constraints with
    | capability_match, Some required =>
        List.filter
          (λ peer, existsb (λ tool, bool_decide (tool ∈ capabilities (identity peer)))
                     required)
          (getActivePeers env)
    | _, _ => getActivePeers env
    end in
  if bool_decide (strategy d = round_robin) && bool_decide (0 < length candidates)%nat
  then
    (with_roundRobinIndex ((roundRobinIndex d + 1) `mod` length candidates)%nat d,
     rotation (roundRobinIndex d) candidates)
  else (d, candidates).

(** The timer callback installed by [delegateToPeer]. *)
Definition fireTimer (tid : nat) (d : t) : t :=
  match timers (runtime d) !! tid with
  | Some tm =>
      match timer_state tm with
      | Armed =>
          let rt1 :=
            {| promises := promises (runtime d);
               timers := <[tid := set_timer_state Fired tm]> (timers (runtime d));
               trace := trace (runtime d) |} in
          let d1 := with_activeDelegations
                      (JsMap.delete (timer_task_id tm) (activeDelegations d))
                      (with_runtime rt1 d) in
          with_runtime
            (reject (timer_promise tm)
               ("Delegation to " +:+ timer_peer tm +:+ " timed out after "
                  +:+ pretty (delegationTimeoutMs d1) +:+ "ms")
               (runtime d1)) d1
      | _ => d
      end
  | None => d
  end.

Definition handle (ev : Event) (d : t) : t :=
  match ev with
  | ResultPosted result => (resolveTask result d).1
  | TimerFired tid => fireTimer tid d
  | CancelAllCalled => cancelAll d
  end.

(** The executor of the promise [delegateToPeer] returns: arm the expiry
    timer and register the delegation. *)
Definition register (env : Env) (now : Z) (peer : PeerEntry) (task : string) (d : t)
  : t * nat :=
  let '(rt1, p) := newPromise (runtime d) in
  let '(rt2, tid) := setTimeout task p (node_id (identity peer)) rt1 in
  let delegation :=
    {| ActiveDelegation.task_id := task;
       ActiveDelegation.peer_node_id := node_id (identity peer);
       ActiveDelegation.correlation_id := uuid env task;
       ActiveDelegation.sent_at := now;
       ActiveDelegation.timeout_ms := delegationTimeoutMs d;
       ActiveDelegation.promise := p;
       ActiveDelegation.timer := tid |} in
  (with_activeDelegations (JsMap.set task delegation (activeDelegations d))
     (with_runtime rt2 d),
   p).

(** Awaiting promise [p]: events are handled one at a time until the
    promise is settled. *)
Fixpoint await (p : nat) (events : list Event) (d : t)
  : t * completion SwarmTaskResult.t :=
  match promises (runtime d) !! p with
  | Some (Fulfilled result) => (d, Returned result)
  | Some (Rejected message) => (d, Thrown message)
  | _ =>
      match events with
      | [] => (d, Blocked)
      | ev :: events' => await p events' (handle ev d)
      end
  end.

Definition delegateToPeer (env : Env) (now : Z) (peer : PeerEntry) (d : t)
  : t * completion SwarmTaskResult.t :=
  let delegateResult := delegateTask env (node_id (identity peer)) in
  let d0 := with_runtime (log (DelegateTaskCall (node_id (identity peer))) (runtime d)) d in
  if negb (accepted delegateResult) then
    (d0, Thrown ("Peer " +:+ node_id (identity peer) +:+ " rejected: "
                   +:+ default "undefined" (reason delegateResult)))
  else
    let '(d1, p) := register env now peer (taskId delegateResult) d0 in
    await p (arrivals env (taskId delegateResult)) d1.

(** The [for (const peer of peers)] loop of [distribute]. *)
Fixpoint distribute_loop (env : Env) (now : Z) (peers : list PeerEntry)
    (attempts : Z) (lastError : option string) (d : t)
  : t * completion SwarmTaskResult.t :=
  match peers with
  | [] => (d, Thrown (default "Failed to distribute task to any peer" lastError))
  | peer :: peers' =>
      if bool_decide (attempts >= maxRetries d + 1) then
        (d, Thrown (default "Failed to distribute task to any peer" lastError))
      else
        match delegateToPeer env now peer d with
        | (d', Returned result) => (d', Returned result)
        | (d', Thrown err) => distribute_loop env now peers' (attempts + 1) (Some err) d'
        | (d', Blocked) => (d', Blocked)
        end
  end.

Definition distribute (env : Env) (now : Z)
    (constraints : option SwarmTaskConstraints) (d : t)
  : t * completion SwarmTaskResult.t :=
  let '(d1, peers) := selectPeers env constraints d in
  if bool_decide (length peers = 0%nat) then
    (d1, Thrown "No suitable peers available for task distribution")
  else distribute_loop env now peers 0 None d1.

(** One line of [getActiveDelegations]. *)
Record DelegationInfo := {
  info_task_id : string;
  info_peer_node_id : string;
  info_elapsed_ms : Z;
}.

(** [getActiveDelegations()], with [Date.now()] passed as [now]. *)
Definition getActiveDelegations (now : Z) (d : t) : list DelegationInfo :=
  (λ dl, {| info_task_id := ActiveDelegation.task_id dl;
            info_peer_node_id := ActiveDelegation.peer_node_id dl;
            info_elapsed_ms := now - ActiveDelegation.sent_at dl |})
  <$> JsMap.values (activeDelegations d).

End WorkDistributor.

(** ** MeshManager: replay protection of inbound task requests *)

Module SwarmTaskRequest.
Record t := {
  task_id : string;
  originator_node_id : string;
  originator_session_id : string;
  task_text : string;
  constraints : option SwarmTaskConstraints;
  correlation_id : string;
  nonce : string;
}.
End SwarmTaskRequest.

Module MeshManager.

(** Modelled from the spec: the answer of [handleTaskRequest],
    [{accepted, reason?, session_id?}] (section 4.4 and the wire message
    of [POST /task/request] in section 6). *)
Record Response := {
  accepted : bool;
  reason : option string;
  session_id : option string;
}.

(** Modelled from the spec: mesh-manager.ts is not among the sources, so
    the manager's state is the part section 3 and section 4.4 of the
    specification describe for task requests: the configured
    [nonce_window_ms], the optional [onTaskRequest] session factory, and
    the nonce ledger mapping a nonce to the instant it was first seen.
    [sessions] lists the requests handed to the factory, oldest first. *)
Record t := {
  nonce_window_ms : Z;
  onTaskRequest : option (SwarmTaskRequest.t → Response);
  nonces : gmap string Z;
  sessions : list SwarmTaskRequest.t;
}.

Definition with_nonces (m : gmap string Z) (d : t) : t :=
  {| nonce_window_ms := nonce_window_ms d; onTaskRequest := onTaskRequest d;
     nonces := m; sessions := sessions d |}.

Definition with_sessions (l : list SwarmTaskRequest.t) (d : t) : t :=
  {| nonce_window_ms := nonce_window_ms d; onTaskRequest := onTaskRequest d;
     nonces := nonces d; sessions := l |}.

(** Modelled from the spec: step 1 of [handleTaskRequest], "lazily expire
    nonce ledger entries older than [nonce_window_ms]": an entry first
    seen at [seen] is dropped when [now - seen] exceeds the window. *)
Definition expireNonces (now : Z) (d : t) : t :=
  with_nonces (filter (λ kv, now - kv.2 <= nonce_window_ms d) (nonces d)) d.

(** Modelled from the spec: steps 1 to 5 of [handleTaskRequest] in
    section 4.4.  Expire old nonces; a nonce still in the ledger is a
    replay; without a session factory the request is refused and the
    nonce is not recorded; otherwise the nonce is recorded at [now] and
    the factory's answer is returned as it is. *)
Definition handleTaskRequest (now : Z) (req : SwarmTaskRequest.t) (d : t)
  : t * Response :=
  let d1 := expireNonces now d in
  match nonces d1 !! SwarmTaskRequest.nonce req with
  | Some _ =>
      (d1, {| accepted := false; reason := Some "Replayed nonce";
              session_id := None |})
  | None =>
      match onTaskRequest d1 with
      | None =>
          (d1, {| accepted := false;
                  reason := Some "Node does not accept delegated tasks";
                  session_id := None |})
      | Some factory =>
          let d2 := with_nonces (<[SwarmTaskRequest.nonce req := now]> (nonces d1)) d1 in
          let d3 := with_sessions (sessions d2 ++ [req]) d2 in
          (d3, factory req)
      end
  end.

(** Successive [handleTaskRequest] calls, each at its own instant. *)
Definition handleAll (reqs : list (Z * SwarmTaskRequest.t)) (d : t) : t :=
  fold_left (λ d' tr, (handleTaskRequest tr.1 tr.2 d').1) reqs d.

End MeshManager.

(** ** Concrete data

    The identities the tests build with [makeIdentity], and the
    thresholds of [DEFAULT_SWARM_CONFIG]. *)

Definition makeIdentity (id : string) (caps : list string) : SwarmNodeIdentity :=
  {| node_id := id; display_name := "Test Node";
     api_url := "http://localhost:3100"; capabilities := caps;
     version := "0.1.0" |}.

Definition default_thresholds : SweepThresholds :=
  {| suspected_after_ms := 15000; unreachable_after_ms := 30000;
     evict_after_ms := 120000 |}.

(** A table of capacity 5 holding the peer "remote-1", joined at instant 0. *)
Definition one_peer_table : PeerTable.t :=
  (PeerTable.add 0 (makeIdentity "remote-1" ["read-file"]) (PeerTable.new 5)).1.

Definition remote_1 : PeerEntry :=
  {| identity := makeIdentity "remote-1" ["read-file"]; status := Active;
     last_heartbeat_at := 0; last_latency_ms := 0; consecutive_failures := 0;
     joined_at := 0 |}.

(** Two active peers and a mesh that refuses every delegation. *)
Definition peer_a : PeerEntry :=
  {| identity := makeIdentity "a" ["read-file"]; status := Active;
     last_heartbeat_at := 0; last_latency_ms := 0; consecutive_failures := 0;
     joined_at := 0 |}.

Definition peer_b : PeerEntry :=
  {| identity := makeIdentity "b" ["shell-exec"]; status := Active;
     last_heartbeat_at := 0; last_latency_ms := 0; consecutive_failures := 0;
     joined_at := 0 |}.

Definition refusing_env : Env :=
  {| getActivePeers := [peer_a; peer_b];
     delegateTask := λ _, {| accepted := false; reason := Some "Busy"; taskId := "" |};
     uuid := λ task, "corr-" +:+ task;
     arrivals := λ _, [] |}.

(** A distributor with one delegation in flight, "task-1" on peer "a",
    and the result that peer posts back. *)
Definition one_delegation : WorkDistributor.t :=
  (WorkDistributor.register refusing_env 1000 peer_a "task-1"
     (WorkDistributor.new round_robin 300000 0)).1.

Definition result_1 : SwarmTaskResult.t :=
  {| SwarmTaskResult.task_id := "task-1";
     SwarmTaskResult.peer_node_id := "a";
     SwarmTaskResult.peer_session_id := "session-1";
     SwarmTaskResult.status := completed;
     SwarmTaskResult.findings := [];
     SwarmTaskResult.tokens_used := 100;
     SwarmTaskResult.cost_usd := 0;
     SwarmTaskResult.duration_ms := 5000 |}.

(** Scenario S5 of the specification: peers "a" and "b" are active, the
    mesh refuses the delegation to "a" and accepts the one to "b" as task
    "task-b", and "b" posts its result back. *)
Definition result_b : SwarmTaskResult.t :=
  {| SwarmTaskResult.task_id := "task-b";
     SwarmTaskResult.peer_node_id := "b";
     SwarmTaskResult.peer_session_id := "session-b";
     SwarmTaskResult.status := completed;
     SwarmTaskResult.findings := [];
     SwarmTaskResult.tokens_used := 100;
     SwarmTaskResult.cost_usd := 0;
     SwarmTaskResult.duration_ms := 5000 |}.

Definition retry_env : Env :=
  {| getActivePeers := [peer_a; peer_b];
     delegateTask := λ peer,
       if decide (peer = "a")
       then {| accepted := false; reason := Some "Busy"; taskId := "" |}
       else {| accepted := true; reason := None; taskId := "task-b" |};
     uuid := λ task, "corr-" +:+ task;
     arrivals := λ task, if decide (task = "task-b") then [ResultPosted result_b] else [] |}.

(** Scenario S4 of the specification: a manager whose session factory
    accepts every task as session "sess-X", and a request with nonce "N1". *)
Definition accepting_manager : MeshManager.t :=
  {| MeshManager.nonce_window_ms := 300000;
     MeshManager.onTaskRequest :=
       Some (λ _, {| MeshManager.accepted := true; MeshManager.reason := None;
                     MeshManager.session_id := Some "sess-X" |});
     MeshManager.nonces := ∅;
     MeshManager.sessions := [] |}.

Definition request_1 : SwarmTaskRequest.t :=
  {| SwarmTaskRequest.task_id := "task-1";
     SwarmTaskRequest.originator_node_id := "remote-1";
     SwarmTaskRequest.originator_session_id := "session-1";
     SwarmTaskRequest.task_text := "Test task";
     SwarmTaskRequest.constraints := None;
     SwarmTaskRequest.correlation_id := "corr-1";
     SwarmTaskRequest.nonce := "N1" |}.

Definition request_2 : SwarmTaskRequest.t :=
  {| SwarmTaskRequest.task_id := "task-2";
     SwarmTaskRequest.originator_node_id := "remote-1";
     SwarmTaskRequest.originator_session_id := "session-1";
     SwarmTaskRequest.task_text := "Test task";
     SwarmTaskRequest.constraints := None;
     SwarmTaskRequest.correlation_id := "corr-1";
     SwarmTaskRequest.nonce := "N1" |}.

(** Scenario S6 of the specification: one active peer "a" accepts the
    delegation as task "task-a" and never answers; the expiry timer, the
    first one created, fires. *)
Definition silent_env : Env :=
  {| getActivePeers := [peer_a];
     delegateTask := λ _, {| accepted := true; reason := None; taskId := "task-a" |};
     uuid := λ task, "corr-" +:+ task;
     arrivals := λ _, [TimerFired 0] |}.

(** ** Specification-level notions used by the theorems *)

(** The branch the [if]/[else if] chain of [sweep] takes for one entry. *)
Inductive Transition := Evict | ToUnreachable | ToSuspected | Stay.

#[global] Instance Transition_eq_dec : EqDecision Transition.
Proof. solve_decision. Defined.

Definition transition (thresholds : SweepThresholds) (now : Z) (peer : PeerEntry)
  : Transition :=
  if bool_decide (status peer = Left) then Stay
  else
    let age := now - last_heartbeat_at peer in
    if bool_decide (age >= evict_after_ms thresholds) then Evict
    else if bool_decide (age >= unreachable_after_ms thresholds)
              && bool_decide (status peer ≠ Unreachable) then ToUnreachable
    else if bool_decide (age >= suspected_after_ms thresholds)
              && bool_decide (status peer = Active) then ToSuspected
    else Stay.

(** The ids, in table order, of the entries that take branch [x]. *)
Definition moved (thresholds : SweepThresholds) (now : Z) (x : Transition)
    (m : list (string * PeerEntry)) : list string :=
  (List.filter (λ e, bool_decide (transition thresholds now e.2 = x)) m).*1.

(** A table slot after its entry took branch [x]. *)
Definition after (x : Transition) (slot : option PeerEntry) : option PeerEntry :=
  match x with
  | Evict => None
  | ToUnreachable => set_status Unreachable <$> slot
  | ToSuspected => set_status Suspected <$> slot
  | Stay => slot
  end.

(** How far along active, suspected, unreachable, evicted a table slot is:
    an absent entry has been evicted. *)
Definition stage (slot : option PeerEntry) : nat :=
  match slot with
  | Some p =>
      match status p with
      | Active => 0
      | Suspected => 1
      | Unreachable => 2
      | Left => 0
      end
  | None => 3
  end.

Definition is_left (slot : option PeerEntry) : Prop :=
  match slot with
  | Some p => status p = Left
  | None => False
  end.

(** Successive [sweep] calls at the instants [nows], nothing in between. *)
Definition sweeps (thresholds : SweepThresholds) (nows : list Z) (tbl : PeerTable.t)
  : PeerTable.t :=
  fold_left (λ t now, (PeerTable.sweep now thresholds t).1) nows tbl.

(** The fields of the distributor that only [selectPeers] may change. *)
Definition same_config (d d' : WorkDistributor.t) : Prop :=
  WorkDistributor.strategy d' = WorkDistributor.strategy d
  ∧ WorkDistributor.roundRobinIndex d' = WorkDistributor.roundRobinIndex d
  ∧ WorkDistributor.maxRetries d' = WorkDistributor.maxRetries d
  ∧ WorkDistributor.delegationTimeoutMs d' = WorkDistributor.delegationTimeoutMs d.

(** What the specification says of [selectPeers] under rotation: the
    active peers rotated to start at the round-robin index, and the index
    advanced by one modulo the number of candidates. *)
Definition rotates_and_advances (env : Env) (constraints : option SwarmTaskConstraints)
    (d : WorkDistributor.t) : Prop :=
  WorkDistributor.selectPeers env constraints d
  = (WorkDistributor.with_roundRobinIndex
       ((WorkDistributor.roundRobinIndex d + 1) `mod` length (getActivePeers env))%nat d,
     rotate (WorkDistributor.roundRobinIndex d) (getActivePeers env)).

(** The first candidate of each of [n] successive [distribute] calls. *)
Fixpoint first_candidates (env : Env) (now : Z)
    (constraints : option SwarmTaskConstraints) (n : nat) (d : WorkDistributor.t)
  : list PeerEntry :=
  match n with
  | O => []
  | S n' =>
      match (WorkDistributor.selectPeers env constraints d).2 with
      | [] => []
      | first :: _ => [first]
      end
      ++ first_candidates env now constraints n'
           (WorkDistributor.distribute env now constraints d).1
  end.

(** The promises a trace settled (resolved or rejected), in call order. *)
Definition settled (tr : list Effect) : list nat :=
  omap (λ e, match e with
             | ResolveCall p _ | RejectCall p _ => Some p
             | _ => None
             end) tr.

(** The timers a trace cleared, in call order. *)
Definition cleared (tr : list Effect) : list nat :=
  omap (λ e, match e with ClearTimeoutCall tid => Some tid | _ => None end) tr.

(** The peers a trace asked to take a task, in call order. *)
Definition delegate_calls (tr : list Effect) : list string :=
  omap (λ e, match e with DelegateTaskCall peer => Some peer | _ => None end) tr.

(** The bookkeeping invariant of the distributor: the active-delegations
    map, the promises and the timers agree. *)
Record consistent (d : WorkDistributor.t) : Prop := {
  (** keys are distinct, and each delegation is stored under its task id *)
  consistent_wf : JsMap.wf (WorkDistributor.activeDelegations d);
  consistent_key : ∀ k dl,
    JsMap.get k (WorkDistributor.activeDelegations d) = Some dl →
    ActiveDelegation.task_id dl = k;
  (** the promise of an active delegation is pending, and every pending
      promise belongs to exactly one active delegation *)
  consistent_pending : ∀ k dl,
    JsMap.get k (WorkDistributor.activeDelegations d) = Some dl →
    promises (WorkDistributor.runtime d) !! ActiveDelegation.promise dl = Some Pending;
  consistent_owned : ∀ p,
    promises (WorkDistributor.runtime d) !! p = Some Pending →
    ∃ k dl, JsMap.get k (WorkDistributor.activeDelegations d) = Some dl
            ∧ ActiveDelegation.promise dl = p;
  consistent_promise_inj : ∀ k1 dl1 k2 dl2,
    JsMap.get k1 (WorkDistributor.activeDelegations d) = Some dl1 →
    JsMap.get k2 (WorkDistributor.activeDelegations d) = Some dl2 →
    ActiveDelegation.promise dl1 = ActiveDelegation.promise dl2 → k1 = k2;
  (** the timer of an active delegation is armed and closes over its task
      id and promise, and every armed timer belongs to an active
      delegation *)
  consistent_timer : ∀ k dl,
    JsMap.get k (WorkDistributor.activeDelegations d) = Some dl →
    ∃ tm, timers (WorkDistributor.runtime d) !! ActiveDelegation.timer dl = Some tm
          ∧ timer_state tm = Armed ∧ timer_task_id tm = k
          ∧ timer_promise tm = ActiveDelegation.promise dl;
  consistent_armed : ∀ tid tm,
    timers (WorkDistributor.runtime d) !! tid = Some tm →
    timer_state tm = Armed →
    ∃ dl, JsMap.get (timer_task_id tm) (WorkDistributor.activeDelegations d) = Some dl
          ∧ ActiveDelegation.timer dl = tid;
  (** no promise was settled twice, and a settled promise is not pending *)
  consistent_once : NoDup (settled (trace (WorkDistributor.runtime d)));
  consistent_settled : ∀ p,
    p ∈ settled (trace (WorkDistributor.runtime d)) →
    ∃ s, promises (WorkDistributor.runtime d) !! p = Some s ∧ s ≠ Pending;
}.

(** The states a distributor can be in: built by the constructor, then
    any interleaving of peer selections, [delegateTask] calls,
    registrations of accepted delegations and events.  A registration
    uses a task id that is not active: [delegateTask] generates a new one
    for every request. *)
Inductive reachable (env : Env) : WorkDistributor.t → Prop :=
  | reachable_new strat timeout retries :
      reachable env (WorkDistributor.new strat timeout retries)
  | reachable_select c d :
      reachable env d → reachable env (WorkDistributor.selectPeers env c d).1
  | reachable_call peer d :
      reachable env d →
      reachable env
        (WorkDistributor.with_runtime
           (log (DelegateTaskCall peer) (WorkDistributor.runtime d)) d)
  | reachable_register now peer task d :
      reachable env d →
      JsMap.get task (WorkDistributor.activeDelegations d) = None →
      reachable env (WorkDistributor.register env now peer task d).1
  | reachable_handle ev d :
      reachable env d → reachable env (WorkDistributor.handle ev d).

(** Every attempt on the peers [ps], made in order from state [d], fails:
    the errors thrown are [errs] and the distributor ends in state [d']. *)
Inductive all_fail (env : Env) (now : Z)
  : list PeerEntry → WorkDistributor.t → list string → WorkDistributor.t → Prop :=
  | all_fail_nil d : all_fail env now [] d [] d
  | all_fail_cons peer ps d d1 err errs d' :
      WorkDistributor.delegateToPeer env now peer d = (d1, Thrown err) →
      all_fail env now ps d1 errs d' →
      all_fail env now (peer :: ps) d (err :: errs) d'.

(** The error [distribute] is left with: the last of [errs], or else what
    was recorded before. *)
Definition last_error (lastError : option string) (errs : list string) : option string :=
  match last errs with
  | Some e => Some e
  | None => lastError
  end.

(** ** The tool adapters (swarm-tool.ts) *)

Module SwarmTool.

(** A value of the untyped [input] object, as far as the handler's
    run-time check ([!taskText || typeof taskText !== "string"]) can tell
    values apart. *)
Inductive JsValue :=
  | JsUndefined
  | JsNull
  | JsBoolean (b : bool)
  | JsNumber (z : Z)
  | JsString (s : string).

(** The [mode] argument of a tool handler: ["mock"], ["dry_run"], or
    anything else. *)
Inductive ExecutionMode := mock | dry_run | real.

(** The fields [createSwarmDistributeHandler] reads from [input].  Only
    [task_text] is checked at run time; the others are cast. *)
Record DistributeInput := {
  task_text : JsValue;
  in_tool_allowlist : option (list string);
  in_max_tokens : option Z;
  in_max_cost_usd : option Z;
  in_max_duration_ms : option Z;
}.

(** The record a mock or a completed distribution returns. *)
Record TaskOutput := {
  out_status : TaskStatus;
  out_findings : list string;
  out_peer_node_id : string;
  out_peer_session_id : option string;
  out_tokens_used : Z;
  out_cost_usd : Z;
  out_duration_ms : Z;
}.

Inductive DistributeOutput :=
  | TaskResult (out : TaskOutput)
  | DryRun (would_distribute_to : list string) (available_peers : Z)
      (echoed_task_text : JsValue).

(** The canned result of mock mode.  Findings are carried as opaque
    strings; the single mock finding is named by its [step_title]. *)
Definition mockOutput : TaskOutput :=
  {| out_status := completed; out_findings := ["mock step"];
     out_peer_node_id := "mock-peer"; out_peer_session_id := None;
     out_tokens_used := 0; out_cost_usd := 0; out_duration_ms := 0 |}.

(** [constraints] with the undefined entries removed, and [undefined]
    instead of an object without keys. *)
Definition cleanConstraints (input : DistributeInput) : option SwarmTaskConstraints :=
  match in_tool_allowlist input, in_max_tokens input,
        in_max_cost_usd input, in_max_duration_ms input with
  | None, None, None, None => None
  | allow, tokens, cost, duration =>
      Some {| tool_allowlist := allow; max_tokens := tokens;
              max_cost_usd := cost; max_duration_ms := duration |}
  end.

Definition projectResult (result : SwarmTaskResult.t) : TaskOutput :=
  {| out_status := SwarmTaskResult.status result;
     out_findings := SwarmTaskResult.findings result;
     out_peer_node_id := SwarmTaskResult.peer_node_id result;
     out_peer_session_id := Some (SwarmTaskResult.peer_session_id result);
     out_tokens_used := SwarmTaskResult.tokens_used result;
     out_cost_usd := SwarmTaskResult.cost_usd result;
     out_duration_ms := SwarmTaskResult.duration_ms result |}.

(** The handler [createSwarmDistributeHandler] returns.  The task text
    and the session id ["swarm-tool"] travel on to [delegateTask], which
    is a parameter of the distributor's environment. *)
Definition swarmDistributeHandler (env : Env) (now : Z)
    (input : DistributeInput) (mode : ExecutionMode) (d : WorkDistributor.t)
  : WorkDistributor.t * completion DistributeOutput :=
  match mode with
  | mock => (d, Returned (TaskResult mockOutput))
  | dry_run =>
      let peers := getActivePeers env in
      (d, Returned (DryRun ((λ p, node_id (identity p)) <$> peers)
                      (Z.of_nat (length peers)) (task_text input)))
  | real =>
      match task_text input with
      | JsString text =>
          if bool_decide (text = "") then
            (d, Thrown "task_text is required and must be a string")
          else
            match WorkDistributor.distribute env now (cleanConstraints input) d with
            | (d', Returned result) => (d', Returned (TaskResult (projectResult result)))
            | (d', Thrown message) => (d', Thrown message)
            | (d', Blocked) => (d', Blocked)
            end
      | _ => (d, Thrown "task_text is required and must be a string")
      end
  end.

(** [PeerStatus] values are strings in the source. *)
Definition status_name (s : PeerStatus) : string :=
  match s with
  | Active => "active"
  | Suspected => "suspected"
  | Unreachable => "unreachable"
  | Left => "left"
  end.

Record PeersInput := {
  status_filter : option string;
  capability_filter : option string;
}.

(** One element of the [peers] array of [swarm-peers]. *)
Record PeerView := {
  view_node_id : string;
  view_display_name : string;
  view_api_url : string;
  view_capabilities : list string;
  view_status : string;
  view_last_heartbeat_at : Z;
  view_last_latency_ms : Z;
}.

Inductive SelfView :=
  | LocalIdentity (ident : SwarmNodeIdentity)
  | MockIdentity (mock_node_id mock_display_name : string)
      (mock_capabilities : list string).

Record PeersOutput := {
  self : SelfView;
  peers : list PeerView;
  total : Z;
}.

Definition projectPeer (p : PeerEntry) : PeerView :=
  {| view_node_id := node_id (identity p);
     view_display_name := display_name (identity p);
     view_api_url := api_url (identity p);
     view_capabilities := capabilities (identity p);
     view_status := status_name (status p);
     view_last_heartbeat_at := last_heartbeat_at p;
     view_last_latency_ms := last_latency_ms p |}.

(** [if (filter)]: a filter that is undefined or the empty string is not
    applied. *)
Definition given (filter : option string) : option string :=
  match filter with
  | Some text => if bool_decide (text = "") then None else Some text
  | None => None
  end.

(** The handler [createSwarmPeersHandler] returns; [localIdentity] and
    [allPeers] are what [meshManager.getIdentity()] and
    [meshManager.getPeers()] answer. *)
Definition swarmPeersHandler (localIdentity : SwarmNodeIdentity)
    (allPeers : list PeerEntry) (input : PeersInput) (mode : ExecutionMode)
  : PeersOutput :=
  match mode with
  | mock => {| self := MockIdentity "mock-node" "Mock" []; peers := []; total := 0 |}
  | _ =>
      let peers1 :=
        match given (status_filter input) with
        | Some statusFilter =>
            List.filter (λ p, bool_decide (status_name (status p) = statusFilter)) allPeers
        | None => allPeers
        end in
      let peers2 :=
        match given (capability_filter input) with
        | Some capFilter =>
            List.filter (λ p, bool_decide (capFilter ∈ capabilities (identity p))) peers1
        | None => peers1
        end in
      {| self := LocalIdentity localIdentity;
         peers := projectPeer <$> peers2;
         total := Z.of_nat (length peers2) |}
  end.

End SwarmTool.

(** ** Further specification-level notions *)

(** Every entry is stored under the node id of its identity. *)
Definition coherent (m : list (string * PeerEntry)) : Prop :=
  ∀ k p, (k, p) ∈ m → node_id (identity p) = k.

(** The state invariant of a peer table. *)
Definition table_ok (tbl : PeerTable.t) : Prop :=
  JsMap.wf (PeerTable.peers tbl)
  ∧ coherent (PeerTable.peers tbl)
  ∧ PeerTable.size tbl <= PeerTable.maxPeers tbl.

(** The mutating methods of [PeerTable], as calls. *)
Inductive TableCall :=
  | CallAdd (now : Z) (ident : SwarmNodeIdentity)
  | CallRemove (nodeId : string)
  | CallRecordHeartbeat (now : Z) (nodeId : string) (latencyMs : Z)
  | CallRecordFailure (nodeId : string)
  | CallMarkLeft (nodeId : string)
  | CallSweep (now : Z) (thresholds : SweepThresholds)
  | CallClear.

Definition call (c : TableCall) (tbl : PeerTable.t) : PeerTable.t :=
  match c with
  | CallAdd now ident => (PeerTable.add now ident tbl).1
  | CallRemove nodeId => (PeerTable.remove nodeId tbl).1
  | CallRecordHeartbeat now nodeId latencyMs =>
      (PeerTable.recordHeartbeat now nodeId latencyMs tbl).1
  | CallRecordFailure nodeId => (PeerTable.recordFailure nodeId tbl).1
  | CallMarkLeft nodeId => (PeerTable.markLeft nodeId tbl).1
  | CallSweep now thresholds => (PeerTable.sweep now thresholds tbl).1
  | CallClear => PeerTable.clear tbl
  end.

Definition calls (cs : list TableCall) (tbl : PeerTable.t) : PeerTable.t :=
  fold_left (λ t c, call c t) cs tbl.

(** The table [sweep] leaves, entry by entry, in the order of the map. *)
Definition swept (thresholds : SweepThresholds) (now : Z)
    (m : list (string * PeerEntry)) : list (string * PeerEntry) :=
  omap (λ e, match transition thresholds now e.2 with
             | Evict => None
             | ToUnreachable => Some (e.1, set_status Unreachable e.2)
             | ToSuspected => Some (e.1, set_status Suspected e.2)
             | Stay => Some e
             end) m.

(** [n] successive [recordFailure(nodeId)] calls. *)
Fixpoint recordFailures (n : nat) (nodeId : string) (tbl : PeerTable.t) : PeerTable.t :=
  match n with
  | O => tbl
  | S n' => recordFailures n' nodeId (PeerTable.recordFailure nodeId tbl).1
  end.

(** The task ids of the active delegations. *)
Definition active_tasks (d : WorkDistributor.t) : list string :=
  JsMap.keys (WorkDistributor.activeDelegations d).

(** No candidate's task id, as [delegateTask] would generate it, is
    active: [delegateTask] makes a new id for every request. *)
Definition fresh_task_ids (env : Env) (d : WorkDistributor.t) : Prop :=
  ∀ peer, peer ∈ getActivePeers env →
    JsMap.get (taskId (delegateTask env (node_id (identity peer))))
      (WorkDistributor.activeDelegations d) = None.

(** A distributor with the delegation "task-a" of [silent_env] in flight. *)
Definition delegation_a : WorkDistributor.t :=
  (WorkDistributor.register silent_env 1000 peer_a "task-a"
     (WorkDistributor.new round_robin 50 0)).1.

Definition result_a : SwarmTaskResult.t :=
  {| SwarmTaskResult.task_id := "task-a";
     SwarmTaskResult.peer_node_id := "a";
     SwarmTaskResult.peer_session_id := "session-a";
     SwarmTaskResult.status := completed;
     SwarmTaskResult.findings := [];
     SwarmTaskResult.tokens_used := 7;
     SwarmTaskResult.cost_usd := 0;
     SwarmTaskResult.duration_ms := 20 |}.

(** * Facts about insertion-ordered maps *)

Module JsMapFacts.
Section facts.
Context {V : Type}.
Implicit Types (m : list (string * V)) (k : string) (v : V).

Lemma get_alter f k k' m :
  JsMap.get k' (JsMap.alter f k m)
  = if decide (k = k') then f <$> JsMap.get k' m else JsMap.get k' m.
Proof.
  induction m as [|[k0 v0] m IH]; simpl.
  - by destruct (decide (k = k')).
  - destruct (decide (k = k0)) as [->|Hk]; simpl.
    + destruct (decide (k' = k0)) as [->|Hk'].
      * by rewrite decide_True.
      * by rewrite decide_False.
    + destruct (decide (k' = k0)) as [->|Hk'].
      * by rewrite decide_False.
      * exact IH.
Qed.

Lemma get_delete k k' m :
  JsMap.get k' (JsMap.delete k m)
  = if decide (k = k') then None else JsMap.get k' m.
Proof.
  induction m as [|[k0 v0] m IH]; simpl.
  - by destruct (decide (k = k')).
  - destruct (decide (k = k0)) as [->|Hk]; simpl.
    + rewrite IH. destruct (decide (k0 = k')) as [->|Hk']; [done|].
      by rewrite decide_False.
    + destruct (decide (k' = k0)) as [->|Hk'].
      * by rewrite decide_False.
      * exact IH.
Qed.

Lemma get_set k k' v m :
  JsMap.get k' (JsMap.set k v m)
  = if decide (k = k') then Some v else JsMap.get k' m.
Proof.
  induction m as [|[k0 v0] m IH]; simpl.
  - destruct (decide (k = k')) as [->|Hk]; [by rewrite decide_True|].
    by rewrite decide_False.
  - destruct (decide (k = k0)) as [->|Hk]; simpl.
    + destruct (decide (k0 = k')) as [->|Hk']; [by rewrite decide_True|].
      by rewrite !decide_False.
    + destruct (decide (k' = k0)) as [->|Hk'].
      * by rewrite decide_False.
      * exact IH.
Qed.

Lemma keys_alter f k m : JsMap.keys (JsMap.alter f k m) = JsMap.keys m.
Proof.
  unfold JsMap.keys.
  induction m as [|[k0 v0] m IH]; csimpl; [done|].
  destruct (decide (k = k0)); csimpl; [done|]. by f_equal.
Qed.

Lemma length_alter f k m : length (JsMap.alter f k m) = length m.
Proof.
  induction m as [|[k0 v0] m IH]; simpl; [done|].
  destruct (decide (k = k0)); simpl; [done|]. by rewrite IH.
Qed.

Lemma get_None_keys k m : JsMap.get k m = None ↔ k ∉ JsMap.keys m.
Proof.
  unfold JsMap.keys.
  induction m as [|[k0 v0] m IH]; simpl.
  - split; [intros _; apply not_elem_of_nil | done].
  - rewrite not_elem_of_cons. destruct (decide (k = k0)) as [->|Hk].
    + split; [done | intros [? _]; done].
    + rewrite IH. tauto.
Qed.

Lemma get_Some_elem k v m : JsMap.get k m = Some v → (k, v) ∈ m.
Proof.
  induction m as [|[k0 v0] m IH]; simpl; [done|].
  destruct (decide (k = k0)) as [->|Hk].
  - intros [= ->]. apply elem_of_cons; by left.
  - intros H. apply elem_of_cons; right; auto.
Qed.

Lemma elem_get k v m : JsMap.wf m → (k, v) ∈ m → JsMap.get k m = Some v.
Proof.
  unfold JsMap.wf, JsMap.keys.
  induction m as [|[k0 v0] m IH]; simpl.
  - intros _ H. by apply elem_of_nil in H.
  - intros Hnd H. apply NoDup_cons in Hnd as [Hnot Hnd].
    apply elem_of_cons in H as [[= -> ->]|H].
    + by rewrite decide_True.
    + rewrite decide_False; [by apply IH|].
      intros ->. apply Hnot. apply list_elem_of_fmap. by exists (k0, v).
Qed.

Lemma keys_set_absent k v m :
  JsMap.get k m = None → JsMap.keys (JsMap.set k v m) = JsMap.keys m ++ [k].
Proof.
  unfold JsMap.keys.
  induction m as [|[k0 v0] m IH]; csimpl; [done|].
  destruct (decide (k = k0)) as [->|Hk]; [done|].
  intros H. csimpl. f_equal. by apply IH.
Qed.

Lemma length_set_absent k v m :
  JsMap.get k m = None → length (JsMap.set k v m) = S (length m).
Proof.
  induction m as [|[k0 v0] m IH]; simpl; [done|].
  destruct (decide (k = k0)) as [->|Hk]; [done|].
  intros H. simpl. by rewrite IH.
Qed.

Lemma keys_delete_sub k k' m :
  k' ∈ JsMap.keys (JsMap.delete k m) → k' ∈ JsMap.keys m.
Proof.
  intros H. destruct (JsMap.get k' m) eqn:E.
  - apply get_Some_elem in E. apply list_elem_of_fmap. by exists (k', v).
  - exfalso. apply get_None_keys in H; [done|].
    rewrite get_delete. by destruct (decide (k = k')).
Qed.

Lemma wf_alter f k m : JsMap.wf m → JsMap.wf (JsMap.alter f k m).
Proof. unfold JsMap.wf. by rewrite keys_alter. Qed.

Lemma wf_delete k m : JsMap.wf m → JsMap.wf (JsMap.delete k m).
Proof.
  unfold JsMap.wf, JsMap.keys.
  induction m as [|[k0 v0] m IH]; simpl; [done|].
  intros Hnd. apply NoDup_cons in Hnd as [Hnot Hnd].
  destruct (decide (k = k0)) as [->|Hk]; [by apply IH|].
  simpl. apply NoDup_cons. split; [|by apply IH].
  intros Hin. apply Hnot. by apply (keys_delete_sub k).
Qed.

Lemma wf_set k v m : JsMap.wf m → JsMap.wf (JsMap.set k v m).
Proof.
  unfold JsMap.wf, JsMap.keys.
  induction m as [|[k0 v0] m IH]; simpl.
  - intros _. apply NoDup_singleton.
  - intros Hnd. apply NoDup_cons in Hnd as [Hnot Hnd].
    destruct (decide (k = k0)) as [->|Hk]; simpl.
    + by apply NoDup_cons.
    + apply NoDup_cons. split; [|by apply IH].
      intros Hin. apply Hnot.
      destruct (JsMap.get k0 m) eqn:E.
      * apply get_Some_elem in E. apply list_elem_of_fmap. by exists (k0, v1).
      * exfalso. apply (get_None_keys k0 (JsMap.set k v m)); [|done].
        rewrite get_set. by rewrite decide_False.
Qed.

Lemma delete_absent k m : JsMap.get k m = None → JsMap.delete k m = m.
Proof.
  induction m as [|[k0 v0] m IH]; simpl; [done|].
  destruct (decide (k = k0)) as [->|Hk]; [done|].
  intros H. by rewrite IH.
Qed.
End facts.
End JsMapFacts.

(** * PeerTable: add and recordFailure *)

Module PeerTableFacts.
Import JsMapFacts.

Lemma size_nonneg tbl : 0 <= PeerTable.size tbl.
Proof. unfold PeerTable.size, JsMap.size. lia. Qed.

(** C6: [add] is an upsert.  On a table within its capacity: a present
    node id has its identity replaced, its status reset to active, its
    heartbeat stamped [now] and its failure count cleared, the refreshed
    entry is returned and the table keeps its keys and its size; an
    absent node id on a table that already holds [maxPeers] entries
    throws "Peer table full" and leaves the table as it was; otherwise a
    new entry (active, latency 0, failures 0) is appended.  In every
    case the other entries are untouched and the size stays within
    [maxPeers]. *)
Theorem add_upsert now ident tbl :
  PeerTable.size tbl <= PeerTable.maxPeers tbl →
  let tbl' := (PeerTable.add now ident tbl).1 in
  let res := (PeerTable.add now ident tbl).2 in
  PeerTable.size tbl' <= PeerTable.maxPeers tbl'
  ∧ PeerTable.maxPeers tbl' = PeerTable.maxPeers tbl
  ∧ (∀ other, other ≠ node_id ident →
       PeerTable.get other tbl' = PeerTable.get other tbl)
  ∧ match PeerTable.get (node_id ident) tbl with
    | Some existing =>
        let refreshed :=
          {| identity := ident; status := Active; last_heartbeat_at := now;
             last_latency_ms := last_latency_ms existing;
             consecutive_failures := 0; joined_at := joined_at existing |} in
        res = Ok refreshed
        ∧ PeerTable.get (node_id ident) tbl' = Some refreshed
        ∧ PeerTable.size tbl' = PeerTable.size tbl
        ∧ JsMap.keys (PeerTable.peers tbl') = JsMap.keys (PeerTable.peers tbl)
    | None =>
        if decide (PeerTable.size tbl = PeerTable.maxPeers tbl) then
          res = Throw ("Peer table full (max " +:+ pretty (PeerTable.maxPeers tbl) +:+ ")")
          ∧ tbl' = tbl
        else
          let entry :=
            {| identity := ident; status := Active; last_heartbeat_at := now;
               last_latency_ms := 0; consecutive_failures := 0;
               joined_at := now |} in
          res = Ok entry
          ∧ PeerTable.get (node_id ident) tbl' = Some entry
          ∧ PeerTable.size tbl' = PeerTable.size tbl + 1
          ∧ JsMap.keys (PeerTable.peers tbl')
            = JsMap.keys (PeerTable.peers tbl) ++ [node_id ident]
    end.
Proof.
  intros Hcap. unfold PeerTable.add, PeerTable.get, PeerTable.size, JsMap.size in *.
  destruct (JsMap.get (node_id ident) (PeerTable.peers tbl)) as [existing|] eqn:Hget;
    simpl.
  - rewrite length_alter. repeat split; try done.
    + intros other Hne. rewrite get_alter. by rewrite decide_False.
    + rewrite get_alter, decide_True by done. by rewrite Hget.
    + apply keys_alter.
  - case_bool_decide as Hfull; simpl.
    + rewrite decide_True by lia. repeat split; done.
    + rewrite decide_False by lia. rewrite length_set_absent by done.
      repeat split; try done; try lia.
      * intros other Hne. rewrite get_set. by rewrite decide_False.
      * rewrite get_set. by rewrite decide_True.
      * by apply keys_set_absent.
Qed.

Lemma add_upsert_witness :
  PeerTable.size (PeerTable.new 5) <= PeerTable.maxPeers (PeerTable.new 5)
  ∧ PeerTable.size one_peer_table <= PeerTable.maxPeers one_peer_table
  ∧ PeerTable.get "remote-1" one_peer_table = Some remote_1.
Proof.
  assert (PeerTable.size (PeerTable.new 5) <= PeerTable.maxPeers (PeerTable.new 5))
    as Hcap by (vm_compute; discriminate).
  split; [exact Hcap|].
  destruct (add_upsert 0 (makeIdentity "remote-1" ["read-file"]) (PeerTable.new 5) Hcap)
    as (Hsize & _ & _ & Hnew).
  split; [exact Hsize|]. exact (proj1 (proj2 Hnew)).
Defined.

(** C10: [recordFailure] touches one field of one entry.  For a present
    node id it returns the old failure count plus one and stores it in
    that peer's [consecutive_failures]; the peer's status, heartbeat,
    latency, identity and join time, every other entry, the key order
    and the capacity are unchanged.  For an absent node id it returns
    -1 and the table is unchanged. *)
Theorem recordFailure_frame nodeId tbl :
  let tbl' := (PeerTable.recordFailure nodeId tbl).1 in
  let n := (PeerTable.recordFailure nodeId tbl).2 in
  match PeerTable.get nodeId tbl with
  | Some peer =>
      n = consecutive_failures peer + 1
      ∧ (∃ peer', PeerTable.get nodeId tbl' = Some peer'
           ∧ consecutive_failures peer' = consecutive_failures peer + 1
           ∧ status peer' = status peer
           ∧ last_heartbeat_at peer' = last_heartbeat_at peer
           ∧ last_latency_ms peer' = last_latency_ms peer
           ∧ identity peer' = identity peer
           ∧ joined_at peer' = joined_at peer)
      ∧ (∀ other, other ≠ nodeId →
           PeerTable.get other tbl' = PeerTable.get other tbl)
      ∧ JsMap.keys (PeerTable.peers tbl') = JsMap.keys (PeerTable.peers tbl)
      ∧ PeerTable.maxPeers tbl' = PeerTable.maxPeers tbl
  | None => n = -1 ∧ tbl' = tbl
  end.
Proof.
  unfold PeerTable.recordFailure, PeerTable.get.
  destruct (JsMap.get nodeId (PeerTable.peers tbl)) as [peer|] eqn:Hget; simpl;
    [|done].
  split; [done|]. split; [|split; [|split]]; try done.
  - eexists. rewrite get_alter, decide_True, Hget by done. done.
  - intros other Hne. rewrite get_alter. by rewrite decide_False.
  - apply keys_alter.
Qed.

(** ** sweep *)

Lemma sweep_body_transition th now m r k p :
  PeerTable.sweep_body th now (m, r) (k, p)
  = match transition th now p with
    | Evict =>
        (JsMap.delete k m,
         {| PeerTable.suspected := PeerTable.suspected r;
            PeerTable.unreachable := PeerTable.unreachable r;
            PeerTable.evicted := PeerTable.evicted r ++ [k] |})
    | ToUnreachable =>
        (JsMap.alter (set_status Unreachable) k m,
         {| PeerTable.suspected := PeerTable.suspected r;
            PeerTable.unreachable := PeerTable.unreachable r ++ [k];
            PeerTable.evicted := PeerTable.evicted r |})
    | ToSuspected =>
        (JsMap.alter (set_status Suspected) k m,
         {| PeerTable.suspected := PeerTable.suspected r ++ [k];
            PeerTable.unreachable := PeerTable.unreachable r;
            PeerTable.evicted := PeerTable.evicted r |})
    | Stay => (m, r)
    end.
Proof.
  unfold PeerTable.sweep_body, transition.
  repeat (case_bool_decide; simpl; try done).
Qed.

Lemma moved_cons th now x k p es :
  moved th now x ((k, p) :: es)
  = if decide (transition th now p = x) then k :: moved th now x es
    else moved th now x es.
Proof.
  unfold moved. simpl. case_bool_decide.
  - by rewrite decide_True.
  - by rewrite decide_False.
Qed.

Lemma elem_of_moved th now x k es :
  k ∈ moved th now x es ↔ ∃ p, (k, p) ∈ es ∧ transition th now p = x.
Proof.
  induction es as [|[k0 p0] es IH].
  - split; [intros H; by apply elem_of_nil in H|].
    intros (p & H & _). by apply elem_of_nil in H.
  - rewrite moved_cons. destruct (decide (transition th now p0 = x)) as [Hx|Hx].
    + rewrite elem_of_cons, IH. split.
      * intros [->|(p & Hp & Ht)].
        -- exists p0. split; [apply elem_of_cons; by left | done].
        -- exists p. split; [apply elem_of_cons; by right | done].
      * intros (p & Hp & Ht). apply elem_of_cons in Hp as [[= -> ->]|Hp].
        -- by left.
        -- right. by exists p.
    + rewrite IH. split.
      * intros (p & Hp & Ht). exists p. split; [apply elem_of_cons; by right | done].
      * intros (p & Hp & Ht). apply elem_of_cons in Hp as [[= -> ->]|Hp]; [done|].
        by exists p.
Qed.

Lemma sweep_fold th now es :
  JsMap.wf es →
  ∀ m r,
    let res := fold_left (PeerTable.sweep_body th now) es (m, r) in
    (∀ k, JsMap.get k res.1
          = match JsMap.get k es with
            | Some p => after (transition th now p) (JsMap.get k m)
            | None => JsMap.get k m
            end)
    ∧ PeerTable.suspected res.2
      = PeerTable.suspected r ++ moved th now ToSuspected es
    ∧ PeerTable.unreachable res.2
      = PeerTable.unreachable r ++ moved th now ToUnreachable es
    ∧ PeerTable.evicted res.2
      = PeerTable.evicted r ++ moved th now Evict es
    ∧ (JsMap.wf m → JsMap.wf res.1).
Proof.
  unfold JsMap.wf, JsMap.keys.
  induction es as [|[k0 p0] es IH]; intros Hnd m r.
  - simpl. unfold moved. simpl. rewrite !app_nil_r. done.
  - csimpl in Hnd. apply NoDup_cons in Hnd as [Hnot Hnd].
    assert (JsMap.get k0 es = None) as Hk0 by by apply get_None_keys.
    cbn [fold_left]. rewrite sweep_body_transition.
    rewrite !moved_cons.
    destruct (transition th now p0) eqn:Ht.
    all: match goal with
      | |- context [fold_left _ _ (?m1, ?r1)] =>
          destruct (IH Hnd m1 r1) as (Hg & Hs & Hu & He & Hwf)
      end.
    all: cbn [PeerTable.suspected PeerTable.unreachable PeerTable.evicted] in Hs, Hu, He.
    all: cbv zeta; rewrite Hs, Hu, He.
    all: repeat (first [rewrite decide_True by done | rewrite decide_False by done]).
    all: rewrite <- ?app_assoc.
    all: split; [|split; [|split; [|split]]]; try done.
    all: try (intros Hm; apply Hwf; first [by apply wf_delete | by apply wf_alter | done]).
    all: intros k; rewrite Hg; cbn [JsMap.get];
      destruct (decide (k = k0)) as [->|Hk];
      [ rewrite Hk0, Ht; cbn [after];
        rewrite ?get_delete, ?get_alter, ?decide_True by done; done
      | destruct (JsMap.get k es);
        rewrite ?get_delete, ?get_alter, ?decide_False by done; done ].
Qed.

Lemma elem_of_moved_wf th now x k p es :
  JsMap.wf es → JsMap.get k es = Some p →
  k ∈ moved th now x es ↔ transition th now p = x.
Proof.
  intros Hwf Hget. rewrite elem_of_moved. split.
  - intros (p' & Hin & Ht). apply (elem_get _ _ _ Hwf) in Hin. congruence.
  - intros Ht. exists p. split; [by apply get_Some_elem | done].
Qed.

Lemma moved_keys th now x k es :
  k ∈ moved th now x es → is_Some (JsMap.get k es).
Proof.
  rewrite elem_of_moved. intros (p & Hin & _).
  destruct (JsMap.get k es) eqn:E; [by eexists|].
  apply get_None_keys in E. exfalso. apply E.
  apply list_elem_of_fmap. by exists (k, p).
Qed.

(** What [sweep] computes on a table with distinct keys, entry by entry. *)
Lemma sweep_spec now th tbl :
  JsMap.wf (PeerTable.peers tbl) →
  let res := PeerTable.sweep now th tbl in
  (∀ k, PeerTable.get k res.1
        = match PeerTable.get k tbl with
          | Some p => after (transition th now p) (Some p)
          | None => None
          end)
  ∧ PeerTable.suspected res.2 = moved th now ToSuspected (PeerTable.peers tbl)
  ∧ PeerTable.unreachable res.2 = moved th now ToUnreachable (PeerTable.peers tbl)
  ∧ PeerTable.evicted res.2 = moved th now Evict (PeerTable.peers tbl)
  ∧ JsMap.wf (PeerTable.peers res.1)
  ∧ PeerTable.maxPeers res.1 = PeerTable.maxPeers tbl.
Proof.
  intros Hwf. unfold PeerTable.sweep, PeerTable.get.
  destruct (sweep_fold th now (PeerTable.peers tbl) Hwf (PeerTable.peers tbl)
              {| PeerTable.suspected := []; PeerTable.unreachable := [];
                 PeerTable.evicted := [] |})
    as (Hg & Hs & Hu & He & Hwf').
  destruct (fold_left _ _ _) as [m r]. simpl in *.
  repeat split; try done; [|by apply Hwf'].
  intros k. rewrite Hg. by destruct (JsMap.get k (PeerTable.peers tbl)).
Qed.

Lemma transition_Left th now p : status p = Left → transition th now p = Stay.
Proof. intros H. unfold transition. by rewrite bool_decide_eq_true_2. Qed.

Lemma transition_ToUnreachable th now p :
  transition th now p = ToUnreachable →
  status p ≠ Left ∧ status p ≠ Unreachable.
Proof.
  unfold transition. repeat (case_bool_decide; simpl; try done).
Qed.

Lemma transition_ToSuspected th now p :
  transition th now p = ToSuspected → status p = Active.
Proof.
  unfold transition. repeat (case_bool_decide; simpl; try done).
Qed.

(** C1: [sweep] applies to every entry the first matching transition,
    highest threshold first.  For an entry [peer] stored under [nodeId]
    in a table with distinct keys, with [age = now - last_heartbeat_at]:
    a [Left] entry is untouched and reported in no list; otherwise, if
    [age >= evict_after_ms] the entry is removed and reported in
    [evicted] only; else if [age >= unreachable_after_ms] and the status
    is not [Unreachable] the status becomes [Unreachable] and the id is
    reported in [unreachable] only; else if [age >= suspected_after_ms]
    and the status is [Active] the status becomes [Suspected] and the id
    is reported in [suspected] only; else the entry is untouched and
    reported in no list.  The lists report ids of the table only. *)
Theorem sweep_first_match now th tbl nodeId peer :
  JsMap.wf (PeerTable.peers tbl) →
  PeerTable.get nodeId tbl = Some peer →
  let tbl' := (PeerTable.sweep now th tbl).1 in
  let r := (PeerTable.sweep now th tbl).2 in
  let age := now - last_heartbeat_at peer in
  let untouched :=
    PeerTable.get nodeId tbl' = Some peer
    ∧ (nodeId ∉ PeerTable.suspected r)
    ∧ (nodeId ∉ PeerTable.unreachable r)
    ∧ (nodeId ∉ PeerTable.evicted r) in
  (status peer = Left → untouched)
  ∧ (status peer ≠ Left →
     if decide (age >= evict_after_ms th) then
       PeerTable.get nodeId tbl' = None
       ∧ (nodeId ∈ PeerTable.evicted r)
       ∧ (nodeId ∉ PeerTable.unreachable r)
       ∧ (nodeId ∉ PeerTable.suspected r)
     else if decide (age >= unreachable_after_ms th ∧ status peer ≠ Unreachable) then
       PeerTable.get nodeId tbl' = Some (set_status Unreachable peer)
       ∧ (nodeId ∈ PeerTable.unreachable r)
       ∧ (nodeId ∉ PeerTable.evicted r)
       ∧ (nodeId ∉ PeerTable.suspected r)
     else if decide (age >= suspected_after_ms th ∧ status peer = Active) then
       PeerTable.get nodeId tbl' = Some (set_status Suspected peer)
       ∧ (nodeId ∈ PeerTable.suspected r)
       ∧ (nodeId ∉ PeerTable.evicted r)
       ∧ (nodeId ∉ PeerTable.unreachable r)
     else untouched)
  ∧ (∀ id, id ∈ PeerTable.suspected r ++ PeerTable.unreachable r ++ PeerTable.evicted r →
       is_Some (PeerTable.get id tbl)).
Proof.
  intros Hwf Hget.
  destruct (sweep_spec now th tbl Hwf) as (Hg & Hs & Hu & He & _ & _).
  cbv zeta. rewrite Hs, Hu, He, Hg, Hget.
  unfold PeerTable.get in Hget.
  assert (∀ x, nodeId ∈ moved th now x (PeerTable.peers tbl)
               ↔ transition th now peer = x) as Hm
    by (intros x; by apply elem_of_moved_wf).
  split; [|split].
  - intros HL. rewrite !Hm, (transition_Left _ _ _ HL). done.
  - intros HL.
    destruct (decide (now - last_heartbeat_at peer >= evict_after_ms th)) as [H1|H1].
    { assert (transition th now peer = Evict) as Ht.
      { unfold transition.
        by rewrite (bool_decide_eq_false_2 _ HL), (bool_decide_eq_true_2 _ H1). }
      rewrite !Hm, Ht. done. }
    destruct (decide (now - last_heartbeat_at peer >= unreachable_after_ms th
                      ∧ status peer ≠ Unreachable)) as [[H2 H2']|H2].
    { assert (transition th now peer = ToUnreachable) as Ht.
      { unfold transition.
        by rewrite (bool_decide_eq_false_2 _ HL), (bool_decide_eq_false_2 _ H1),
          (bool_decide_eq_true_2 _ H2), (bool_decide_eq_true_2 _ H2'). }
      rewrite !Hm, Ht. done. }
    assert (bool_decide (now - last_heartbeat_at peer >= unreachable_after_ms th)
            && bool_decide (status peer ≠ Unreachable) = false) as E2.
    { apply andb_false_iff.
      destruct (decide (now - last_heartbeat_at peer >= unreachable_after_ms th));
        [right | left]; apply bool_decide_eq_false_2; tauto. }
    destruct (decide (now - last_heartbeat_at peer >= suspected_after_ms th
                      ∧ status peer = Active)) as [[H3 H3']|H3].
    { assert (transition th now peer = ToSuspected) as Ht.
      { unfold transition.
        by rewrite (bool_decide_eq_false_2 _ HL), (bool_decide_eq_false_2 _ H1), E2,
          (bool_decide_eq_true_2 _ H3), (bool_decide_eq_true_2 _ H3'). }
      rewrite !Hm, Ht. done. }
    assert (bool_decide (now - last_heartbeat_at peer >= suspected_after_ms th)
            && bool_decide (status peer = Active) = false) as E3.
    { apply andb_false_iff.
      destruct (decide (now - last_heartbeat_at peer >= suspected_after_ms th));
        [right | left]; apply bool_decide_eq_false_2; tauto. }
    assert (transition th now peer = Stay) as Ht.
    { unfold transition.
      by rewrite (bool_decide_eq_false_2 _ HL), (bool_decide_eq_false_2 _ H1), E2, E3. }
    rewrite !Hm, Ht. done.
  - intros id. rewrite !elem_of_app.
    intros [H|[H|H]]; by apply moved_keys in H.
Qed.

Lemma sweep_first_match_witness :
  JsMap.wf (PeerTable.peers one_peer_table)
  ∧ PeerTable.get "remote-1" one_peer_table = Some remote_1
  ∧ PeerTable.get "remote-1" (PeerTable.sweep 20000 default_thresholds one_peer_table).1
    = Some (set_status Suspected remote_1)
  ∧ "remote-1" ∈ PeerTable.suspected (PeerTable.sweep 20000 default_thresholds one_peer_table).2.
Proof.
  assert (JsMap.wf (PeerTable.peers one_peer_table)) as Hwf
    by (apply (bool_decide_unpack _); vm_compute; exact I).
  assert (PeerTable.get "remote-1" one_peer_table = Some remote_1) as Hget
    by reflexivity.
  split; [exact Hwf|]. split; [exact Hget|].
  destruct (sweep_first_match 20000 default_thresholds one_peer_table "remote-1"
              remote_1 Hwf Hget) as (_ & H & _).
  assert (status remote_1 ≠ Left) as HL by discriminate.
  destruct (H HL) as (H1 & H2 & _).
  split; [exact H1 | exact H2].
Defined.

(** One [sweep] moves no slot backwards, whatever the thresholds. *)
Lemma sweep_step_forward now th tbl nodeId :
  JsMap.wf (PeerTable.peers tbl) →
  let before := PeerTable.get nodeId tbl in
  let after' := PeerTable.get nodeId (PeerTable.sweep now th tbl).1 in
  (is_left before → after' = before)
  ∧ (¬ is_left before → (stage before ≤ stage after')%nat ∧ ¬ is_left after').
Proof.
  intros Hwf. destruct (sweep_spec now th tbl Hwf) as (Hg & _).
  cbv zeta. rewrite Hg.
  destruct (PeerTable.get nodeId tbl) as [p|]; simpl; [|split; [done|]; auto].
  split.
  - intros HL. by rewrite (transition_Left _ _ _ HL).
  - intros HL. destruct (transition th now p) eqn:Ht; simpl.
    + split; [|tauto]. destruct (status p); lia.
    + apply transition_ToUnreachable in Ht as [? ?].
      split; [|done]. destruct (status p); simpl; try lia; done.
    + apply transition_ToSuspected in Ht. rewrite Ht. split; [lia | done].
    + done.
Qed.

Lemma sweeps_wf th nows tbl :
  JsMap.wf (PeerTable.peers tbl) → JsMap.wf (PeerTable.peers (sweeps th nows tbl)).
Proof.
  revert tbl. induction nows as [|now nows IH]; intros tbl Hwf; [done|].
  simpl. apply IH. by destruct (sweep_spec now th tbl Hwf) as (_ & _ & _ & _ & ? & _).
Qed.

Lemma sweeps_forward th nows tbl nodeId :
  JsMap.wf (PeerTable.peers tbl) →
  let before := PeerTable.get nodeId tbl in
  let after' := PeerTable.get nodeId (sweeps th nows tbl) in
  (is_left before → after' = before)
  ∧ (¬ is_left before → (stage before ≤ stage after')%nat ∧ ¬ is_left after').
Proof.
  revert tbl. induction nows as [|now nows IH]; intros tbl Hwf; cbv zeta.
  - simpl. split; [done|]. intros H. split; [lia | done].
  - simpl.
    destruct (sweep_step_forward now th tbl nodeId Hwf) as [HL1 HF1].
    assert (JsMap.wf (PeerTable.peers (PeerTable.sweep now th tbl).1)) as Hwf1
      by by destruct (sweep_spec now th tbl Hwf) as (_ & _ & _ & _ & ? & _).
    destruct (IH _ Hwf1) as [HL2 HF2].
    split.
    + intros HL. rewrite <- (HL1 HL). apply HL2. by rewrite (HL1 HL).
    + intros HL. destruct (HF1 HL) as [Hle Hnl].
      destruct (HF2 Hnl) as [Hle2 Hnl2]. split; [lia | done].
Qed.

Lemma sweeps_app th nows1 nows2 tbl :
  sweeps th (nows1 ++ nows2) tbl = sweeps th nows2 (sweeps th nows1 tbl).
Proof. unfold sweeps. by rewrite fold_left_app. Qed.

(** C9: with thresholds ordered suspected <= unreachable <= evict, a run
    of [sweep] calls with nothing in between never moves a peer
    backwards: between any two points of the run the peer's stage along
    active, suspected, unreachable, evicted does not decrease and the
    peer does not become [Left]; a peer marked [Left] keeps its entry
    unchanged throughout. *)
Theorem sweep_never_regresses th nows1 nows2 tbl nodeId :
  suspected_after_ms th <= unreachable_after_ms th →
  unreachable_after_ms th <= evict_after_ms th →
  JsMap.wf (PeerTable.peers tbl) →
  let earlier := PeerTable.get nodeId (sweeps th nows1 tbl) in
  let later := PeerTable.get nodeId (sweeps th (nows1 ++ nows2) tbl) in
  (is_left earlier → later = earlier)
  ∧ (¬ is_left earlier → (stage earlier ≤ stage later)%nat ∧ ¬ is_left later).
Proof.
  intros _ _ Hwf. cbv zeta. rewrite sweeps_app.
  apply sweeps_forward. by apply sweeps_wf.
Qed.

Lemma sweep_never_regresses_witness :
  suspected_after_ms default_thresholds <= unreachable_after_ms default_thresholds
  ∧ unreachable_after_ms default_thresholds <= evict_after_ms default_thresholds
  ∧ JsMap.wf (PeerTable.peers one_peer_table)
  ∧ let earlier :=
      PeerTable.get "remote-1" (sweeps default_thresholds [20000] one_peer_table) in
    let later :=
      PeerTable.get "remote-1"
        (sweeps default_thresholds ([20000] ++ [35000; 130000]) one_peer_table) in
    (stage earlier ≤ stage later)%nat.
Proof.
  assert (suspected_after_ms default_thresholds <= unreachable_after_ms default_thresholds)
    as H1 by (vm_compute; discriminate).
  assert (unreachable_after_ms default_thresholds <= evict_after_ms default_thresholds)
    as H2 by (vm_compute; discriminate).
  assert (JsMap.wf (PeerTable.peers one_peer_table)) as Hwf
    by (apply (bool_decide_unpack _); vm_compute; exact I).
  split; [exact H1|]. split; [exact H2|]. split; [exact Hwf|].
  destruct (sweep_never_regresses default_thresholds [20000] [35000; 130000]
              one_peer_table "remote-1" H1 H2 Hwf) as [_ H].
  apply H. vm_compute. discriminate.
Defined.

End PeerTableFacts.

(** * WorkDistributor: peer selection *)

Module WorkDistributorFacts.
Import JsMapFacts.

Section rotation.
Local Open Scope nat_scope.

Lemma omap_seq_lookup {A} (f : nat → option A) n : ∀ s i,
  (∀ j, s ≤ j < s + n → is_Some (f j)) →
  i < n → omap f (seq s n) !! i = f (s + i).
Proof.
  induction n as [|n IH]; intros s i Hf Hi; [lia|].
  simpl. destruct (Hf s ltac:(lia)) as [x Hx]. rewrite Hx.
  destruct i as [|i]; simpl.
  - by rewrite Nat.add_0_r.
  - rewrite IH; [f_equal; lia | | lia]. intros j Hj. apply Hf. lia.
Qed.

Lemma omap_seq_length {A} (f : nat → option A) n : ∀ s,
  (∀ j, s ≤ j < s + n → is_Some (f j)) → length (omap f (seq s n)) = n.
Proof.
  induction n as [|n IH]; intros s Hf; [done|].
  simpl. destruct (Hf s ltac:(lia)) as [x Hx]. rewrite Hx. simpl.
  rewrite IH; [done|]. intros j Hj. apply Hf. lia.
Qed.

Lemma rotate_nat_add_mod base offset len :
  rotate_nat_add base offset len = (base + offset) `mod` len.
Proof.
  unfold rotate_nat_add.
  by rewrite <- Nat2Z.inj_add, <- Nat2Z.inj_mod, Nat2Z.id.
Qed.

Lemma rotation_candidate_some (l : list PeerEntry) index j :
  0 < length l → is_Some (l !! ((index + j) `mod` length l)).
Proof. intros H. apply lookup_lt_is_Some. apply Nat.mod_upper_bound. lia. Qed.

(** The rotation loop computes the rotation of the candidate list. *)
Lemma rotation_rotate index (l : list PeerEntry) :
  WorkDistributor.rotation index l = rotate index l.
Proof.
  destruct (decide (length l = 0)) as [H0|H0].
  { apply nil_length_inv in H0. subst. unfold rotate. by rewrite drop_nil, take_nil. }
  assert (∀ j, 0 ≤ j < 0 + length l →
               is_Some (l !! ((index + j) `mod` length l))) as Hf
    by (intros; apply rotation_candidate_some; lia).
  apply list_eq. intros i. unfold WorkDistributor.rotation.
  destruct (decide (i < length l)) as [Hi|Hi].
  - rewrite omap_seq_lookup by done.
    rewrite lookup_rotate_r by done. by rewrite rotate_nat_add_mod.
  - rewrite !lookup_ge_None_2; [done| |].
    + rewrite length_rotate. lia.
    + rewrite omap_seq_length by done. lia.
Qed.

Lemma rotate_Permutation {A} n (l : list A) : rotate n l ≡ₚ l.
Proof.
  unfold rotate. rewrite Permutation_app_comm. by rewrite take_drop.
Qed.

End rotation.

(** ** Configuration and round-robin index are left alone by everything
    but [selectPeers] *)

Lemma same_config_refl d : same_config d d.
Proof. by repeat split. Qed.

Lemma same_config_trans d1 d2 d3 :
  same_config d1 d2 → same_config d2 d3 → same_config d1 d3.
Proof. unfold same_config. intros (?&?&?&?) (?&?&?&?). repeat split; congruence. Qed.

Lemma resolveTask_config result d : same_config d (WorkDistributor.resolveTask result d).1.
Proof.
  unfold WorkDistributor.resolveTask.
  destruct (WorkDistributor.findDelegationByTaskId _ d); by repeat split.
Qed.

Lemma cancelAll_config d : same_config d (WorkDistributor.cancelAll d).
Proof. by repeat split. Qed.

Lemma fireTimer_config tid d : same_config d (WorkDistributor.fireTimer tid d).
Proof.
  unfold WorkDistributor.fireTimer.
  destruct (timers (WorkDistributor.runtime d) !! tid) as [tm|]; [|by repeat split].
  destruct (timer_state tm); by repeat split.
Qed.

Lemma handle_config ev d : same_config d (WorkDistributor.handle ev d).
Proof.
  destruct ev; simpl.
  - apply resolveTask_config.
  - apply fireTimer_config.
  - apply cancelAll_config.
Qed.

Lemma register_config env now peer task d :
  same_config d (WorkDistributor.register env now peer task d).1.
Proof. by repeat split. Qed.

Lemma await_config p events : ∀ d, same_config d (WorkDistributor.await p events d).1.
Proof.
  induction events as [|ev events IH]; intros d; simpl.
  - destruct (promises (WorkDistributor.runtime d) !! p) as [[]|];
      apply same_config_refl.
  - destruct (promises (WorkDistributor.runtime d) !! p) as [[]|];
      try apply same_config_refl;
      (eapply same_config_trans; [apply handle_config | apply IH]).
Qed.

Lemma delegateToPeer_config env now peer d :
  same_config d (WorkDistributor.delegateToPeer env now peer d).1.
Proof.
  unfold WorkDistributor.delegateToPeer.
  destruct (negb (accepted _)); [by repeat split|].
  destruct (WorkDistributor.register _ _ _ _ _) as [d1 p] eqn:E.
  eapply same_config_trans; [|apply await_config].
  change d1 with (d1, p).1. rewrite <- E.
  eapply same_config_trans; [|apply register_config]. by repeat split.
Qed.

Lemma distribute_loop_config env now peers : ∀ attempts lastError d,
  same_config d (WorkDistributor.distribute_loop env now peers attempts lastError d).1.
Proof.
  induction peers as [|peer peers IH]; intros attempts lastError d; simpl.
  - apply same_config_refl.
  - case_bool_decide; [apply same_config_refl|].
    pose proof (delegateToPeer_config env now peer d) as Hd.
    destruct (WorkDistributor.delegateToPeer env now peer d) as [d' [r|err|]]; simpl in *;
      try done.
    eapply same_config_trans; [exact Hd | apply IH].
Qed.

Lemma distribute_config env now c d :
  same_config (WorkDistributor.selectPeers env c d).1
    (WorkDistributor.distribute env now c d).1.
Proof.
  unfold WorkDistributor.distribute.
  destruct (WorkDistributor.selectPeers env c d) as [d1 peers]. simpl.
  case_bool_decide; [apply same_config_refl | apply distribute_loop_config].
Qed.

(** ** selectPeers *)

Section selectPeers.
Local Open Scope nat_scope.

Lemma omap_seq_shift {A} (f g : nat → option A) n : ∀ s,
  (∀ j, f (S j) = g j) → omap f (seq (S s) n) = omap g (seq s n).
Proof.
  induction n as [|n IH]; intros s Hfg; [done|].
  simpl. rewrite Hfg. destruct (g s); [f_equal|]; by apply IH.
Qed.

Lemma selectPeers_round_robin env c d :
  WorkDistributor.strategy d = round_robin →
  0 < length (getActivePeers env) →
  WorkDistributor.selectPeers env c d
  = (WorkDistributor.with_roundRobinIndex
       ((WorkDistributor.roundRobinIndex d + 1) `mod` length (getActivePeers env)) d,
     WorkDistributor.rotation (WorkDistributor.roundRobinIndex d) (getActivePeers env)).
Proof.
  intros Hs HN. unfold WorkDistributor.selectPeers. rewrite Hs. simpl.
  by rewrite bool_decide_eq_true_2.
Qed.

(** Under [capability_match] without an allowlist nothing is rotated and
    the index stays where it is. *)
Lemma selectPeers_capability_match_all env c d :
  WorkDistributor.strategy d = capability_match →
  WorkDistributor.allowlist_given c = None →
  WorkDistributor.selectPeers env c d = (d, getActivePeers env).
Proof.
  intros Hs Hc. unfold WorkDistributor.selectPeers. by rewrite Hs, Hc.
Qed.

Lemma first_candidates_round_robin env now c n : ∀ d,
  WorkDistributor.strategy d = round_robin →
  0 < length (getActivePeers env) →
  first_candidates env now c n d
  = omap (λ j, getActivePeers env
                 !! ((WorkDistributor.roundRobinIndex d + j) `mod` length (getActivePeers env)))
      (seq 0 n).
Proof.
  induction n as [|n IH]; intros d Hs HN; [done|].
  cbn [first_candidates].
  pose proof (distribute_config env now c d) as (Hs' & Hi' & _).
  rewrite selectPeers_round_robin in Hs', Hi' |- * by done.
  cbn [fst snd WorkDistributor.strategy WorkDistributor.roundRobinIndex
       WorkDistributor.with_roundRobinIndex] in Hs', Hi' |- *.
  rewrite IH; [|congruence|done]. rewrite Hi'.
  assert (WorkDistributor.rotation (WorkDistributor.roundRobinIndex d) (getActivePeers env) !! 0
          = getActivePeers env
              !! ((WorkDistributor.roundRobinIndex d + 0) `mod` length (getActivePeers env)))
    as H0.
  { unfold WorkDistributor.rotation. rewrite omap_seq_lookup; [done| |done].
    intros; apply rotation_candidate_some; lia. }
  destruct (rotation_candidate_some (getActivePeers env)
              (WorkDistributor.roundRobinIndex d) 0 HN) as [x Hx].
  rewrite Hx in H0.
  destruct (WorkDistributor.rotation _ _) as [|y ys]; [done|].
  injection H0 as ->. cbn [seq omap list_omap]. rewrite Hx. simpl. f_equal.
  symmetry. apply omap_seq_shift. intros j.
  f_equal. rewrite Nat.Div0.add_mod_idemp_l. f_equal. lia.
Qed.

(** C8: under [capability_match] with a non-empty allowlist, [selectPeers]
    returns exactly the active peers that have at least one capability in
    the allowlist, in their table order, and changes nothing in the
    distributor. *)
Theorem capability_match_intersects env c required d :
  WorkDistributor.strategy d = capability_match →
  tool_allowlist c = Some required →
  required ≠ [] →
  let res := WorkDistributor.selectPeers env (Some c) d in
  res.1 = d
  ∧ res.2 `sublist_of` getActivePeers env
  ∧ ∀ peer, peer ∈ res.2
            ↔ peer ∈ getActivePeers env
              ∧ ∃ tool, tool ∈ required ∧ tool ∈ capabilities (identity peer).
Proof.
  intros Hs Hc Hne. unfold WorkDistributor.selectPeers, WorkDistributor.allowlist_given.
  rewrite Hs, Hc. destruct required as [|tool tools]; [done|]. cbn [andb bool_decide fst snd].
  rewrite bool_decide_eq_false_2 by done. cbn [andb fst snd].
  split; [done|]. split.
  - induction (getActivePeers env) as [|p l IH]; [done|].
    cbn [List.filter]. destruct (existsb _ _); [by apply sublist_skip | by apply sublist_cons].
  - intros peer. rewrite list_elem_of_In, filter_In, <- list_elem_of_In.
    rewrite existsb_exists. split.
    + intros [Hin (tool' & Ht & Hb)]. split; [done|]. exists tool'.
      split; [by apply list_elem_of_In | by apply bool_decide_eq_true_1 in Hb].
    + intros [Hin (tool' & Ht & Hcap)]. split; [done|]. exists tool'.
      split; [by apply list_elem_of_In | by apply bool_decide_eq_true_2].
Qed.

Lemma capability_match_intersects_witness :
  let d := WorkDistributor.new capability_match 300000 2 in
  let c := {| tool_allowlist := Some ["shell-exec"; "browser"]; max_tokens := None;
              max_cost_usd := None; max_duration_ms := None |} in
  WorkDistributor.strategy d = capability_match
  ∧ tool_allowlist c = Some ["shell-exec"; "browser"]
  ∧ ["shell-exec"; "browser"] ≠ ([] : list string)
  ∧ (peer_b ∈ (WorkDistributor.selectPeers refusing_env (Some c) d).2)
  ∧ (peer_a ∉ (WorkDistributor.selectPeers refusing_env (Some c) d).2).
Proof.
  intros d c.
  assert (WorkDistributor.strategy d = capability_match) as Hs by reflexivity.
  assert (tool_allowlist c = Some ["shell-exec"; "browser"]) as Hc by reflexivity.
  assert (["shell-exec"; "browser"] ≠ ([] : list string)) as Hne by discriminate.
  split; [exact Hs|]. split; [exact Hc|]. split; [exact Hne|].
  destruct (capability_match_intersects refusing_env c _ d Hs Hc Hne) as (_ & _ & H).
  split.
  - apply H. split.
    + apply (bool_decide_unpack _). vm_compute. exact I.
    + exists "shell-exec". split; apply (bool_decide_unpack _); vm_compute; exact I.
  - intros Hin. apply H in Hin as [_ (tool & Ht & Hcap)].
    apply (bool_decide_pack _) in Ht. simpl in Hcap. apply list_elem_of_singleton in Hcap as ->.
    vm_compute in Ht. exact Ht.
Defined.

(** C2, as amended: under [round_robin] with at least one active peer,
    whatever the constraints, [selectPeers] returns the active peers
    rotated to start at the round-robin index and advances the index by
    one modulo the number of candidates; the index persists, so the first
    candidates of N successive [distribute] calls over the same N active
    peers are those peers rotated once round: N peers with pairwise
    distinct node ids. *)
Theorem round_robin_rotation env now c d :
  WorkDistributor.strategy d = round_robin →
  0 < length (getActivePeers env) →
  NoDup (node_id ∘ identity <$> getActivePeers env) →
  let firsts := first_candidates env now c (length (getActivePeers env)) d in
  rotates_and_advances env c d
  ∧ firsts = rotate (WorkDistributor.roundRobinIndex d) (getActivePeers env)
  ∧ length firsts = length (getActivePeers env)
  ∧ NoDup (node_id ∘ identity <$> firsts).
Proof.
  intros Hs HN Hnd. cbv zeta.
  rewrite first_candidates_round_robin by done.
  fold (WorkDistributor.rotation (WorkDistributor.roundRobinIndex d) (getActivePeers env)).
  rewrite rotation_rotate. split; [|split; [done|split]].
  - unfold rotates_and_advances. rewrite selectPeers_round_robin by done.
    by rewrite rotation_rotate.
  - apply length_rotate.
  - by rewrite rotate_Permutation.
Qed.

Lemma round_robin_rotation_witness :
  let d := WorkDistributor.new round_robin 300000 0 in
  WorkDistributor.strategy d = round_robin
  ∧ 0 < length (getActivePeers refusing_env)
  ∧ NoDup (node_id ∘ identity <$> getActivePeers refusing_env)
  ∧ first_candidates refusing_env 0%Z None 2 d = [peer_a; peer_b].
Proof.
  intros d.
  assert (WorkDistributor.strategy d = round_robin) as Hs by reflexivity.
  assert (0 < length (getActivePeers refusing_env)) as HN by (simpl; lia).
  assert (NoDup (node_id ∘ identity <$> getActivePeers refusing_env)) as Hnd
    by (apply (bool_decide_unpack _); vm_compute; exact I).
  split; [exact Hs|]. split; [exact HN|]. split; [exact Hnd|].
  destruct (round_robin_rotation refusing_env 0%Z None d Hs HN Hnd) as (_ & H & _).
  exact H.
Defined.

(** C2, as stated, fails under [capability_match] without an allowlist:
    with two active peers the index is not advanced, and two successive
    [distribute] calls both start with the same first candidate. *)
Lemma capability_match_does_not_rotate :
  let d := WorkDistributor.new capability_match 300000 0 in
  WorkDistributor.strategy d = capability_match
  ∧ ¬ rotates_and_advances refusing_env None d
  ∧ first_candidates refusing_env 0%Z None 2 d = [peer_a; peer_a]
  ∧ ¬ NoDup (first_candidates refusing_env 0%Z None 2 d).
Proof.
  intros d. split; [reflexivity|]. split; [|split; [reflexivity|]].
  - unfold rotates_and_advances. intros H.
    apply (f_equal (λ x, WorkDistributor.roundRobinIndex x.1)) in H.
    vm_compute in H. discriminate.
  - change (first_candidates refusing_env 0%Z None 2 d) with [peer_a; peer_a].
    intros H. apply NoDup_cons in H as [H _]. apply H. apply elem_of_cons. by left.
Qed.

End selectPeers.

(** ** Promises and timers *)

Lemma lookup_settle p q s (ps : list PromiseState) :
  settle p s ps !! q
  = if decide (p = q) then
      match ps !! q with Some Pending => Some s | o => o end
    else ps !! q.
Proof.
  unfold settle. destruct (decide (p = q)) as [->|Hne].
  - destruct (ps !! q) as [[]|] eqn:E; try done.
    apply list_lookup_insert_eq. by apply lookup_lt_Some in E.
  - destruct (ps !! p) as [[]|]; try done. by apply list_lookup_insert_ne.
Qed.

Lemma lookup_settle_Pending p q s (ps : list PromiseState) :
  s ≠ Pending →
  settle p s ps !! q = Some Pending ↔ ps !! q = Some Pending ∧ p ≠ q.
Proof.
  intros Hs. rewrite lookup_settle. destruct (decide (p = q)) as [->|Hne].
  - destruct (ps !! q) as [[]|]; split; try done; try (intros [? ?]; done).
    intros [= ?]. done.
  - tauto.
Qed.

Lemma disarm_not_Armed s tm : s ≠ Armed → timer_state (disarm s tm) ≠ Armed.
Proof. unfold disarm. intros Hs. destruct (timer_state tm) eqn:E; simpl; congruence. Qed.

Lemma settled_app tr1 tr2 : settled (tr1 ++ tr2) = settled tr1 ++ settled tr2.
Proof. apply omap_app. Qed.

Lemma cleared_app tr1 tr2 : cleared (tr1 ++ tr2) = cleared tr1 ++ cleared tr2.
Proof. apply omap_app. Qed.

Lemma delegate_calls_app tr1 tr2 :
  delegate_calls (tr1 ++ tr2) = delegate_calls tr1 ++ delegate_calls tr2.
Proof. apply omap_app. Qed.

(** ** The bookkeeping invariant holds in every reachable state *)

Lemma consistent_ext d d' :
  WorkDistributor.activeDelegations d' = WorkDistributor.activeDelegations d →
  promises (WorkDistributor.runtime d') = promises (WorkDistributor.runtime d) →
  timers (WorkDistributor.runtime d') = timers (WorkDistributor.runtime d) →
  settled (trace (WorkDistributor.runtime d')) = settled (trace (WorkDistributor.runtime d)) →
  consistent d → consistent d'.
Proof.
  intros Ha Hp Ht Hs [].
  constructor; rewrite ?Ha, ?Hp, ?Ht, ?Hs; assumption.
Qed.

Lemma consistent_new strat timeout retries :
  consistent (WorkDistributor.new strat timeout retries).
Proof.
  constructor; simpl; try done.
  - apply NoDup_nil_2.
  - apply NoDup_nil_2.
  - intros p H. by apply elem_of_nil in H.
Qed.

Lemma consistent_select env c d :
  consistent d → consistent (WorkDistributor.selectPeers env c d).1.
Proof.
  apply consistent_ext; unfold WorkDistributor.selectPeers;
    by destruct (_ && _).
Qed.

Lemma consistent_call peer d :
  consistent d →
  consistent (WorkDistributor.with_runtime
                (log (DelegateTaskCall peer) (WorkDistributor.runtime d)) d).
Proof.
  apply consistent_ext; try done. simpl. rewrite settled_app. simpl.
  by rewrite app_nil_r.
Qed.

Lemma consistent_register env now peer task d :
  JsMap.get task (WorkDistributor.activeDelegations d) = None →
  consistent d → consistent (WorkDistributor.register env now peer task d).1.
Proof.
  intros Hfresh []. unfold WorkDistributor.register. simpl.
  constructor; simpl.
  - by apply wf_set.
  - intros k dl. rewrite get_set. destruct (decide (task = k)) as [->|Hk]; [|by auto].
    by intros [= <-].
  - intros k dl. rewrite get_set. destruct (decide (task = k)) as [->|Hk].
    + intros [= <-]. simpl. by apply list_lookup_middle.
    + intros Hg. pose proof (consistent_pending0 _ _ Hg) as Hp.
      rewrite lookup_app_l; [done|]. by apply lookup_lt_Some in Hp.
  - intros p Hp. apply lookup_snoc_Some in Hp as [[Hlt Hp]|[-> _]].
    + destruct (consistent_owned0 _ Hp) as (k & dl & Hg & Hdl).
      exists k, dl. split; [|done]. rewrite get_set.
      destruct (decide (task = k)) as [->|]; [congruence | done].
    + eexists task, _. rewrite get_set, decide_True by done. done.
  - intros k1 dl1 k2 dl2. rewrite !get_set.
    destruct (decide (task = k1)) as [E1|Hk1], (decide (task = k2)) as [E2|Hk2];
      [congruence| | |].
    + intros [= <-] Hg2 Heq. simpl in Heq.
      apply consistent_pending0, lookup_lt_Some in Hg2. lia.
    + intros Hg1 [= <-] Heq. simpl in Heq.
      apply consistent_pending0, lookup_lt_Some in Hg1. lia.
    + by apply consistent_promise_inj0.
  - intros k dl. rewrite get_set. destruct (decide (task = k)) as [->|Hk].
    + intros [= <-]. simpl. eexists. split; [by apply list_lookup_middle|]. done.
    + intros Hg. destruct (consistent_timer0 _ _ Hg) as (tm & Ht & ?).
      exists tm. split; [|done]. rewrite lookup_app_l; [done|].
      by apply lookup_lt_Some in Ht.
  - intros tid tm Ht Harmed. apply lookup_snoc_Some in Ht as [[Hlt Ht]|[-> <-]].
    + destruct (consistent_armed0 _ _ Ht Harmed) as (dl & Hg & Hdl).
      exists dl. split; [|done]. rewrite get_set.
      destruct (decide (task = timer_task_id tm)) as [E|]; [congruence | done].
    + simpl. eexists. rewrite get_set, decide_True by done. done.
  - done.
  - intros p Hp. destruct (consistent_settled0 _ Hp) as (s & Hs & Hne).
    exists s. split; [|done]. rewrite lookup_app_l; [done|].
    by apply lookup_lt_Some in Hs.
Qed.

(** Retiring one delegation: its entry is deleted, its promise settled and
    its timer stopped.  [resolveTask] and the timer callback both do this. *)
Lemma consistent_retire d d' task dl s :
  consistent d →
  JsMap.get task (WorkDistributor.activeDelegations d) = Some dl →
  s ≠ Pending →
  WorkDistributor.activeDelegations d'
  = JsMap.delete task (WorkDistributor.activeDelegations d) →
  promises (WorkDistributor.runtime d')
  = settle (ActiveDelegation.promise dl) s (promises (WorkDistributor.runtime d)) →
  (∀ t, t ≠ ActiveDelegation.timer dl →
        timers (WorkDistributor.runtime d') !! t = timers (WorkDistributor.runtime d) !! t) →
  (∀ tm, timers (WorkDistributor.runtime d') !! ActiveDelegation.timer dl = Some tm →
         timer_state tm ≠ Armed) →
  settled (trace (WorkDistributor.runtime d'))
  = settled (trace (WorkDistributor.runtime d)) ++ [ActiveDelegation.promise dl] →
  consistent d'.
Proof.
  intros [] Hdl Hs Ha Hp Ht Htid Htr.
  assert (∀ k dl', JsMap.get k (WorkDistributor.activeDelegations d') = Some dl' →
                   k ≠ task ∧ JsMap.get k (WorkDistributor.activeDelegations d) = Some dl')
    as Hget.
  { intros k dl'. rewrite Ha, get_delete.
    destruct (decide (task = k)) as [->|]; [done|]. by split. }
  assert (∀ k dl', JsMap.get k (WorkDistributor.activeDelegations d') = Some dl' →
                   ActiveDelegation.promise dl' ≠ ActiveDelegation.promise dl) as Hpne.
  { intros k dl' Hg. apply Hget in Hg as [Hk Hg]. intros Heq.
    apply Hk. by apply (consistent_promise_inj0 _ _ _ _ Hg Hdl). }
  assert (∀ k dl', JsMap.get k (WorkDistributor.activeDelegations d') = Some dl' →
                   ActiveDelegation.timer dl' ≠ ActiveDelegation.timer dl) as Htne.
  { intros k dl' Hg. apply Hget in Hg as [Hk Hg]. intros Heq.
    destruct (consistent_timer0 _ _ Hg) as (tm1 & H1 & _ & Hk1 & _).
    destruct (consistent_timer0 _ _ Hdl) as (tm2 & H2 & _ & Hk2 & _).
    rewrite Heq in H1. congruence. }
  constructor.
  - rewrite Ha. by apply wf_delete.
  - intros k dl' Hg. apply Hget in Hg as [_ Hg]. eauto.
  - intros k dl' Hg. rewrite Hp, lookup_settle.
    rewrite decide_False by (apply not_eq_sym; by eapply Hpne).
    apply Hget in Hg as [_ Hg]. eauto.
  - intros p. rewrite Hp. rewrite lookup_settle_Pending by done. intros [Hpend Hne].
    destruct (consistent_owned0 _ Hpend) as (k & dl' & Hg & Hdl').
    exists k, dl'. split; [|done]. rewrite Ha, get_delete.
    destruct (decide (task = k)) as [->|]; [congruence | done].
  - intros k1 dl1 k2 dl2 Hg1 Hg2.
    apply Hget in Hg1 as [_ Hg1]. apply Hget in Hg2 as [_ Hg2]. eauto.
  - intros k dl' Hg. rewrite Ht by (by eapply Htne).
    apply Hget in Hg as [_ Hg]. eauto.
  - intros tid tm Hl Harmed.
    destruct (decide (tid = ActiveDelegation.timer dl)) as [->|Hne].
    { by apply Htid in Hl. }
    rewrite Ht in Hl by done.
    destruct (consistent_armed0 _ _ Hl Harmed) as (dl' & Hg & Hdl').
    exists dl'. split; [|done]. rewrite Ha, get_delete.
    destruct (decide (task = timer_task_id tm)) as [E|]; [congruence | done].
  - rewrite Htr. apply NoDup_app. split; [done|]. split; [|apply NoDup_singleton].
    intros p Hin Hp'. apply list_elem_of_singleton in Hp' as ->.
    destruct (consistent_settled0 _ Hin) as (s' & Hs' & Hne).
    rewrite (consistent_pending0 _ _ Hdl) in Hs'. congruence.
  - intros p. rewrite Htr, elem_of_app, list_elem_of_singleton, Hp, lookup_settle.
    intros [Hin| ->].
    + destruct (consistent_settled0 _ Hin) as (s' & Hs' & Hne).
      destruct (decide (ActiveDelegation.promise dl = p)) as [<-|]; [|eauto].
      rewrite (consistent_pending0 _ _ Hdl) in Hs'. congruence.
    + rewrite decide_True by done. rewrite (consistent_pending0 _ _ Hdl). eauto.
Qed.

Lemma consistent_resolveTask result d :
  consistent d → consistent (WorkDistributor.resolveTask result d).1.
Proof.
  intros Hc. unfold WorkDistributor.resolveTask, WorkDistributor.findDelegationByTaskId.
  destruct (JsMap.get _ _) as [dl|] eqn:Hdl; [|done]. simpl.
  apply (consistent_retire d _ (SwarmTaskResult.task_id result) dl (Fulfilled result) Hc Hdl);
    simpl; try done.
  - by rewrite (consistent_key d Hc _ _ Hdl).
  - intros t Hne. by apply list_lookup_alter_ne.
  - intros tm. rewrite list_lookup_alter_eq.
    destruct (timers (WorkDistributor.runtime d) !! ActiveDelegation.timer dl); [|done].
    intros [= <-]. by apply disarm_not_Armed.
  - rewrite !settled_app. simpl. by rewrite app_nil_r.
Qed.

Lemma consistent_fireTimer tid d :
  consistent d → consistent (WorkDistributor.fireTimer tid d).
Proof.
  intros Hc. unfold WorkDistributor.fireTimer.
  destruct (timers (WorkDistributor.runtime d) !! tid) as [tm|] eqn:Htm; [|done].
  destruct (timer_state tm) eqn:Harmed; try done.
  destruct (consistent_armed d Hc _ _ Htm Harmed) as (dl & Hdl & <-).
  destruct (consistent_timer d Hc _ _ Hdl) as (tm' & Htm' & _ & _ & Hp).
  rewrite Htm in Htm'. injection Htm' as <-.
  eapply (consistent_retire d _ (timer_task_id tm) dl (Rejected _) Hc Hdl);
    simpl; try done.
  - by rewrite Hp.
  - intros t Hne. by apply list_lookup_insert_ne.
  - intros tm'. rewrite list_lookup_insert_eq by (by apply lookup_lt_Some in Htm).
    by intros [= <-].
  - rewrite settled_app. simpl. by rewrite Hp.
Qed.

(** *** cancelAll *)

Lemma cancel_fold_promises es : ∀ rt p,
  promises (fold_left WorkDistributor.cancel_body es rt) !! p
  = if decide (p ∈ (ActiveDelegation.promise ∘ snd <$> es)) then
      match promises rt !! p with
      | Some Pending => Some (Rejected "Delegation cancelled")
      | o => o
      end
    else promises rt !! p.
Proof.
  induction es as [|e es IH]; intros rt p.
  - done.
  - cbn [fold_left]. rewrite IH.
    assert (promises (WorkDistributor.cancel_body rt e)
            = settle (ActiveDelegation.promise e.2) (Rejected "Delegation cancelled")
                (promises rt)) as -> by done.
    rewrite lookup_settle, fmap_cons.
    destruct (decide (ActiveDelegation.promise e.2 = p)) as [Heq|Hne];
      destruct (decide (p ∈ ActiveDelegation.promise ∘ snd <$> es)) as [Hin|Hin].
    1-3: rewrite decide_True
      by (apply elem_of_cons; simpl; first [left; congruence | right; assumption]).
    4: rewrite decide_False
      by (rewrite elem_of_cons; simpl; intros [?|?]; [congruence | done]).
    all: by destruct (promises rt !! p) as [[]|].
Qed.

Lemma cancel_fold_timers es : ∀ rt t,
  timers (fold_left WorkDistributor.cancel_body es rt) !! t
  = if decide (t ∈ (ActiveDelegation.timer ∘ snd <$> es)) then
      disarm Cleared <$> timers rt !! t
    else timers rt !! t.
Proof.
  induction es as [|e es IH]; intros rt t.
  - done.
  - cbn [fold_left]. rewrite IH.
    assert (timers (WorkDistributor.cancel_body rt e)
            = alter (disarm Cleared) (ActiveDelegation.timer e.2) (timers rt)) as -> by done.
    rewrite list_lookup_alter, fmap_cons.
    destruct (decide (ActiveDelegation.timer e.2 = t)) as [Heq|Hne];
      destruct (decide (t ∈ ActiveDelegation.timer ∘ snd <$> es)) as [Hin|Hin].
    1-3: rewrite decide_True
      by (apply elem_of_cons; simpl; first [left; congruence | right; assumption]).
    4: rewrite decide_False
      by (rewrite elem_of_cons; simpl; intros [?|?]; [congruence | done]).
    all: try done.
    all: rewrite Heq; try done.
    destruct (timers rt !! t) as [tm|]; [|done]. simpl. f_equal.
    unfold disarm. destruct (timer_state tm) eqn:E; simpl; by rewrite ?E.
Qed.

Lemma cancel_fold_trace es : ∀ rt,
  trace (fold_left WorkDistributor.cancel_body es rt)
  = trace rt
    ++ flat_map (λ e, [ClearTimeoutCall (ActiveDelegation.timer e.2);
                       RejectCall (ActiveDelegation.promise e.2) "Delegation cancelled"])
         es.
Proof.
  induction es as [|e es IH]; intros rt.
  - simpl. by rewrite app_nil_r.
  - cbn [fold_left flat_map]. rewrite IH. simpl. by rewrite <- !app_assoc.
Qed.

Lemma settled_cancel_trace (es : list (string * ActiveDelegation.t)) :
  settled (flat_map (λ e, [ClearTimeoutCall (ActiveDelegation.timer e.2);
                           RejectCall (ActiveDelegation.promise e.2) "Delegation cancelled"])
             es)
  = ActiveDelegation.promise ∘ snd <$> es.
Proof.
  induction es as [|e es IH]; [done|].
  cbn [flat_map]. rewrite settled_app, IH. done.
Qed.

Lemma consistent_promises_NoDup d :
  consistent d →
  NoDup (ActiveDelegation.promise ∘ snd <$> WorkDistributor.activeDelegations d).
Proof.
  intros []. apply NoDup_fmap_2_strong.
  - intros [k1 dl1] [k2 dl2] H1 H2 Heq. simpl in Heq.
    apply (elem_get _ _ _ consistent_wf0) in H1, H2.
    assert (k1 = k2) as -> by eauto. congruence.
  - eapply NoDup_fmap_1. exact consistent_wf0.
Qed.

Lemma consistent_cancelAll d : consistent d → consistent (WorkDistributor.cancelAll d).
Proof.
  intros Hc. pose proof (consistent_promises_NoDup d Hc) as Hnd. destruct Hc.
  assert (∀ k dl, JsMap.get k (WorkDistributor.activeDelegations d) = Some dl →
                  ActiveDelegation.promise dl
                  ∈ (ActiveDelegation.promise ∘ snd <$> WorkDistributor.activeDelegations d))
    as Hps.
  { intros k dl Hg. apply list_elem_of_fmap. exists (k, dl).
    split; [done | by apply get_Some_elem]. }
  assert (∀ k dl, JsMap.get k (WorkDistributor.activeDelegations d) = Some dl →
                  ActiveDelegation.timer dl
                  ∈ (ActiveDelegation.timer ∘ snd <$> WorkDistributor.activeDelegations d))
    as Hts.
  { intros k dl Hg. apply list_elem_of_fmap. exists (k, dl).
    split; [done | by apply get_Some_elem]. }
  unfold WorkDistributor.cancelAll. constructor; simpl; try done.
  - apply NoDup_nil_2.
  - intros p. rewrite cancel_fold_promises. destruct (decide _) as [Hin|Hin].
    + destruct (promises (WorkDistributor.runtime d) !! p) as [[]|]; done.
    + intros Hp. destruct (consistent_owned0 _ Hp) as (k & dl & Hg & <-).
      exfalso. apply Hin. by eapply Hps.
  - intros tid tm. rewrite cancel_fold_timers. destruct (decide _) as [Hin|Hin].
    + destruct (timers (WorkDistributor.runtime d) !! tid) as [tm0|]; [|done].
      intros [= <-] Harmed. by apply (disarm_not_Armed Cleared tm0) in Harmed.
    + intros Ht Harmed. destruct (consistent_armed0 _ _ Ht Harmed) as (dl & Hg & <-).
      exfalso. apply Hin. by eapply Hts.
  - rewrite cancel_fold_trace, settled_app, settled_cancel_trace.
    apply NoDup_app. split; [done|]. split; [|done].
    intros p Hin Hp. apply list_elem_of_fmap in Hp as ([k dl] & -> & Hel).
    apply (elem_get _ _ _ consistent_wf0) in Hel. simpl in Hin.
    destruct (consistent_settled0 _ Hin) as (s & Hs & Hne).
    rewrite (consistent_pending0 _ _ Hel) in Hs. congruence.
  - intros p. rewrite cancel_fold_trace, settled_app, settled_cancel_trace.
    rewrite cancel_fold_promises, elem_of_app. intros [Hin|Hin].
    + destruct (consistent_settled0 _ Hin) as (s & Hs & Hne). rewrite Hs.
      exists s. split; [|done]. destruct (decide _); [|done]. by destruct s.
    + rewrite decide_True by done.
      apply list_elem_of_fmap in Hin as ([k dl] & -> & Hel).
      apply (elem_get _ _ _ consistent_wf0) in Hel. simpl.
      rewrite (consistent_pending0 _ _ Hel). eauto.
Qed.

Lemma consistent_handle ev d : consistent d → consistent (WorkDistributor.handle ev d).
Proof.
  destruct ev; simpl.
  - apply consistent_resolveTask.
  - apply consistent_fireTimer.
  - apply consistent_cancelAll.
Qed.

Lemma reachable_consistent env d : reachable env d → consistent d.
Proof.
  induction 1.
  - apply consistent_new.
  - by apply consistent_select.
  - by apply consistent_call.
  - by apply consistent_register.
  - by apply consistent_handle.
Qed.

Lemma one_delegation_reachable : reachable refusing_env one_delegation.
Proof. apply reachable_register; [apply reachable_new | reflexivity]. Qed.

(** ** resolveTask and cancelAll *)

Lemma resolveTask_Some result d dl :
  WorkDistributor.findDelegationByTaskId (SwarmTaskResult.task_id result) d = Some dl →
  WorkDistributor.resolveTask result d
  = (let d1 := WorkDistributor.with_runtime
                 (clearTimeout (ActiveDelegation.timer dl) (WorkDistributor.runtime d)) d in
     let d2 := WorkDistributor.with_activeDelegations
                 (JsMap.delete (ActiveDelegation.task_id dl)
                    (WorkDistributor.activeDelegations d1)) d1 in
     WorkDistributor.with_runtime
       (resolve (ActiveDelegation.promise dl) result (WorkDistributor.runtime d2)) d2,
     true).
Proof. intros H. unfold WorkDistributor.resolveTask. by rewrite H. Qed.

Lemma resolveTask_None result d :
  WorkDistributor.findDelegationByTaskId (SwarmTaskResult.task_id result) d = None →
  WorkDistributor.resolveTask result d = (d, false).
Proof. intros H. unfold WorkDistributor.resolveTask. by rewrite H. Qed.

(** C4: in every reachable state, [resolveTask(result)] with
    [result.task_id] among the active delegations clears that delegation's
    timer, deletes its entry, fulfils its pending promise with the result
    and returns true; with [result.task_id] absent it returns false and
    changes nothing.  A second call with the same result finds nothing
    and returns false, and no promise has [resolve] or [reject] called on
    it twice. *)
Theorem resolveTask_once env result d :
  reachable env d →
  let d' := (WorkDistributor.resolveTask result d).1 in
  match WorkDistributor.findDelegationByTaskId (SwarmTaskResult.task_id result) d with
  | Some dl =>
      (WorkDistributor.resolveTask result d).2 = true
      ∧ promises (WorkDistributor.runtime d) !! ActiveDelegation.promise dl = Some Pending
      ∧ promises (WorkDistributor.runtime d') !! ActiveDelegation.promise dl
        = Some (Fulfilled result)
      ∧ (∃ tm, timers (WorkDistributor.runtime d) !! ActiveDelegation.timer dl = Some tm
               ∧ timer_state tm = Armed
               ∧ timers (WorkDistributor.runtime d') !! ActiveDelegation.timer dl
                 = Some (set_timer_state Cleared tm))
      ∧ WorkDistributor.activeDelegations d'
        = JsMap.delete (SwarmTaskResult.task_id result) (WorkDistributor.activeDelegations d)
      ∧ WorkDistributor.findDelegationByTaskId (SwarmTaskResult.task_id result) d' = None
      ∧ trace (WorkDistributor.runtime d')
        = trace (WorkDistributor.runtime d)
          ++ [ClearTimeoutCall (ActiveDelegation.timer dl);
              ResolveCall (ActiveDelegation.promise dl) result]
  | None => WorkDistributor.resolveTask result d = (d, false)
  end
  ∧ WorkDistributor.resolveTask result d' = (d', false)
  ∧ NoDup (settled (trace (WorkDistributor.runtime d')))
  ∧ reachable env d'.
Proof.
  intros Hr. pose proof (reachable_consistent env d Hr) as Hc.
  assert (reachable env (WorkDistributor.resolveTask result d).1) as Hr'
    by apply (reachable_handle env (ResultPosted result) d Hr).
  pose proof (reachable_consistent env _ Hr') as Hc'.
  cbv zeta.
  destruct (WorkDistributor.findDelegationByTaskId (SwarmTaskResult.task_id result) d)
    as [dl|] eqn:Hdl.
  - rewrite (resolveTask_Some _ _ _ Hdl) in Hr', Hc' |- *. cbn [fst snd] in *.
    unfold WorkDistributor.findDelegationByTaskId in *.
    pose proof (consistent_key d Hc _ _ Hdl) as Hk.
    pose proof (consistent_pending d Hc _ _ Hdl) as Hp.
    destruct (consistent_timer d Hc _ _ Hdl) as (tm & Htm & Harmed & _ & _).
    split; [|split; [|split]].
    + simpl. split; [done|]. split; [done|]. split.
      { rewrite lookup_settle, decide_True, Hp by done. done. }
      split.
      { exists tm. split; [done|]. split; [done|].
        rewrite list_lookup_alter_eq, Htm. simpl. unfold disarm. by rewrite Harmed. }
      split; [by rewrite Hk|]. split; [by rewrite Hk, get_delete, decide_True|].
      by rewrite <- app_assoc.
    + apply resolveTask_None. unfold WorkDistributor.findDelegationByTaskId. simpl.
      by rewrite Hk, get_delete, decide_True.
    + apply (consistent_once _ Hc').
    + exact Hr'.
  - rewrite (resolveTask_None _ _ Hdl) in Hr', Hc' |- *. cbn [fst snd] in *.
    split; [done|]. split; [by apply resolveTask_None|]. split; [|done].
    apply (consistent_once _ Hc).
Qed.

Lemma resolveTask_once_witness :
  reachable refusing_env one_delegation
  ∧ (WorkDistributor.resolveTask result_1 one_delegation).2 = true
  ∧ WorkDistributor.resolveTask result_1 (WorkDistributor.resolveTask result_1 one_delegation).1
    = ((WorkDistributor.resolveTask result_1 one_delegation).1, false).
Proof.
  split; [exact one_delegation_reachable|].
  pose proof (resolveTask_once refusing_env result_1 one_delegation
                one_delegation_reachable) as (H1 & H2 & _).
  split; [exact (proj1 H1) | exact H2].
Defined.

(** C7: in every reachable state, [cancelAll] rejects the promise of every
    active delegation with "Delegation cancelled", clears every such
    delegation's timer and empties the map: afterwards [activeCount] is 0,
    no promise at all is pending and no timer is armed. *)
Theorem cancelAll_clears env d :
  reachable env d →
  let d' := WorkDistributor.cancelAll d in
  WorkDistributor.activeDelegations d' = []
  ∧ WorkDistributor.activeCount d' = 0
  ∧ (∀ k dl, JsMap.get k (WorkDistributor.activeDelegations d) = Some dl →
       promises (WorkDistributor.runtime d) !! ActiveDelegation.promise dl = Some Pending
       ∧ promises (WorkDistributor.runtime d') !! ActiveDelegation.promise dl
         = Some (Rejected "Delegation cancelled")
       ∧ ∃ tm, timers (WorkDistributor.runtime d) !! ActiveDelegation.timer dl = Some tm
               ∧ timer_state tm = Armed
               ∧ timers (WorkDistributor.runtime d') !! ActiveDelegation.timer dl
                 = Some (set_timer_state Cleared tm))
  ∧ (∀ p, promises (WorkDistributor.runtime d') !! p ≠ Some Pending)
  ∧ (∀ tid tm, timers (WorkDistributor.runtime d') !! tid = Some tm →
       timer_state tm ≠ Armed)
  ∧ NoDup (settled (trace (WorkDistributor.runtime d'))).
Proof.
  intros Hr. pose proof (reachable_consistent env d Hr) as Hc.
  pose proof (consistent_cancelAll d Hc) as Hc'.
  cbv zeta. split; [done|]. split; [done|]. split; [|split; [|split]].
  - intros k dl Hdl.
    pose proof (consistent_pending d Hc _ _ Hdl) as Hp.
    destruct (consistent_timer d Hc _ _ Hdl) as (tm & Htm & Harmed & _ & _).
    split; [done|]. split.
    + simpl. rewrite cancel_fold_promises, Hp. rewrite decide_True; [done|].
      apply list_elem_of_fmap. exists (k, dl). split; [done | by apply get_Some_elem].
    + exists tm. split; [done|]. split; [done|].
      simpl. rewrite cancel_fold_timers, Htm. rewrite decide_True.
      * simpl. unfold disarm. by rewrite Harmed.
      * apply list_elem_of_fmap. exists (k, dl). split; [done | by apply get_Some_elem].
  - intros p Hp. destruct (consistent_owned _ Hc' _ Hp) as (k & dl & Hg & _). done.
  - intros tid tm Ht Harmed.
    destruct (consistent_armed _ Hc' _ _ Ht Harmed) as (dl & Hg & _). done.
  - apply (consistent_once _ Hc').
Qed.

Lemma cancelAll_clears_witness :
  reachable refusing_env one_delegation
  ∧ WorkDistributor.activeCount one_delegation = 1
  ∧ WorkDistributor.activeCount (WorkDistributor.cancelAll one_delegation) = 0
  ∧ promises (WorkDistributor.runtime (WorkDistributor.cancelAll one_delegation)) !! 0%nat
    ≠ Some Pending.
Proof.
  split; [exact one_delegation_reachable|]. split; [reflexivity|].
  pose proof (cancelAll_clears refusing_env one_delegation one_delegation_reachable)
    as (_ & H1 & _ & H2 & _).
  split; [exact H1 | exact (H2 0%nat)].
Defined.

(** ** distribute *)

Lemma resolveTask_calls result d :
  delegate_calls (trace (WorkDistributor.runtime (WorkDistributor.resolveTask result d).1))
  = delegate_calls (trace (WorkDistributor.runtime d)).
Proof.
  unfold WorkDistributor.resolveTask.
  destruct (WorkDistributor.findDelegationByTaskId _ d); [|done].
  simpl. rewrite !delegate_calls_app. simpl. by rewrite !app_nil_r.
Qed.

Lemma fireTimer_calls tid d :
  delegate_calls (trace (WorkDistributor.runtime (WorkDistributor.fireTimer tid d)))
  = delegate_calls (trace (WorkDistributor.runtime d)).
Proof.
  unfold WorkDistributor.fireTimer.
  destruct (timers (WorkDistributor.runtime d) !! tid) as [tm|]; [|done].
  destruct (timer_state tm); try done.
  simpl. rewrite !delegate_calls_app. simpl. by rewrite !app_nil_r.
Qed.

Lemma cancelAll_calls d :
  delegate_calls (trace (WorkDistributor.runtime (WorkDistributor.cancelAll d)))
  = delegate_calls (trace (WorkDistributor.runtime d)).
Proof.
  unfold WorkDistributor.cancelAll. simpl.
  rewrite cancel_fold_trace, delegate_calls_app.
  induction (WorkDistributor.activeDelegations d) as [|e es IH]; simpl.
  - by rewrite app_nil_r.
  - exact IH.
Qed.

Lemma handle_calls ev d :
  delegate_calls (trace (WorkDistributor.runtime (WorkDistributor.handle ev d)))
  = delegate_calls (trace (WorkDistributor.runtime d)).
Proof.
  destruct ev; simpl.
  - apply resolveTask_calls.
  - apply fireTimer_calls.
  - apply cancelAll_calls.
Qed.

Lemma await_calls p events : ∀ d,
  delegate_calls (trace (WorkDistributor.runtime (WorkDistributor.await p events d).1))
  = delegate_calls (trace (WorkDistributor.runtime d)).
Proof.
  induction events as [|ev events IH]; intros d; simpl.
  - by destruct (promises (WorkDistributor.runtime d) !! p) as [[]|].
  - destruct (promises (WorkDistributor.runtime d) !! p) as [[]|]; try done;
      by rewrite IH, handle_calls.
Qed.

(** One attempt asks exactly one peer. *)
Lemma delegateToPeer_calls env now peer d :
  delegate_calls (trace (WorkDistributor.runtime (WorkDistributor.delegateToPeer env now peer d).1))
  = delegate_calls (trace (WorkDistributor.runtime d)) ++ [node_id (identity peer)].
Proof.
  unfold WorkDistributor.delegateToPeer.
  destruct (negb (accepted _)).
  - simpl. by rewrite delegate_calls_app.
  - destruct (WorkDistributor.register _ _ _ _ _) as [d1 p] eqn:E.
    rewrite await_calls.
    apply (f_equal fst) in E. simpl in E. subst d1. simpl.
    by rewrite delegate_calls_app.
Qed.

Lemma distribute_loop_calls env now peers : ∀ attempts lastError d,
  0 <= attempts →
  ∃ k : nat,
    (k ≤ length peers)%nat
    ∧ Z.of_nat k <= Z.max 0 (WorkDistributor.maxRetries d + 1 - attempts)
    ∧ delegate_calls
        (trace (WorkDistributor.runtime
                  (WorkDistributor.distribute_loop env now peers attempts lastError d).1))
      = delegate_calls (trace (WorkDistributor.runtime d))
        ++ (node_id ∘ identity <$> take k peers).
Proof.
  induction peers as [|peer peers IH]; intros attempts lastError d Ha.
  - exists 0%nat. simpl. split; [lia|]. split; [lia|]. by rewrite app_nil_r.
  - cbn [WorkDistributor.distribute_loop]. case_bool_decide as Hlim.
    { exists 0%nat. simpl. split; [lia|]. split; [lia|]. by rewrite app_nil_r. }
    pose proof (delegateToPeer_calls env now peer d) as Hcalls.
    pose proof (delegateToPeer_config env now peer d) as (_ & _ & Hmax & _).
    destruct (WorkDistributor.delegateToPeer env now peer d) as [d' [r|err|]];
      cbn [fst snd] in *.
    + exists 1%nat. simpl. split; [lia|]. split; [lia|]. done.
    + destruct (IH (attempts + 1) (Some err) d' ltac:(lia)) as (k & Hk & Hb & Hc).
      exists (S k). simpl. split; [lia|]. split; [lia|].
      rewrite Hc, Hcalls. by rewrite <- app_assoc.
    + exists 1%nat. simpl. split; [lia|]. split; [lia|]. done.
Qed.

Lemma last_error_cons lastError err errs :
  last_error lastError (err :: errs) = last_error (Some err) errs.
Proof.
  unfold last_error. destruct errs as [|e errs]; [done|].
  change (last (err :: e :: errs)) with (last (e :: errs)).
  by destruct (last (e :: errs)) eqn:E; [|apply last_None in E].
Qed.

Lemma distribute_loop_all_fail env now peers : ∀ attempts lastError d errs d',
  all_fail env now
    (take (Z.to_nat (WorkDistributor.maxRetries d + 1 - attempts)) peers) d errs d' →
  WorkDistributor.distribute_loop env now peers attempts lastError d
  = (d', Thrown (default "Failed to distribute task to any peer"
                   (last_error lastError errs))).
Proof.
  induction peers as [|peer peers IH]; intros attempts lastError d errs d' Hall.
  - rewrite take_nil in Hall. inversion Hall; subst. done.
  - cbn [WorkDistributor.distribute_loop]. case_bool_decide as Hlim.
    + replace (Z.to_nat _) with 0%nat in Hall by lia.
      simpl in Hall. inversion Hall; subst. done.
    + replace (Z.to_nat (WorkDistributor.maxRetries d + 1 - attempts))
        with (S (Z.to_nat (WorkDistributor.maxRetries d + 1 - (attempts + 1))))
        in Hall by lia.
      simpl in Hall. inversion Hall as [|? ? ? d1 err errs' ? Hd Hrest]; subst.
      rewrite Hd.
      pose proof (delegateToPeer_config env now peer d) as (_ & _ & Hmax & _).
      rewrite Hd in Hmax. simpl in Hmax. rewrite <- Hmax in Hrest.
      rewrite (IH _ _ _ _ _ Hrest). by rewrite last_error_cons.
Qed.

(** *** How one attempt ends *)

Lemma await_fulfilled p events d result :
  promises (WorkDistributor.runtime d) !! p = Some (Fulfilled result) →
  WorkDistributor.await p events d = (d, Returned result).
Proof. intros H. destruct events; simpl; by rewrite H. Qed.

Lemma await_rejected p events d message :
  promises (WorkDistributor.runtime d) !! p = Some (Rejected message) →
  WorkDistributor.await p events d = (d, Thrown message).
Proof. intros H. destruct events; simpl; by rewrite H. Qed.

Lemma delegateToPeer_refused env now peer d :
  accepted (delegateTask env (node_id (identity peer))) = false →
  WorkDistributor.delegateToPeer env now peer d
  = (WorkDistributor.with_runtime
       (log (DelegateTaskCall (node_id (identity peer))) (WorkDistributor.runtime d)) d,
     Thrown ("Peer " +:+ node_id (identity peer) +:+ " rejected: "
               +:+ default "undefined" (reason (delegateTask env (node_id (identity peer)))))).
Proof. intros H. unfold WorkDistributor.delegateToPeer. by rewrite H. Qed.

Lemma delegateToPeer_timed_out env now peer d events :
  accepted (delegateTask env (node_id (identity peer))) = true →
  arrivals env (taskId (delegateTask env (node_id (identity peer))))
  = TimerFired (length (timers (WorkDistributor.runtime d))) :: events →
  (WorkDistributor.delegateToPeer env now peer d).2
  = Thrown ("Delegation to " +:+ node_id (identity peer) +:+ " timed out after "
              +:+ pretty (WorkDistributor.delegationTimeoutMs d) +:+ "ms").
Proof.
  intros Hacc Hev. unfold WorkDistributor.delegateToPeer. rewrite Hacc, Hev.
  cbn [negb WorkDistributor.register newPromise setTimeout].
  cbn [WorkDistributor.await]. cbn [WorkDistributor.runtime WorkDistributor.with_runtime
    WorkDistributor.with_activeDelegations promises log].
  rewrite list_lookup_middle by done.
  cbn [WorkDistributor.handle]. unfold WorkDistributor.fireTimer.
  cbn [WorkDistributor.runtime WorkDistributor.with_runtime
    WorkDistributor.with_activeDelegations timers log].
  rewrite list_lookup_middle by done. cbn [timer_state].
  rewrite await_rejected with (message :=
    "Delegation to " +:+ node_id (identity peer) +:+ " timed out after "
      +:+ pretty (WorkDistributor.delegationTimeoutMs d) +:+ "ms"); [done|].
  simpl. rewrite lookup_settle, decide_True by done.
  by rewrite list_lookup_middle.
Qed.

Lemma delegateToPeer_cancelled env now peer d events :
  accepted (delegateTask env (node_id (identity peer))) = true →
  arrivals env (taskId (delegateTask env (node_id (identity peer))))
  = CancelAllCalled :: events →
  (WorkDistributor.delegateToPeer env now peer d).2 = Thrown "Delegation cancelled".
Proof.
  intros Hacc Hev. unfold WorkDistributor.delegateToPeer. rewrite Hacc, Hev.
  cbn [negb WorkDistributor.register newPromise setTimeout].
  cbn [WorkDistributor.await]. cbn [WorkDistributor.runtime WorkDistributor.with_runtime
    WorkDistributor.with_activeDelegations promises log].
  rewrite list_lookup_middle by done.
  cbn [WorkDistributor.handle].
  rewrite await_rejected with (message := "Delegation cancelled"); [done|].
  unfold WorkDistributor.cancelAll. simpl.
  rewrite cancel_fold_promises. simpl. rewrite list_lookup_middle by done.
  rewrite decide_True; [done|].
  apply list_elem_of_fmap.
  eexists (taskId (delegateTask env (node_id (identity peer))), _).
  split; [|apply get_Some_elem; rewrite get_set, decide_True by done; reflexivity].
  done.
Qed.

Lemma delegateToPeer_resolved env now peer d result events :
  accepted (delegateTask env (node_id (identity peer))) = true →
  arrivals env (taskId (delegateTask env (node_id (identity peer))))
  = ResultPosted result :: events →
  SwarmTaskResult.task_id result = taskId (delegateTask env (node_id (identity peer))) →
  (WorkDistributor.delegateToPeer env now peer d).2 = Returned result.
Proof.
  intros Hacc Hev Hid. unfold WorkDistributor.delegateToPeer. rewrite Hacc, Hev.
  cbn [negb WorkDistributor.register newPromise setTimeout].
  cbn [WorkDistributor.await]. cbn [WorkDistributor.runtime WorkDistributor.with_runtime
    WorkDistributor.with_activeDelegations promises log].
  rewrite list_lookup_middle by done.
  cbn [WorkDistributor.handle].
  rewrite await_fulfilled with (result := result); [done|].
  unfold WorkDistributor.resolveTask, WorkDistributor.findDelegationByTaskId.
  cbn [WorkDistributor.activeDelegations WorkDistributor.with_activeDelegations
       WorkDistributor.with_runtime].
  rewrite Hid, get_set, decide_True by done. simpl.
  rewrite lookup_settle, decide_True by done. by rewrite list_lookup_middle.
Qed.

Lemma selectPeers_runtime env c d :
  WorkDistributor.runtime (WorkDistributor.selectPeers env c d).1 = WorkDistributor.runtime d
  ∧ WorkDistributor.maxRetries (WorkDistributor.selectPeers env c d).1
    = WorkDistributor.maxRetries d.
Proof. unfold WorkDistributor.selectPeers. by destruct (_ && _). Qed.

Lemma distribute_loop_continue env now peer rest attempts lastError d d' err :
  attempts < WorkDistributor.maxRetries d + 1 →
  WorkDistributor.delegateToPeer env now peer d = (d', Thrown err) →
  WorkDistributor.distribute_loop env now (peer :: rest) attempts lastError d
  = WorkDistributor.distribute_loop env now rest (attempts + 1) (Some err) d'.
Proof.
  intros Hlt Hd. cbn [WorkDistributor.distribute_loop].
  rewrite bool_decide_eq_false_2 by lia. by rewrite Hd.
Qed.

(** C5: [distribute] throws "No suitable peers available for task
    distribution" when [selectPeers] returns no candidate.  Otherwise the
    peers it asks are a prefix of the candidates, in order, of at most
    [maxRetries + 1] peers.  An attempt fails when the peer refuses (the
    error names the peer and the reason), when the delegation's timer
    fires (a timeout error) and when the delegation is cancelled; a failed
    attempt below the limit moves on to the next candidate, recording its
    error.  If every attempt fails, [distribute] throws the error of the
    last attempt (and the fallback error when no attempt could be made). *)
Theorem distribute_attempts env now c d :
  let d1 := (WorkDistributor.selectPeers env c d).1 in
  let peers := (WorkDistributor.selectPeers env c d).2 in
  let final := (WorkDistributor.distribute env now c d).1 in
  (peers = [] →
   WorkDistributor.distribute env now c d
   = (d1, Thrown "No suitable peers available for task distribution"))
  ∧ (∃ k : nat,
       (k ≤ length peers)%nat
       ∧ Z.of_nat k <= Z.max 0 (WorkDistributor.maxRetries d + 1)
       ∧ delegate_calls (trace (WorkDistributor.runtime final))
         = delegate_calls (trace (WorkDistributor.runtime d))
           ++ (node_id ∘ identity <$> take k peers))
  ∧ (∀ peer d0,
       accepted (delegateTask env (node_id (identity peer))) = false →
       (WorkDistributor.delegateToPeer env now peer d0).2
       = Thrown ("Peer " +:+ node_id (identity peer) +:+ " rejected: "
                   +:+ default "undefined"
                         (reason (delegateTask env (node_id (identity peer))))))
  ∧ (∀ peer d0 events,
       accepted (delegateTask env (node_id (identity peer))) = true →
       arrivals env (taskId (delegateTask env (node_id (identity peer))))
       = TimerFired (length (timers (WorkDistributor.runtime d0))) :: events →
       (WorkDistributor.delegateToPeer env now peer d0).2
       = Thrown ("Delegation to " +:+ node_id (identity peer) +:+ " timed out after "
                   +:+ pretty (WorkDistributor.delegationTimeoutMs d0) +:+ "ms"))
  ∧ (∀ peer d0 events,
       accepted (delegateTask env (node_id (identity peer))) = true →
       arrivals env (taskId (delegateTask env (node_id (identity peer))))
       = CancelAllCalled :: events →
       (WorkDistributor.delegateToPeer env now peer d0).2 = Thrown "Delegation cancelled")
  ∧ (∀ peer rest attempts lastError d0 d0' err,
       attempts < WorkDistributor.maxRetries d0 + 1 →
       WorkDistributor.delegateToPeer env now peer d0 = (d0', Thrown err) →
       WorkDistributor.distribute_loop env now (peer :: rest) attempts lastError d0
       = WorkDistributor.distribute_loop env now rest (attempts + 1) (Some err) d0')
  ∧ (∀ errs d',
       peers ≠ [] →
       all_fail env now
         (take (Z.to_nat (WorkDistributor.maxRetries d + 1)) peers) d1 errs d' →
       WorkDistributor.distribute env now c d
       = (d', Thrown (default "Failed to distribute task to any peer" (last errs)))).
Proof.
  cbv zeta. unfold WorkDistributor.distribute.
  destruct (selectPeers_runtime env c d) as [Hrt Hmax].
  destruct (WorkDistributor.selectPeers env c d) as [d1 peers]. cbn [fst snd] in *.
  split; [|split; [|split; [|split; [|split; [|split]]]]].
  - intros ->. done.
  - case_bool_decide as Hlen.
    + exists 0%nat. simpl. rewrite Hrt, app_nil_r. split; [lia|]. split; [lia|done].
    + destruct (distribute_loop_calls env now peers 0 None d1 ltac:(lia))
        as (k & Hk & Hb & Hc).
      exists k. rewrite Hc, Hrt. rewrite Hmax in Hb. split; [done|]. split; [lia|done].
  - intros peer d0 Hacc. by rewrite delegateToPeer_refused.
  - intros peer d0 events. apply delegateToPeer_timed_out.
  - intros peer d0 events. apply delegateToPeer_cancelled.
  - intros. by apply distribute_loop_continue.
  - intros errs d' Hne Hall.
    rewrite bool_decide_eq_false_2 by (by destruct peers).
    rewrite <- Hmax in Hall.
    replace (WorkDistributor.maxRetries d1 + 1)
      with (WorkDistributor.maxRetries d1 + 1 - 0) in Hall by lia.
    rewrite (distribute_loop_all_fail _ _ _ _ _ _ _ _ Hall).
    unfold last_error. by destruct (last errs).
Qed.

Lemma distribute_attempts_witness :
  let d := WorkDistributor.new round_robin 300000 1 in
  (WorkDistributor.selectPeers refusing_env None d).2 ≠ []
  ∧ (WorkDistributor.distribute refusing_env 1000 None d).2
    = Thrown "Peer b rejected: Busy".
Proof.
  intros d.
  assert ((WorkDistributor.selectPeers refusing_env None d).2 ≠ []) as Hne by discriminate.
  split; [exact Hne|].
  destruct (distribute_attempts refusing_env 1000 None d) as (_ & _ & _ & _ & _ & _ & H).
  assert (∃ errs d',
            all_fail refusing_env 1000
              (take (Z.to_nat (WorkDistributor.maxRetries d + 1))
                 (WorkDistributor.selectPeers refusing_env None d).2)
              (WorkDistributor.selectPeers refusing_env None d).1 errs d'
            ∧ last errs = Some "Peer b rejected: Busy") as (errs & d' & Hall & Hlast).
  { eexists _, _. split.
    - eapply all_fail_cons; [reflexivity|].
      eapply all_fail_cons; [reflexivity|]. apply all_fail_nil.
    - reflexivity. }
  rewrite (H errs d' Hne Hall), Hlast. reflexivity.
Defined.

(** Scenario S5: the first candidate refuses, the second accepts and posts
    its result; [distribute] returns it and no delegation stays active. *)
Lemma scenario_S5 :
  let d := WorkDistributor.new round_robin 300000 1 in
  (WorkDistributor.distribute retry_env 1000 None d).2 = Returned result_b
  ∧ WorkDistributor.activeCount (WorkDistributor.distribute retry_env 1000 None d).1 = 0
  ∧ delegate_calls
      (trace (WorkDistributor.runtime (WorkDistributor.distribute retry_env 1000 None d).1))
    = ["a"; "b"].
Proof. vm_compute. done. Qed.

End WorkDistributorFacts.

(** * MeshManager: replay protection *)

Module MeshManagerFacts.

Lemma handleTaskRequest_window now req d :
  MeshManager.nonce_window_ms (MeshManager.handleTaskRequest now req d).1
  = MeshManager.nonce_window_ms d.
Proof.
  unfold MeshManager.handleTaskRequest.
  destruct (MeshManager.nonces _ !! _); [done|].
  by destruct (MeshManager.onTaskRequest _).
Qed.

(** A nonce recorded at [seen] survives the handling of any request that
    arrives within the window. *)
Lemma handleTaskRequest_keeps now req d n seen :
  MeshManager.nonces d !! n = Some seen →
  now - seen <= MeshManager.nonce_window_ms d →
  MeshManager.nonces (MeshManager.handleTaskRequest now req d).1 !! n = Some seen.
Proof.
  intros Hn Hw.
  assert (MeshManager.nonces (MeshManager.expireNonces now d) !! n = Some seen) as Hkept.
  { simpl. by apply map_lookup_filter_Some_2. }
  unfold MeshManager.handleTaskRequest.
  destruct (MeshManager.nonces (MeshManager.expireNonces now d) !! SwarmTaskRequest.nonce req)
    eqn:Hreq; [done|].
  destruct (MeshManager.onTaskRequest _); [|done].
  cbn [fst MeshManager.nonces MeshManager.with_sessions MeshManager.with_nonces].
  rewrite lookup_insert_ne; [done|]. intros Heq. rewrite Heq in Hreq. congruence.
Qed.

Lemma handleAll_keeps reqs : ∀ d n seen bound,
  MeshManager.nonces d !! n = Some seen →
  Forall (λ tr, tr.1 <= bound) reqs →
  bound - seen <= MeshManager.nonce_window_ms d →
  MeshManager.nonces (MeshManager.handleAll reqs d) !! n = Some seen
  ∧ MeshManager.nonce_window_ms (MeshManager.handleAll reqs d)
    = MeshManager.nonce_window_ms d.
Proof.
  induction reqs as [|[t r] reqs IH]; intros d n seen bound Hn Hall Hw; [done|].
  apply Forall_cons in Hall as [Ht Hall]. simpl in Ht.
  unfold MeshManager.handleAll in *. cbn [fold_left fst snd].
  destruct (IH (MeshManager.handleTaskRequest t r d).1 n seen bound) as [H1 H2].
  - apply handleTaskRequest_keeps; [done | lia].
  - done.
  - by rewrite handleTaskRequest_window.
  - split; [done|]. by rewrite H2, handleTaskRequest_window.
Qed.

(** C3: replay protection.  If handling [r1] at instant [t1] recorded its
    nonce, then a request [r2] with the same nonce arriving at [t2], less
    than [nonce_window_ms] after [t1], is refused with reason
    "Replayed nonce", whatever requests were handled in between; the
    session factory is not invoked for it, so the list of sessions does
    not change. *)
Theorem replay_rejected t1 r1 between t2 r2 d :
  let d1 := (MeshManager.handleTaskRequest t1 r1 d).1 in
  let d2 := MeshManager.handleAll between d1 in
  MeshManager.nonces d1 !! SwarmTaskRequest.nonce r1 = Some t1 →
  Forall (λ tr, tr.1 <= t2) between →
  SwarmTaskRequest.nonce r2 = SwarmTaskRequest.nonce r1 →
  t2 - t1 < MeshManager.nonce_window_ms d →
  (MeshManager.handleTaskRequest t2 r2 d2).2
  = {| MeshManager.accepted := false; MeshManager.reason := Some "Replayed nonce";
       MeshManager.session_id := None |}
  ∧ MeshManager.sessions (MeshManager.handleTaskRequest t2 r2 d2).1
    = MeshManager.sessions d2.
Proof.
  intros d1 d2 Hrec Hbetween Hnonce Hlt.
  assert (MeshManager.nonce_window_ms d1 = MeshManager.nonce_window_ms d) as Hw1
    by apply handleTaskRequest_window.
  destruct (handleAll_keeps between d1 _ t1 t2 Hrec Hbetween ltac:(lia)) as [Hkept Hw2].
  fold d2 in Hkept, Hw2.
  assert (MeshManager.nonces (MeshManager.expireNonces t2 d2) !! SwarmTaskRequest.nonce r2
          = Some t1) as Hseen.
  { simpl. rewrite Hnonce. apply map_lookup_filter_Some_2; [done|]. simpl. lia. }
  unfold MeshManager.handleTaskRequest. rewrite Hseen. done.
Qed.

Lemma replay_rejected_witness :
  let d1 := (MeshManager.handleTaskRequest 1000 request_1 accepting_manager).1 in
  MeshManager.nonces d1 !! SwarmTaskRequest.nonce request_1 = Some 1000
  ∧ Forall (λ tr : Z * SwarmTaskRequest.t, tr.1 <= 2000) []
  ∧ SwarmTaskRequest.nonce request_2 = SwarmTaskRequest.nonce request_1
  ∧ 2000 - 1000 < MeshManager.nonce_window_ms accepting_manager
  ∧ (MeshManager.handleTaskRequest 1000 request_1 accepting_manager).2
    = {| MeshManager.accepted := true; MeshManager.reason := None;
         MeshManager.session_id := Some "sess-X" |}
  ∧ MeshManager.reason (MeshManager.handleTaskRequest 2000 request_2 d1).2
    = Some "Replayed nonce"
  ∧ MeshManager.sessions (MeshManager.handleTaskRequest 2000 request_2 d1).1 = [request_1].
Proof.
  intros d1.
  assert (MeshManager.nonces d1 !! SwarmTaskRequest.nonce request_1 = Some 1000) as H1
    by (vm_compute; reflexivity).
  assert (Forall (λ tr : Z * SwarmTaskRequest.t, tr.1 <= 2000) []) as H2
    by apply Forall_nil_2.
  assert (SwarmTaskRequest.nonce request_2 = SwarmTaskRequest.nonce request_1) as H3
    by reflexivity.
  assert (2000 - 1000 < MeshManager.nonce_window_ms accepting_manager) as H4
    by (vm_compute; reflexivity).
  split; [exact H1|]. split; [exact H2|]. split; [exact H3|]. split; [exact H4|].
  split; [reflexivity|].
  destruct (replay_rejected 1000 request_1 [] 2000 request_2 accepting_manager
              H1 H2 H3 H4) as [Hr Hs].
  split.
  - exact (f_equal MeshManager.reason Hr).
  - exact Hs.
Defined.

End MeshManagerFacts.

(** * The scenarios of the specification and of the test suite *)

Module Scenarios.

(** S2: a heartbeat 20 s old makes the peer suspected. *)
Example scenario_S2 :
  PeerTable.sweep 20000 default_thresholds one_peer_table
  = (PeerTable.with_peers [("remote-1", set_status Suspected remote_1)] one_peer_table,
     {| PeerTable.suspected := ["remote-1"]; PeerTable.unreachable := [];
        PeerTable.evicted := [] |}).
Proof. reflexivity. Qed.

(** S3: a heartbeat 130 s old evicts the peer. *)
Example scenario_S3 :
  PeerTable.sweep 130000 default_thresholds one_peer_table
  = (PeerTable.with_peers [] one_peer_table,
     {| PeerTable.suspected := []; PeerTable.unreachable := [];
        PeerTable.evicted := ["remote-1"] |}).
Proof. reflexivity. Qed.

(** peer-table.test.ts, "should transition to unreachable". *)
Example sweep_to_unreachable :
  PeerTable.unreachable (PeerTable.sweep 35000 default_thresholds one_peer_table).2
  = ["remote-1"].
Proof. reflexivity. Qed.

(** peer-table.test.ts, "should skip peers with status left". *)
Example sweep_skips_left :
  PeerTable.sweep 130000 default_thresholds
    (PeerTable.markLeft "remote-1" one_peer_table).1
  = ((PeerTable.markLeft "remote-1" one_peer_table).1,
     {| PeerTable.suspected := []; PeerTable.unreachable := [];
        PeerTable.evicted := [] |}).
Proof. reflexivity. Qed.

(** peer-table.test.ts, "should record failures". *)
Example record_failures :
  (PeerTable.recordFailure "remote-1" one_peer_table).2 = 1
  ∧ (PeerTable.recordFailure "remote-1"
       (PeerTable.recordFailure "remote-1" one_peer_table).1).2 = 2
  ∧ (PeerTable.recordFailure "nonexistent" one_peer_table).2 = -1.
Proof. done. Qed.

(** peer-table.test.ts, "should throw when peer table is full". *)
Example add_to_full_table :
  (PeerTable.add 0 (makeIdentity "node-overflow" []) (PeerTable.with_peers
     [("node-0", peer_a); ("node-1", peer_a); ("node-2", peer_a);
      ("node-3", peer_a); ("node-4", peer_a)] (PeerTable.new 5))).2
  = Throw "Peer table full (max 5)".
Proof. reflexivity. Qed.

(** S6: the only peer accepts and never answers; with [max_retries = 0]
    and a 50 ms timeout [distribute] throws the timeout error and no
    delegation stays active. *)
Example scenario_S6 :
  let d := WorkDistributor.new round_robin 50 0 in
  (WorkDistributor.distribute silent_env 1000 None d).2
  = Thrown "Delegation to a timed out after 50ms"
  ∧ WorkDistributor.activeCount (WorkDistributor.distribute silent_env 1000 None d).1 = 0.
Proof. done. Qed.

End Scenarios.

(** * More of the peer table *)

Module PeerTableMore.
Import JsMapFacts PeerTableFacts.

(** ** Insertion-ordered maps, continued *)

Lemma get_app {V} k (m1 m2 : list (string * V)) :
  JsMap.get k (m1 ++ m2)
  = match JsMap.get k m1 with Some v => Some v | None => JsMap.get k m2 end.
Proof.
  induction m1 as [|[k0 v0] m1 IH]; simpl; [done|].
  by destruct (decide (k = k0)).
Qed.

Lemma delete_app {V} k (m1 m2 : list (string * V)) :
  JsMap.delete k (m1 ++ m2) = JsMap.delete k m1 ++ JsMap.delete k m2.
Proof.
  induction m1 as [|[k0 v0] m1 IH]; simpl; [done|].
  destruct (decide (k = k0)); simpl; by rewrite IH.
Qed.

Lemma alter_app_r {V} (f : V → V) k (m1 m2 : list (string * V)) :
  JsMap.get k m1 = None →
  JsMap.alter f k (m1 ++ m2) = m1 ++ JsMap.alter f k m2.
Proof.
  induction m1 as [|[k0 v0] m1 IH]; simpl; [done|].
  destruct (decide (k = k0)); [done|]. intros H. by rewrite IH.
Qed.

Lemma set_absent {V} k (v : V) (m : list (string * V)) :
  JsMap.get k m = None → JsMap.set k v m = m ++ [(k, v)].
Proof.
  induction m as [|[k0 v0] m IH]; simpl; [done|].
  destruct (decide (k = k0)); [done|]. intros H. by rewrite IH.
Qed.

Lemma length_delete_le {V} k (m : list (string * V)) :
  (length (JsMap.delete k m) ≤ length m)%nat.
Proof.
  induction m as [|[k0 v0] m IH]; simpl; [done|].
  destruct (decide (k = k0)); simpl; lia.
Qed.

Lemma length_delete_present {V} k (v : V) (m : list (string * V)) :
  JsMap.wf m → JsMap.get k m = Some v →
  S (length (JsMap.delete k m)) = length m.
Proof.
  unfold JsMap.wf, JsMap.keys.
  induction m as [|[k0 v0] m IH]; csimpl; [done|].
  intros Hnd. apply NoDup_cons in Hnd as [Hnot Hnd].
  destruct (decide (k = k0)) as [->|Hne].
  - intros _. f_equal. f_equal. apply delete_absent. by apply get_None_keys.
  - intros Hg. simpl. f_equal. by apply IH.
Qed.

Lemma wf_app_inv {V} (m1 m2 : list (string * V)) :
  JsMap.wf (m1 ++ m2) →
  JsMap.wf m1 ∧ JsMap.wf m2
  ∧ ∀ k, is_Some (JsMap.get k m2) → JsMap.get k m1 = None.
Proof.
  unfold JsMap.wf, JsMap.keys. rewrite fmap_app. intros H.
  apply NoDup_app in H as (H1 & H12 & H2). split; [done|]. split; [done|].
  intros k [v Hv]. apply get_None_keys. intros Hin. apply (H12 _ Hin).
  apply get_Some_elem in Hv. apply list_elem_of_fmap. by exists (k, v).
Qed.

(** ** The table a sweep leaves *)

Lemma swept_cons th now k p es :
  swept th now ((k, p) :: es)
  = match transition th now p with
    | Evict => swept th now es
    | ToUnreachable => (k, set_status Unreachable p) :: swept th now es
    | ToSuspected => (k, set_status Suspected p) :: swept th now es
    | Stay => (k, p) :: swept th now es
    end.
Proof. unfold swept. csimpl. by destruct (transition th now p). Qed.

Lemma sweep_fold_swept th now es : ∀ pre r,
  JsMap.wf (pre ++ es) →
  (fold_left (PeerTable.sweep_body th now) es (pre ++ es, r)).1
  = pre ++ swept th now es.
Proof.
  induction es as [|[k p] es IH]; intros pre r Hwf; [done|].
  destruct (wf_app_inv _ _ Hwf) as (_ & Hwf2 & Hdisj).
  assert (JsMap.get k pre = None) as Hpre.
  { apply Hdisj. simpl. rewrite decide_True by done. by eexists. }
  assert (JsMap.get k es = None) as Hes.
  { apply get_None_keys. unfold JsMap.wf, JsMap.keys in Hwf2. csimpl in Hwf2.
    by apply NoDup_cons in Hwf2 as [? _]. }
  cbn [fold_left]. rewrite sweep_body_transition, swept_cons.
  destruct (transition th now p).
  - rewrite delete_app, (delete_absent _ _ Hpre). simpl.
    rewrite decide_True by done. rewrite (delete_absent _ _ Hes).
    apply IH. unfold JsMap.wf, JsMap.keys in *. rewrite fmap_app in *. csimpl in Hwf.
    apply NoDup_app in Hwf as (H1 & H12 & H2). apply NoDup_cons in H2 as [? H2].
    apply NoDup_app. split; [done|]. split; [|done].
    intros x Hx Hx'. apply (H12 x Hx). apply elem_of_cons. by right.
  - rewrite alter_app_r by done. simpl. rewrite decide_True by done.
    specialize (IH (pre ++ [(k, set_status Unreachable p)])).
    rewrite <- !app_assoc in IH. apply IH.
    unfold JsMap.wf, JsMap.keys in *. by rewrite fmap_app in *.
  - rewrite alter_app_r by done. simpl. rewrite decide_True by done.
    specialize (IH (pre ++ [(k, set_status Suspected p)])).
    rewrite <- !app_assoc in IH. apply IH.
    unfold JsMap.wf, JsMap.keys in *. by rewrite fmap_app in *.
  - specialize (IH (pre ++ [(k, p)])).
    rewrite <- !app_assoc in IH. by apply IH.
Qed.

Lemma sweep_swept now th tbl :
  JsMap.wf (PeerTable.peers tbl) →
  PeerTable.sweep now th tbl
  = (PeerTable.with_peers (swept th now (PeerTable.peers tbl)) tbl,
     {| PeerTable.suspected := moved th now ToSuspected (PeerTable.peers tbl);
        PeerTable.unreachable := moved th now ToUnreachable (PeerTable.peers tbl);
        PeerTable.evicted := moved th now Evict (PeerTable.peers tbl) |}).
Proof.
  intros Hwf.
  pose proof (sweep_fold_swept th now (PeerTable.peers tbl) []
                {| PeerTable.suspected := []; PeerTable.unreachable := [];
                   PeerTable.evicted := [] |} Hwf) as Htab.
  destruct (sweep_spec now th tbl Hwf) as (_ & Hs & Hu & He & _).
  unfold PeerTable.sweep in *. simpl in Htab.
  destruct (fold_left _ _ _) as [m r]. simpl in *. subst m.
  destruct r; simpl in *; by subst.
Qed.

Lemma swept_length th now m :
  (length (swept th now m) + length (moved th now Evict m))%nat = length m.
Proof.
  induction m as [|[k p] m IH]; [done|].
  rewrite swept_cons, moved_cons.
  destruct (transition th now p); simpl; lia.
Qed.

Lemma swept_keys th now M : JsMap.wf M → ∀ m,
  (∀ e, e ∈ m → e ∈ M) →
  JsMap.keys (swept th now m)
  = List.filter (λ k, bool_decide (k ∉ moved th now Evict M)) (JsMap.keys m).
Proof.
  intros HM. unfold JsMap.keys. induction m as [|[k p] m IH]; intros Hsub; [done|].
  assert (JsMap.get k M = Some p) as Hk.
  { apply elem_get; [done|]. apply Hsub, elem_of_cons. by left. }
  pose proof (elem_of_moved_wf th now Evict k p M HM Hk) as Hev.
  rewrite swept_cons. csimpl.
  rewrite <- IH by (intros e He; apply Hsub, elem_of_cons; by right).
  destruct (transition th now p) eqn:Ht.
  - rewrite bool_decide_eq_false_2; [done|]. intros Hn. apply Hn. by apply Hev.
  - rewrite bool_decide_eq_true_2; [done|]. rewrite Hev. done.
  - rewrite bool_decide_eq_true_2; [done|]. rewrite Hev. done.
  - rewrite bool_decide_eq_true_2; [done|]. rewrite Hev. done.
Qed.

Lemma moved_NoDup th now x m : JsMap.wf m → NoDup (moved th now x m).
Proof.
  unfold JsMap.wf, JsMap.keys. induction m as [|[k p] m IH]; intros Hnd.
  - apply NoDup_nil_2.
  - csimpl in Hnd. apply NoDup_cons in Hnd as [Hnot Hnd]. rewrite moved_cons.
    destruct (decide _); [|by apply IH].
    apply NoDup_cons. split; [|by apply IH].
    intros Hin. apply moved_keys in Hin as [v Hv].
    apply Hnot. apply get_Some_elem in Hv. apply list_elem_of_fmap. by exists (k, v).
Qed.

Lemma moved_disjoint th now x y k m :
  JsMap.wf m → x ≠ y → k ∈ moved th now x m → k ∉ moved th now y m.
Proof.
  intros Hwf Hxy Hx Hy.
  destruct (moved_keys _ _ _ _ _ Hx) as [p Hp].
  apply (elem_of_moved_wf th now x k p m Hwf Hp) in Hx.
  apply (elem_of_moved_wf th now y k p m Hwf Hp) in Hy. congruence.
Qed.

(** An entry that a sweep left in the table has nothing more to undergo
    at the same instant. *)
Lemma transition_settled th now p p' :
  after (transition th now p) (Some p) = Some p' → transition th now p' = Stay.
Proof.
  unfold transition.
  destruct (status p) eqn:Hs; simpl;
    repeat (case_bool_decide; simpl; try done);
    intros [= <-]; simpl; rewrite ?Hs;
    repeat (case_bool_decide; simpl in *; try done);
    unfold set_status in *; simpl in *; try lia; try congruence.
Qed.

Lemma swept_settled th now m e :
  e ∈ swept th now m → transition th now e.2 = Stay.
Proof.
  induction m as [|[k p] m IH]; [by intros H; apply elem_of_nil in H|].
  rewrite swept_cons.
  pose proof (transition_settled th now p) as Hp.
  destruct (transition th now p); simpl in Hp; rewrite ?elem_of_cons;
    intros H; try (destruct H as [->|H]); auto.
Qed.

Lemma swept_all_Stay th now m :
  (∀ e, e ∈ m → transition th now e.2 = Stay) →
  swept th now m = m
  ∧ ∀ x, x ≠ Stay → moved th now x m = [].
Proof.
  induction m as [|[k p] m IH]; intros Hall; [done|].
  assert (transition th now p = Stay) as Hp
    by (apply (Hall (k, p)), elem_of_cons; by left).
  destruct IH as [IH1 IH2]; [intros e He; apply Hall, elem_of_cons; by right|].
  split.
  - by rewrite swept_cons, Hp, IH1.
  - intros x Hx. rewrite moved_cons, Hp. rewrite decide_False by done. by apply IH2.
Qed.

(** ** sweep: accounting, frame and idempotence *)

(** X1: a sweep removes exactly the entries it reports as evicted and
    keeps the others in their order; no id is reported twice, neither in
    one list nor in two. *)
Theorem sweep_accounting now th tbl :
  JsMap.wf (PeerTable.peers tbl) →
  let tbl' := (PeerTable.sweep now th tbl).1 in
  let r := (PeerTable.sweep now th tbl).2 in
  PeerTable.size tbl' + Z.of_nat (length (PeerTable.evicted r)) = PeerTable.size tbl
  ∧ NoDup (PeerTable.suspected r ++ PeerTable.unreachable r ++ PeerTable.evicted r)
  ∧ JsMap.keys (PeerTable.peers tbl')
    = List.filter (λ k, bool_decide (k ∉ PeerTable.evicted r))
        (JsMap.keys (PeerTable.peers tbl))
  ∧ PeerTable.maxPeers tbl' = PeerTable.maxPeers tbl.
Proof.
  intros Hwf. cbv zeta. rewrite (sweep_swept now th tbl Hwf). simpl.
  split; [|split; [|split; [|done]]].
  - unfold PeerTable.size, JsMap.size. simpl.
    pose proof (swept_length th now (PeerTable.peers tbl)). lia.
  - apply NoDup_app. split; [by apply moved_NoDup|]. split.
    + intros k Hk Hin. apply elem_of_app in Hin as [Hin|Hin].
      * by apply (moved_disjoint th now ToSuspected ToUnreachable k _ Hwf) in Hin.
      * by apply (moved_disjoint th now ToSuspected Evict k _ Hwf) in Hin.
    + apply NoDup_app. split; [by apply moved_NoDup|]. split; [|by apply moved_NoDup].
      intros k Hk Hin.
      by apply (moved_disjoint th now ToUnreachable Evict k _ Hwf) in Hin.
  - by apply swept_keys.
Qed.

Lemma sweep_accounting_witness :
  JsMap.wf (PeerTable.peers one_peer_table)
  ∧ PeerTable.size (PeerTable.sweep 130000 default_thresholds one_peer_table).1 + 1
    = PeerTable.size one_peer_table.
Proof.
  assert (JsMap.wf (PeerTable.peers one_peer_table)) as Hwf
    by (apply (bool_decide_unpack _); vm_compute; exact I).
  split; [exact Hwf|].
  exact (proj1 (sweep_accounting 130000 default_thresholds one_peer_table Hwf)).
Defined.

(** X2: a sweep changes nothing but the status of the entries it keeps,
    and changes a status only where it reports the id. *)
Theorem sweep_changes_status_only now th tbl nodeId peer' :
  JsMap.wf (PeerTable.peers tbl) →
  PeerTable.get nodeId (PeerTable.sweep now th tbl).1 = Some peer' →
  let r := (PeerTable.sweep now th tbl).2 in
  ∃ peer,
    PeerTable.get nodeId tbl = Some peer
    ∧ identity peer' = identity peer
    ∧ last_heartbeat_at peer' = last_heartbeat_at peer
    ∧ last_latency_ms peer' = last_latency_ms peer
    ∧ consecutive_failures peer' = consecutive_failures peer
    ∧ joined_at peer' = joined_at peer
    ∧ (status peer' = status peer
       ∨ (nodeId ∈ PeerTable.suspected r ∧ status peer' = Suspected)
       ∨ (nodeId ∈ PeerTable.unreachable r ∧ status peer' = Unreachable)).
Proof.
  intros Hwf. destruct (sweep_spec now th tbl Hwf) as (Hg & Hs & Hu & _).
  cbv zeta. rewrite Hg, Hs, Hu. unfold PeerTable.get.
  destruct (JsMap.get nodeId (PeerTable.peers tbl)) as [peer|] eqn:Hget; [|done].
  pose proof (λ x, elem_of_moved_wf th now x nodeId peer _ Hwf Hget) as Hm.
  destruct (transition th now peer) eqn:Ht; simpl; try done;
    intros [= <-]; exists peer; simpl; (repeat (split; [done|])).
  - right; right. split; [by apply Hm | done].
  - right; left. split; [by apply Hm | done].
  - by left.
Qed.

Lemma sweep_changes_status_only_witness :
  JsMap.wf (PeerTable.peers one_peer_table)
  ∧ PeerTable.get "remote-1" (PeerTable.sweep 20000 default_thresholds one_peer_table).1
    = Some (set_status Suspected remote_1)
  ∧ ∃ peer, PeerTable.get "remote-1" one_peer_table = Some peer
            ∧ joined_at (set_status Suspected remote_1) = joined_at peer.
Proof.
  assert (JsMap.wf (PeerTable.peers one_peer_table)) as Hwf
    by (apply (bool_decide_unpack _); vm_compute; exact I).
  assert (PeerTable.get "remote-1" (PeerTable.sweep 20000 default_thresholds one_peer_table).1
          = Some (set_status Suspected remote_1)) as Hget by reflexivity.
  split; [exact Hwf|]. split; [exact Hget|].
  destruct (sweep_changes_status_only 20000 default_thresholds one_peer_table
              "remote-1" _ Hwf Hget) as (peer & H1 & _ & _ & _ & _ & H2 & _).
  exists peer. split; [exact H1 | exact H2].
Defined.

(** X3: sweeping twice at the same instant is sweeping once: the second
    sweep changes nothing and reports nothing. *)
Theorem sweep_idempotent now th tbl :
  JsMap.wf (PeerTable.peers tbl) →
  PeerTable.sweep now th (PeerTable.sweep now th tbl).1
  = ((PeerTable.sweep now th tbl).1,
     {| PeerTable.suspected := []; PeerTable.unreachable := [];
        PeerTable.evicted := [] |}).
Proof.
  intros Hwf.
  assert (JsMap.wf (PeerTable.peers (PeerTable.sweep now th tbl).1)) as Hwf'
    by by destruct (sweep_spec now th tbl Hwf) as (_ & _ & _ & _ & ? & _).
  rewrite (sweep_swept now th _ Hwf'). rewrite (sweep_swept now th tbl Hwf) at 1 2 3 4 5.
  cbn [fst PeerTable.peers PeerTable.with_peers].
  destruct (swept_all_Stay th now (swept th now (PeerTable.peers tbl))) as [H1 H2];
    [intros e; apply swept_settled|].
  rewrite H1, !H2 by done. by rewrite (sweep_swept now th tbl Hwf).
Qed.

Lemma sweep_idempotent_witness :
  JsMap.wf (PeerTable.peers one_peer_table)
  ∧ (PeerTable.sweep 35000 default_thresholds
       (PeerTable.sweep 35000 default_thresholds one_peer_table).1).2
    = {| PeerTable.suspected := []; PeerTable.unreachable := [];
         PeerTable.evicted := [] |}.
Proof.
  assert (JsMap.wf (PeerTable.peers one_peer_table)) as Hwf
    by (apply (bool_decide_unpack _); vm_compute; exact I).
  split; [exact Hwf|].
  exact (f_equal snd (sweep_idempotent 35000 default_thresholds one_peer_table Hwf)).
Defined.

(** ** The invariant of the table *)

Lemma elem_of_alter {V} (f : V → V) k k' v' (m : list (string * V)) :
  (k', v') ∈ JsMap.alter f k m →
  (k', v') ∈ m ∨ (k' = k ∧ ∃ v, (k, v) ∈ m ∧ v' = f v).
Proof.
  induction m as [|[k0 v0] m IH]; simpl; [auto|].
  destruct (decide (k = k0)) as [->|Hne]; rewrite !elem_of_cons.
  - intros [[= -> ->]|Hin]; [|auto]. right. split; [done|]. exists v0.
    split; [|done]. apply elem_of_cons. by left.
  - intros [[= -> ->]|Hin]; [auto|]. destruct (IH Hin) as [?|(-> & v & Hv & ->)]; [auto|].
    right. split; [done|]. exists v. split; [|done]. apply elem_of_cons. by right.
Qed.

Lemma elem_of_set {V} k (v : V) k' v' (m : list (string * V)) :
  (k', v') ∈ JsMap.set k v m → (k', v') = (k, v) ∨ (k', v') ∈ m.
Proof.
  induction m as [|[k0 v0] m IH]; simpl.
  - rewrite list_elem_of_singleton. auto.
  - destruct (decide (k = k0)) as [->|Hne]; rewrite !elem_of_cons.
    + intros [?|?]; auto.
    + intros [?|Hin]; [auto|]. destruct (IH Hin); auto.
Qed.

Lemma elem_of_delete {V} k k' v' (m : list (string * V)) :
  (k', v') ∈ JsMap.delete k m → (k', v') ∈ m.
Proof.
  induction m as [|[k0 v0] m IH]; simpl; [done|].
  destruct (decide (k = k0)); rewrite ?elem_of_cons; [auto|].
  intros [?|?]; auto.
Qed.

Lemma elem_of_swept th now k p' m :
  (k, p') ∈ swept th now m → ∃ p, (k, p) ∈ m ∧ identity p' = identity p.
Proof.
  induction m as [|[k0 p0] m IH]; [by intros H; apply elem_of_nil in H|].
  rewrite swept_cons.
  assert ((k, p') ∈ swept th now m → ∃ p, (k, p) ∈ (k0, p0) :: m ∧ identity p' = identity p)
    as Hrest.
  { intros H. destruct (IH H) as (p & Hp & Hi). exists p.
    split; [apply elem_of_cons; by right | done]. }
  destruct (transition th now p0); [done| | |]; rewrite elem_of_cons;
    (intros [[= -> ->]|H]; [|by apply Hrest]); exists p0;
    (split; [apply elem_of_cons; by left | done]).
Qed.

Lemma coherent_alter f k m :
  (∀ p, node_id (identity p) = k → node_id (identity (f p)) = k) →
  coherent m → coherent (JsMap.alter f k m).
Proof.
  intros Hf Hm k' p' Hin.
  apply elem_of_alter in Hin as [Hin|(-> & p & Hp & ->)]; [by apply Hm|].
  apply Hf. by apply Hm.
Qed.

Lemma call_ok c tbl : table_ok tbl → table_ok (call c tbl).
Proof.
  intros (Hwf & Hco & Hsize). destruct c as [now ident|k|now k lat|k|k|now th|]; simpl.
  - unfold PeerTable.add.
    destruct (JsMap.get (node_id ident) (PeerTable.peers tbl)) as [existing|] eqn:Hget.
    + split; [by apply wf_alter|]. split; [by apply coherent_alter|].
      unfold PeerTable.size, JsMap.size in *. simpl. by rewrite length_alter.
    + case_bool_decide as Hfull; [done|].
      split; [by apply wf_set|]. split.
      * intros k p Hin. apply elem_of_set in Hin as [[= -> ->]|Hin]; [done | by apply Hco].
      * unfold PeerTable.size, JsMap.size in *. simpl.
        rewrite length_set_absent by done. lia.
  - split; [by apply wf_delete|]. split.
    + intros k' p Hin. apply elem_of_delete in Hin. by apply Hco.
    + unfold PeerTable.size, JsMap.size in *. simpl.
      pose proof (length_delete_le k (PeerTable.peers tbl)). lia.
  - unfold PeerTable.recordHeartbeat.
    destruct (JsMap.get k (PeerTable.peers tbl)); [|done].
    split; [by apply wf_alter|]. split; [by apply coherent_alter|].
    unfold PeerTable.size, JsMap.size in *. simpl. by rewrite length_alter.
  - unfold PeerTable.recordFailure.
    destruct (JsMap.get k (PeerTable.peers tbl)); [|done].
    split; [by apply wf_alter|]. split; [by apply coherent_alter|].
    unfold PeerTable.size, JsMap.size in *. simpl. by rewrite length_alter.
  - unfold PeerTable.markLeft.
    destruct (JsMap.get k (PeerTable.peers tbl)); [|done].
    split; [by apply wf_alter|]. split; [by apply coherent_alter|].
    unfold PeerTable.size, JsMap.size in *. simpl. by rewrite length_alter.
  - destruct (sweep_spec now th tbl Hwf) as (_ & _ & _ & _ & Hwf' & _).
    split; [done|]. rewrite (sweep_swept now th tbl Hwf). simpl. split.
    + intros k p' Hin. apply elem_of_swept in Hin as (p & Hp & ->). by apply Hco.
    + unfold PeerTable.size, JsMap.size in *. simpl.
      pose proof (swept_length th now (PeerTable.peers tbl)). lia.
  - split; [apply NoDup_nil_2|]. split.
    + intros k p Hin. by apply elem_of_nil in Hin.
    + unfold PeerTable.size, JsMap.size in *. simpl. lia.
Qed.

(** X4: whatever methods are called on a table created with a
    non-negative capacity, its node ids stay pairwise distinct, every
    entry stays stored under the node id of its identity, and the number
    of entries stays within the capacity. *)
Theorem table_invariant maxPeers cs :
  0 <= maxPeers → table_ok (calls cs (PeerTable.new maxPeers)).
Proof.
  intros Hmax.
  assert (table_ok (PeerTable.new maxPeers)) as Hnew.
  { split; [apply NoDup_nil_2|]. split.
    - intros k p Hin. by apply elem_of_nil in Hin.
    - unfold PeerTable.size, JsMap.size. simpl. lia. }
  revert Hnew. generalize (PeerTable.new maxPeers).
  induction cs as [|c cs IH]; intros tbl Hok; [done|].
  simpl. apply IH. by apply call_ok.
Qed.

Lemma table_invariant_witness :
  0 <= 5
  ∧ PeerTable.size
      (calls [CallAdd 0 (makeIdentity "a" []); CallAdd 0 (makeIdentity "a" []);
              CallMarkLeft "a"; CallSweep 130000 default_thresholds]
         (PeerTable.new 5)) <= 5.
Proof.
  assert (0 <= 5) as H by lia. split; [exact H|].
  exact (proj2 (proj2 (table_invariant 5
    [CallAdd 0 (makeIdentity "a" []); CallAdd 0 (makeIdentity "a" []);
     CallMarkLeft "a"; CallSweep 130000 default_thresholds] H))).
Defined.

(** ** remove, recordHeartbeat, markLeft *)

(** X5: [remove] deletes exactly the named entry: afterwards the id is
    unknown, every other entry is as before, and the result tells whether
    the id was known; removing a known id lowers the size by one, removing
    an unknown id changes nothing. *)
Theorem remove_spec nodeId tbl :
  JsMap.wf (PeerTable.peers tbl) →
  let tbl' := (PeerTable.remove nodeId tbl).1 in
  let removed := (PeerTable.remove nodeId tbl).2 in
  PeerTable.get nodeId tbl' = None
  ∧ (∀ other, other ≠ nodeId → PeerTable.get other tbl' = PeerTable.get other tbl)
  ∧ match PeerTable.get nodeId tbl with
    | Some _ => removed = true ∧ PeerTable.size tbl' = PeerTable.size tbl - 1
    | None => removed = false ∧ tbl' = tbl
    end.
Proof.
  intros Hwf. unfold PeerTable.remove, PeerTable.get, PeerTable.size, JsMap.size, JsMap.has.
  simpl. split; [|split].
  - rewrite get_delete. by rewrite decide_True.
  - intros other Hne. rewrite get_delete. by rewrite decide_False.
  - destruct (JsMap.get nodeId (PeerTable.peers tbl)) as [p|] eqn:Hget.
    + split; [done|]. pose proof (length_delete_present _ _ _ Hwf Hget). lia.
    + split; [done|]. rewrite delete_absent by done. by destruct tbl.
Qed.

Lemma remove_spec_witness :
  JsMap.wf (PeerTable.peers one_peer_table)
  ∧ PeerTable.get "remote-1" (PeerTable.remove "remote-1" one_peer_table).1 = None.
Proof.
  assert (JsMap.wf (PeerTable.peers one_peer_table)) as Hwf
    by (apply (bool_decide_unpack _); vm_compute; exact I).
  split; [exact Hwf|]. exact (proj1 (remove_spec "remote-1" one_peer_table Hwf)).
Defined.

(** X6: adding an unknown peer to a table with room and removing it again
    gives back the table as it was. *)
Theorem add_remove_roundtrip now ident tbl :
  PeerTable.get (node_id ident) tbl = None →
  PeerTable.size tbl < PeerTable.maxPeers tbl →
  PeerTable.remove (node_id ident) (PeerTable.add now ident tbl).1 = (tbl, true).
Proof.
  unfold PeerTable.get, PeerTable.add, PeerTable.remove. intros Hget Hroom.
  rewrite Hget. rewrite bool_decide_eq_false_2 by lia. simpl.
  unfold JsMap.has. rewrite get_set, decide_True by done.
  rewrite set_absent by done. rewrite delete_app, delete_absent by done.
  simpl. rewrite decide_True by done. rewrite app_nil_r. by destruct tbl.
Qed.

Lemma add_remove_roundtrip_witness :
  PeerTable.get (node_id (makeIdentity "b" [])) one_peer_table = None
  ∧ PeerTable.size one_peer_table < PeerTable.maxPeers one_peer_table
  ∧ PeerTable.remove "b" (PeerTable.add 7 (makeIdentity "b" []) one_peer_table).1
    = (one_peer_table, true).
Proof.
  assert (PeerTable.get (node_id (makeIdentity "b" [])) one_peer_table = None) as H1
    by reflexivity.
  assert (PeerTable.size one_peer_table < PeerTable.maxPeers one_peer_table) as H2
    by (vm_compute; reflexivity).
  split; [exact H1|]. split; [exact H2|].
  exact (add_remove_roundtrip 7 (makeIdentity "b" []) one_peer_table H1 H2).
Defined.

(** X7: [recordHeartbeat] on a known peer makes it active whatever its
    status was (also when it had left), stamps the heartbeat, stores the
    latency and clears the failure count; identity, join time, the other
    entries and the key order are unchanged.  On an unknown peer it
    returns false and changes nothing. *)
Theorem recordHeartbeat_revives now nodeId latencyMs tbl :
  let tbl' := (PeerTable.recordHeartbeat now nodeId latencyMs tbl).1 in
  let known := (PeerTable.recordHeartbeat now nodeId latencyMs tbl).2 in
  (∀ other, other ≠ nodeId → PeerTable.get other tbl' = PeerTable.get other tbl)
  ∧ JsMap.keys (PeerTable.peers tbl') = JsMap.keys (PeerTable.peers tbl)
  ∧ match PeerTable.get nodeId tbl with
    | Some peer =>
        known = true
        ∧ PeerTable.get nodeId tbl'
          = Some {| identity := identity peer; status := Active;
                    last_heartbeat_at := now; last_latency_ms := latencyMs;
                    consecutive_failures := 0; joined_at := joined_at peer |}
    | None => known = false ∧ tbl' = tbl
    end.
Proof.
  unfold PeerTable.recordHeartbeat, PeerTable.get.
  destruct (JsMap.get nodeId (PeerTable.peers tbl)) as [peer|] eqn:Hget; simpl;
    [|done].
  split; [|split; [apply keys_alter|]].
  - intros other Hne. rewrite get_alter. by rewrite decide_False.
  - split; [done|]. by rewrite get_alter, decide_True, Hget.
Qed.

(** X8: a peer whose heartbeat was just recorded is safe from a sweep
    that comes before any threshold has elapsed: it stays active and is
    reported in no list. *)
Theorem heartbeat_shields now later nodeId latencyMs th tbl peer :
  JsMap.wf (PeerTable.peers tbl) →
  PeerTable.get nodeId tbl = Some peer →
  later - now < suspected_after_ms th →
  later - now < unreachable_after_ms th →
  later - now < evict_after_ms th →
  let tbl1 := (PeerTable.recordHeartbeat now nodeId latencyMs tbl).1 in
  let tbl2 := (PeerTable.sweep later th tbl1).1 in
  let r := (PeerTable.sweep later th tbl1).2 in
  PeerTable.get nodeId tbl2 = PeerTable.get nodeId tbl1
  ∧ (∃ p, PeerTable.get nodeId tbl2 = Some p ∧ status p = Active)
  ∧ nodeId ∉ PeerTable.suspected r ++ PeerTable.unreachable r ++ PeerTable.evicted r.
Proof.
  intros Hwf Hget H1 H2 H3. cbv zeta.
  set (tbl1 := (PeerTable.recordHeartbeat now nodeId latencyMs tbl).1).
  assert (JsMap.wf (PeerTable.peers tbl1)) as Hwf1.
  { unfold tbl1, PeerTable.recordHeartbeat. unfold PeerTable.get in Hget.
    rewrite Hget. by apply wf_alter. }
  assert (PeerTable.get nodeId tbl1
          = Some {| identity := identity peer; status := Active; last_heartbeat_at := now;
                    last_latency_ms := latencyMs; consecutive_failures := 0;
                    joined_at := joined_at peer |}) as Hnew.
  { unfold tbl1, PeerTable.recordHeartbeat, PeerTable.get in *.
    rewrite Hget. simpl. by rewrite get_alter, decide_True, Hget. }
  destruct (sweep_spec later th tbl1 Hwf1) as (Hg & Hs & Hu & He & _).
  rewrite Hg, Hs, Hu, He, Hnew.
  assert (transition th later
            {| identity := identity peer; status := Active; last_heartbeat_at := now;
               last_latency_ms := latencyMs; consecutive_failures := 0;
               joined_at := joined_at peer |} = Stay) as Ht.
  { unfold transition. simpl.
    repeat (case_bool_decide; simpl; try done); lia. }
  rewrite Ht. simpl. split; [done|]. split; [by eexists|].
  unfold PeerTable.get in Hnew.
  rewrite !elem_of_app, !(elem_of_moved_wf th later _ nodeId _ _ Hwf1 Hnew), Ht.
  intros [?|[?|?]]; done.
Qed.

Lemma heartbeat_shields_witness :
  JsMap.wf (PeerTable.peers one_peer_table)
  ∧ PeerTable.get "remote-1" one_peer_table = Some remote_1
  ∧ 110000 - 100000 < suspected_after_ms default_thresholds
  ∧ 110000 - 100000 < unreachable_after_ms default_thresholds
  ∧ 110000 - 100000 < evict_after_ms default_thresholds
  ∧ ∃ p, PeerTable.get "remote-1"
           (PeerTable.sweep 110000 default_thresholds
              (PeerTable.recordHeartbeat 100000 "remote-1" 25 one_peer_table).1).1
         = Some p ∧ status p = Active.
Proof.
  assert (JsMap.wf (PeerTable.peers one_peer_table)) as Hwf
    by (apply (bool_decide_unpack _); vm_compute; exact I).
  assert (PeerTable.get "remote-1" one_peer_table = Some remote_1) as Hget by reflexivity.
  assert (110000 - 100000 < suspected_after_ms default_thresholds) as H1
    by (vm_compute; reflexivity).
  assert (110000 - 100000 < unreachable_after_ms default_thresholds) as H2
    by (vm_compute; reflexivity).
  assert (110000 - 100000 < evict_after_ms default_thresholds) as H3
    by (vm_compute; reflexivity).
  split; [exact Hwf|]. split; [exact Hget|]. split; [exact H1|]. split; [exact H2|].
  split; [exact H3|].
  exact (proj1 (proj2 (heartbeat_shields 100000 110000 "remote-1" 25 default_thresholds
                         one_peer_table remote_1 Hwf Hget H1 H2 H3))).
Defined.

(** X9: a peer marked as left keeps its slot: [markLeft] only sets the
    status, no later sweep evicts or changes the entry however old its
    heartbeat, and when the peer joins again [add] makes the same entry
    active in place, with a fresh heartbeat and the original join time. *)
Theorem leave_sweep_rejoin nodeId tbl peer th nows now ident :
  JsMap.wf (PeerTable.peers tbl) →
  PeerTable.get nodeId tbl = Some peer →
  node_id ident = nodeId →
  let gone := (PeerTable.markLeft nodeId tbl).1 in
  let later := sweeps th nows gone in
  let back := (PeerTable.add now ident later).1 in
  (PeerTable.markLeft nodeId tbl).2 = true
  ∧ PeerTable.get nodeId gone = Some (set_status Left peer)
  ∧ PeerTable.get nodeId later = Some (set_status Left peer)
  ∧ PeerTable.get nodeId back
    = Some {| identity := ident; status := Active; last_heartbeat_at := now;
              last_latency_ms := last_latency_ms peer; consecutive_failures := 0;
              joined_at := joined_at peer |}
  ∧ PeerTable.size back = PeerTable.size later.
Proof.
  intros Hwf Hget Hid. cbv zeta.
  set (gone := (PeerTable.markLeft nodeId tbl).1).
  assert ((PeerTable.markLeft nodeId tbl).2 = true) as Hret.
  { unfold PeerTable.markLeft. unfold PeerTable.get in Hget. by rewrite Hget. }
  assert (JsMap.wf (PeerTable.peers gone)) as Hwf1.
  { unfold gone, PeerTable.markLeft. unfold PeerTable.get in Hget.
    rewrite Hget. by apply wf_alter. }
  assert (PeerTable.get nodeId gone = Some (set_status Left peer)) as Hgone.
  { unfold gone, PeerTable.markLeft, PeerTable.get in *.
    rewrite Hget. simpl. by rewrite get_alter, decide_True, Hget. }
  destruct (sweeps_forward th nows gone nodeId Hwf1) as [Hleft _].
  rewrite Hgone in Hleft. specialize (Hleft eq_refl).
  split; [done|]. split; [done|]. split; [done|].
  unfold PeerTable.add, PeerTable.size, JsMap.size. rewrite Hid.
  unfold PeerTable.get in Hleft. rewrite Hleft. simpl.
  rewrite length_alter. split; [|done].
  unfold PeerTable.get. simpl. by rewrite get_alter, decide_True, Hleft.
Qed.

Lemma leave_sweep_rejoin_witness :
  JsMap.wf (PeerTable.peers one_peer_table)
  ∧ PeerTable.get "remote-1" one_peer_table = Some remote_1
  ∧ node_id (makeIdentity "remote-1" ["shell-exec"]) = "remote-1"
  ∧ PeerTable.get "remote-1"
      (sweeps default_thresholds [130000; 900000]
         (PeerTable.markLeft "remote-1" one_peer_table).1)
    = Some (set_status Left remote_1).
Proof.
  assert (JsMap.wf (PeerTable.peers one_peer_table)) as Hwf
    by (apply (bool_decide_unpack _); vm_compute; exact I).
  assert (PeerTable.get "remote-1" one_peer_table = Some remote_1) as Hget by reflexivity.
  assert (node_id (makeIdentity "remote-1" ["shell-exec"]) = "remote-1") as Hid
    by reflexivity.
  split; [exact Hwf|]. split; [exact Hget|]. split; [exact Hid|].
  exact (proj1 (proj2 (proj2
    (leave_sweep_rejoin "remote-1" one_peer_table remote_1 default_thresholds
       [130000; 900000] 950000 (makeIdentity "remote-1" ["shell-exec"])
       Hwf Hget Hid)))).
Defined.

(** ** The queries *)

Lemma filter_status_lengths (l : list PeerEntry) :
  (length (List.filter (λ p, bool_decide (status p = Active)) l)
   + length (List.filter (λ p, bool_decide (status p = Suspected)) l)
   + length (List.filter (λ p, bool_decide (status p = Unreachable)) l)
   + length (List.filter (λ p, bool_decide (status p = Left)) l))%nat
  = length l.
Proof.
  induction l as [|p l IH]; [done|].
  simpl. destruct (status p); simpl; lia.
Qed.

(** X10: the queries agree with the table: [getActive] holds exactly the
    entries whose status is active, in table order; [getByStatus] splits
    the table into four parts whose sizes add up to [size];
    [getByCapability] holds exactly the active entries that list the
    capability, so a suspected, unreachable or departed peer is never
    offered for a capability. *)
Theorem queries_agree tbl :
  (∀ p, p ∈ PeerTable.getActive tbl ↔ p ∈ PeerTable.getAll tbl ∧ status p = Active)
  ∧ PeerTable.getActive tbl `sublist_of` PeerTable.getAll tbl
  ∧ PeerTable.getByStatus Active tbl = PeerTable.getActive tbl
  ∧ (∀ s p, p ∈ PeerTable.getByStatus s tbl ↔ p ∈ PeerTable.getAll tbl ∧ status p = s)
  ∧ Z.of_nat (length (PeerTable.getByStatus Active tbl)
              + length (PeerTable.getByStatus Suspected tbl)
              + length (PeerTable.getByStatus Unreachable tbl)
              + length (PeerTable.getByStatus Left tbl))
    = PeerTable.size tbl
  ∧ (∀ capability p,
       p ∈ PeerTable.getByCapability capability tbl
       ↔ p ∈ PeerTable.getAll tbl ∧ status p = Active
         ∧ capability ∈ capabilities (identity p)).
Proof.
  unfold PeerTable.getActive, PeerTable.getByStatus, PeerTable.getByCapability,
    PeerTable.getAll, PeerTable.size, JsMap.size.
  assert (∀ (f : PeerEntry → bool) l p,
            p ∈ List.filter f l ↔ p ∈ l ∧ f p = true) as Hfilter.
  { intros f l p. by rewrite !list_elem_of_In, filter_In. }
  split; [|split; [|split; [|split; [|split]]]].
  - intros p. rewrite Hfilter. by rewrite bool_decide_eq_true.
  - induction (JsMap.values (PeerTable.peers tbl)) as [|p l IH]; [done|].
    cbn [List.filter]. destruct (bool_decide _); [by apply sublist_skip | by apply sublist_cons].
  - done.
  - intros s p. rewrite Hfilter. by rewrite bool_decide_eq_true.
  - rewrite filter_status_lengths. unfold JsMap.values. by rewrite length_fmap.
  - intros capability p. unfold PeerTable.getActive.
    rewrite !Hfilter, !bool_decide_eq_true. tauto.
Qed.

(** ** Failure counting *)

Lemma recordFailures_lookup n : ∀ nodeId tbl peer,
  PeerTable.get nodeId tbl = Some peer →
  PeerTable.get nodeId (recordFailures n nodeId tbl)
  = Some (set_consecutive_failures (consecutive_failures peer + Z.of_nat n) peer).
Proof.
  induction n as [|n IH]; intros nodeId tbl peer Hget.
  - simpl. rewrite Hget. f_equal. destruct peer. unfold set_consecutive_failures.
    simpl. f_equal. lia.
  - cbn [recordFailures].
    rewrite (IH _ _ (set_consecutive_failures (consecutive_failures peer + 1) peer)).
    + f_equal. unfold set_consecutive_failures. simpl. f_equal. lia.
    + unfold PeerTable.recordFailure, PeerTable.get in *. rewrite Hget. simpl.
      by rewrite get_alter, decide_True, Hget.
Qed.

(** X11: failures are counted exactly: the call after [n] earlier
    [recordFailure] calls returns the count before them plus [n + 1], and
    after a heartbeat the count starts again, so that call returns
    [n + 1]. *)
Theorem failures_accumulate n now nodeId latencyMs tbl peer :
  PeerTable.get nodeId tbl = Some peer →
  (PeerTable.recordFailure nodeId (recordFailures n nodeId tbl)).2
  = consecutive_failures peer + Z.of_nat n + 1
  ∧ (PeerTable.recordFailure nodeId
       (recordFailures n nodeId
          (PeerTable.recordHeartbeat now nodeId latencyMs tbl).1)).2
    = Z.of_nat n + 1.
Proof.
  intros Hget. split.
  - pose proof (recordFailures_lookup n nodeId tbl peer Hget) as H.
    unfold PeerTable.recordFailure, PeerTable.get in *. by rewrite H.
  - assert (PeerTable.get nodeId (PeerTable.recordHeartbeat now nodeId latencyMs tbl).1
            = Some (set_consecutive_failures 0
                      (set_last_latency_ms latencyMs
                         (set_last_heartbeat_at now (set_status Active peer))))) as Hhb.
    { unfold PeerTable.recordHeartbeat, PeerTable.get in *. rewrite Hget. simpl.
      by rewrite get_alter, decide_True, Hget. }
    pose proof (recordFailures_lookup n nodeId _ _ Hhb) as H.
    unfold PeerTable.recordFailure, PeerTable.get in *. by rewrite H.
Qed.

Lemma failures_accumulate_witness :
  PeerTable.get "remote-1" one_peer_table = Some remote_1
  ∧ (PeerTable.recordFailure "remote-1" (recordFailures 2 "remote-1" one_peer_table)).2 = 3.
Proof.
  assert (PeerTable.get "remote-1" one_peer_table = Some remote_1) as Hget by reflexivity.
  split; [exact Hget|].
  exact (proj1 (failures_accumulate 2 0 "remote-1" 0 one_peer_table remote_1 Hget)).
Defined.

End PeerTableMore.

(** * More of the work distributor *)

Module WorkDistributorMore.
Import JsMapFacts WorkDistributorFacts PeerTableMore.

(** ** One delegation ends once *)

(** X12: when the expiry timer of an active delegation fires, its promise
    is rejected with the timeout error, its entry alone leaves the map,
    and a result that arrives afterwards for that task is ignored:
    [resolveTask] returns false and changes nothing. *)
Theorem timeout_then_late_result env d task dl result :
  reachable env d →
  WorkDistributor.findDelegationByTaskId task d = Some dl →
  SwarmTaskResult.task_id result = task →
  let d' := WorkDistributor.handle (TimerFired (ActiveDelegation.timer dl)) d in
  (∃ tm,
     timers (WorkDistributor.runtime d) !! ActiveDelegation.timer dl = Some tm
     ∧ timers (WorkDistributor.runtime d') !! ActiveDelegation.timer dl
       = Some (set_timer_state Fired tm)
     ∧ promises (WorkDistributor.runtime d') !! ActiveDelegation.promise dl
       = Some (Rejected ("Delegation to " +:+ timer_peer tm +:+ " timed out after "
                           +:+ pretty (WorkDistributor.delegationTimeoutMs d) +:+ "ms")))
  ∧ WorkDistributor.findDelegationByTaskId task d' = None
  ∧ (∀ other, other ≠ task →
       WorkDistributor.findDelegationByTaskId other d'
       = WorkDistributor.findDelegationByTaskId other d)
  ∧ WorkDistributor.activeCount d' = WorkDistributor.activeCount d - 1
  ∧ WorkDistributor.resolveTask result d' = (d', false).
Proof.
  intros Hr Hdl Hid. pose proof (reachable_consistent env d Hr) as Hc.
  unfold WorkDistributor.findDelegationByTaskId in *.
  destruct (consistent_timer d Hc _ _ Hdl) as (tm & Htm & Harmed & Htask & Hprom).
  pose proof (consistent_pending d Hc _ _ Hdl) as Hpend.
  cbv zeta. cbn [WorkDistributor.handle]. unfold WorkDistributor.fireTimer.
  rewrite Htm, Harmed. cbn [WorkDistributor.runtime WorkDistributor.with_runtime
    WorkDistributor.with_activeDelegations WorkDistributor.activeDelegations
    WorkDistributor.delegationTimeoutMs reject promises timers].
  rewrite Htask, Hprom.
  assert (JsMap.get task (JsMap.delete task (WorkDistributor.activeDelegations d)) = None)
    as Hgone by (rewrite get_delete; by rewrite decide_True).
  split; [|split; [done|split; [|split]]].
  - exists tm. split; [done|]. split.
    + apply list_lookup_insert_eq. by apply lookup_lt_Some in Htm.
    + by rewrite lookup_settle, decide_True, Hpend.
  - intros other Hne. rewrite get_delete. by rewrite decide_False.
  - unfold WorkDistributor.activeCount, JsMap.size. simpl.
    pose proof (length_delete_present _ _ _ (consistent_wf d Hc) Hdl). lia.
  - apply resolveTask_None. unfold WorkDistributor.findDelegationByTaskId. simpl.
    by rewrite Hid.
Qed.

Lemma timeout_then_late_result_witness :
  reachable silent_env delegation_a
  ∧ (∃ dl, WorkDistributor.findDelegationByTaskId "task-a" delegation_a = Some dl
           ∧ ActiveDelegation.timer dl = 0%nat)
  ∧ SwarmTaskResult.task_id result_a = "task-a"
  ∧ WorkDistributor.resolveTask result_a
      (WorkDistributor.handle (TimerFired 0) delegation_a)
    = (WorkDistributor.handle (TimerFired 0) delegation_a, false).
Proof.
  assert (reachable silent_env delegation_a) as Hr
    by (apply reachable_register; [apply reachable_new | reflexivity]).
  assert (SwarmTaskResult.task_id result_a = "task-a") as Hid by reflexivity.
  split; [exact Hr|]. split; [eexists; split; reflexivity|]. split; [exact Hid|].
  exact (proj2 (proj2 (proj2 (proj2
    (timeout_then_late_result silent_env delegation_a "task-a" _ result_a
       Hr eq_refl Hid))))).
Defined.

(** X13: when the result of an active delegation arrives first, the map
    shrinks by that one entry and the delegation's timer can no longer do
    anything: firing it leaves the distributor exactly as it is. *)
Theorem result_then_late_timer env d dl result :
  reachable env d →
  WorkDistributor.findDelegationByTaskId (SwarmTaskResult.task_id result) d = Some dl →
  let d' := (WorkDistributor.resolveTask result d).1 in
  WorkDistributor.handle (TimerFired (ActiveDelegation.timer dl)) d' = d'
  ∧ WorkDistributor.activeCount d' = WorkDistributor.activeCount d - 1
  ∧ (∀ other, other ≠ SwarmTaskResult.task_id result →
       WorkDistributor.findDelegationByTaskId other d'
       = WorkDistributor.findDelegationByTaskId other d).
Proof.
  intros Hr Hdl. pose proof (reachable_consistent env d Hr) as Hc.
  cbv zeta. rewrite (resolveTask_Some _ _ _ Hdl). cbn [fst].
  unfold WorkDistributor.findDelegationByTaskId in *.
  destruct (consistent_timer d Hc _ _ Hdl) as (tm & Htm & Harmed & _ & _).
  pose proof (consistent_key d Hc _ _ Hdl) as Hk.
  split; [|split].
  - cbn [WorkDistributor.handle]. unfold WorkDistributor.fireTimer. simpl.
    rewrite list_lookup_alter_eq, Htm. simpl. unfold disarm. by rewrite Harmed.
  - unfold WorkDistributor.activeCount, JsMap.size. simpl. rewrite Hk.
    pose proof (length_delete_present _ _ _ (consistent_wf d Hc) Hdl). lia.
  - intros other Hne. simpl. rewrite Hk, get_delete. by rewrite decide_False.
Qed.

Lemma result_then_late_timer_witness :
  reachable silent_env delegation_a
  ∧ (∃ dl, WorkDistributor.findDelegationByTaskId (SwarmTaskResult.task_id result_a)
             delegation_a = Some dl ∧ ActiveDelegation.timer dl = 0%nat)
  ∧ WorkDistributor.handle (TimerFired 0) (WorkDistributor.resolveTask result_a delegation_a).1
    = (WorkDistributor.resolveTask result_a delegation_a).1.
Proof.
  assert (reachable silent_env delegation_a) as Hr
    by (apply reachable_register; [apply reachable_new | reflexivity]).
  split; [exact Hr|]. split; [eexists; split; reflexivity|].
  exact (proj1 (result_then_late_timer silent_env delegation_a _ result_a Hr eq_refl)).
Defined.

(** X14: registering a delegation under a task id that is not active and
    then resolving it gives back the map as it was: the count goes up by
    one and down again, the call returns true and the new promise is
    fulfilled with the result. *)
Theorem register_resolve_roundtrip env now peer task result d :
  JsMap.get task (WorkDistributor.activeDelegations d) = None →
  SwarmTaskResult.task_id result = task →
  let d1 := (WorkDistributor.register env now peer task d).1 in
  let p := (WorkDistributor.register env now peer task d).2 in
  let d2 := (WorkDistributor.resolveTask result d1).1 in
  WorkDistributor.activeCount d1 = WorkDistributor.activeCount d + 1
  ∧ promises (WorkDistributor.runtime d1) !! p = Some Pending
  ∧ (WorkDistributor.resolveTask result d1).2 = true
  ∧ WorkDistributor.activeDelegations d2 = WorkDistributor.activeDelegations d
  ∧ promises (WorkDistributor.runtime d2) !! p = Some (Fulfilled result).
Proof.
  intros Hfresh Hid. cbv zeta. unfold WorkDistributor.register. simpl.
  unfold WorkDistributor.resolveTask, WorkDistributor.findDelegationByTaskId. simpl.
  rewrite Hid, get_set, decide_True by done. simpl.
  split; [|split; [|split; [done|split]]].
  - unfold WorkDistributor.activeCount, JsMap.size. simpl.
    rewrite length_set_absent by done. lia.
  - by apply list_lookup_middle.
  - rewrite set_absent by done. rewrite delete_app, delete_absent by done.
    simpl. rewrite decide_True by done. by rewrite app_nil_r.
  - rewrite lookup_settle, decide_True by done. by rewrite list_lookup_middle.
Qed.

Lemma register_resolve_roundtrip_witness :
  JsMap.get "task-a" (WorkDistributor.activeDelegations (WorkDistributor.new round_robin 50 0))
  = None
  ∧ SwarmTaskResult.task_id result_a = "task-a"
  ∧ WorkDistributor.activeDelegations (WorkDistributor.resolveTask result_a delegation_a).1
    = [].
Proof.
  assert (JsMap.get "task-a"
            (WorkDistributor.activeDelegations (WorkDistributor.new round_robin 50 0))
          = None) as H1 by reflexivity.
  assert (SwarmTaskResult.task_id result_a = "task-a") as H2 by reflexivity.
  split; [exact H1|]. split; [exact H2|].
  exact (proj1 (proj2 (proj2 (proj2
    (register_resolve_roundtrip silent_env 1000 peer_a "task-a" result_a
       (WorkDistributor.new round_robin 50 0) H1 H2))))).
Defined.

(** X15: after [cancelAll] the distributor is quiet: every result that
    arrives is ignored, no timer that fires does anything, and a second
    [cancelAll] changes nothing. *)
Theorem quiet_after_cancelAll env d :
  reachable env d →
  let d' := WorkDistributor.cancelAll d in
  (∀ result, WorkDistributor.resolveTask result d' = (d', false))
  ∧ (∀ tid, WorkDistributor.handle (TimerFired tid) d' = d')
  ∧ WorkDistributor.cancelAll d' = d'.
Proof.
  intros Hr. pose proof (reachable_consistent env d Hr) as Hc.
  pose proof (consistent_cancelAll d Hc) as Hc'. cbv zeta.
  split; [|split].
  - intros result. by apply resolveTask_None.
  - intros tid. cbn [WorkDistributor.handle]. unfold WorkDistributor.fireTimer.
    destruct (timers (WorkDistributor.runtime (WorkDistributor.cancelAll d)) !! tid)
      as [tm|] eqn:Htm; [|done].
    destruct (timer_state tm) eqn:Harmed; try done.
    destruct (consistent_armed _ Hc' _ _ Htm Harmed) as (dl & Hdl & _). done.
  - unfold WorkDistributor.cancelAll. simpl. done.
Qed.

Lemma quiet_after_cancelAll_witness :
  reachable silent_env delegation_a
  ∧ WorkDistributor.resolveTask result_a (WorkDistributor.cancelAll delegation_a)
    = (WorkDistributor.cancelAll delegation_a, false).
Proof.
  assert (reachable silent_env delegation_a) as Hr
    by (apply reachable_register; [apply reachable_new | reflexivity]).
  split; [exact Hr|].
  exact (proj1 (quiet_after_cancelAll silent_env delegation_a Hr) result_a).
Defined.

(** ** What selection may return *)

Lemma filter_submseteq {A} (f : A → bool) (l : list A) : List.filter f l ⊆+ l.
Proof.
  induction l as [|x l IH]; [done|].
  cbn [List.filter]. destruct (f x); [by apply submseteq_skip | by apply submseteq_cons].
Qed.

Lemma selectPeers_delegations env c d :
  WorkDistributor.activeDelegations (WorkDistributor.selectPeers env c d).1
  = WorkDistributor.activeDelegations d.
Proof. unfold WorkDistributor.selectPeers. by destruct (_ && _). Qed.

Lemma selectPeers_submseteq env c d :
  (WorkDistributor.selectPeers env c d).2 ⊆+ getActivePeers env.
Proof.
  unfold WorkDistributor.selectPeers.
  set (candidates := match WorkDistributor.strategy d with
                     | round_robin => _ | capability_match => _ end).
  assert (candidates ⊆+ getActivePeers env) as Hsub.
  { unfold candidates. destruct (WorkDistributor.strategy d); [done|].
    destruct (WorkDistributor.allowlist_given c); [apply filter_submseteq | done]. }
  destruct (_ && _); simpl; [|done].
  rewrite rotation_rotate. by rewrite rotate_Permutation.
Qed.

(** X16: [selectPeers] only ever picks among the active peers and picks no
    peer more often than it is listed there; it leaves the delegations,
    the promises and timers and the configuration alone, and under
    [capability_match] it leaves the whole distributor unchanged. *)
Theorem selectPeers_picks_active env c d :
  let d' := (WorkDistributor.selectPeers env c d).1 in
  let picked := (WorkDistributor.selectPeers env c d).2 in
  picked ⊆+ getActivePeers env
  ∧ (∀ peer, peer ∈ picked → peer ∈ getActivePeers env)
  ∧ WorkDistributor.activeDelegations d' = WorkDistributor.activeDelegations d
  ∧ WorkDistributor.runtime d' = WorkDistributor.runtime d
  ∧ WorkDistributor.strategy d' = WorkDistributor.strategy d
  ∧ WorkDistributor.maxRetries d' = WorkDistributor.maxRetries d
  ∧ WorkDistributor.delegationTimeoutMs d' = WorkDistributor.delegationTimeoutMs d
  ∧ (WorkDistributor.strategy d = capability_match → d' = d).
Proof.
  cbv zeta. pose proof (selectPeers_submseteq env c d) as Hsub.
  split; [done|]. split.
  { intros peer Hin. by eapply elem_of_submseteq. }
  split; [apply selectPeers_delegations|].
  split; [apply selectPeers_runtime|].
  split; [unfold WorkDistributor.selectPeers; by destruct (_ && _)|].
  split; [apply selectPeers_runtime|].
  split; [unfold WorkDistributor.selectPeers; by destruct (_ && _)|].
  intros Hcm. unfold WorkDistributor.selectPeers. by rewrite Hcm.
Qed.

(** X17: when selection finds no candidate, [distribute] throws
    "No suitable peers available for task distribution" and leaves the
    distributor exactly as it was: no peer is asked and the round-robin
    index does not move. *)
Theorem no_candidate_no_effect env now c d :
  (WorkDistributor.selectPeers env c d).2 = [] →
  WorkDistributor.distribute env now c d
  = (d, Thrown "No suitable peers available for task distribution").
Proof.
  unfold WorkDistributor.distribute, WorkDistributor.selectPeers.
  set (candidates := match WorkDistributor.strategy d with
                     | round_robin => _ | capability_match => _ end).
  destruct (bool_decide (WorkDistributor.strategy d = round_robin)
            && bool_decide (0 < length candidates)%nat) eqn:Hrot; simpl.
  - intros Hnil. exfalso. apply andb_true_iff in Hrot as [_ Hlen].
    apply bool_decide_eq_true_1 in Hlen.
    apply (f_equal length) in Hnil. rewrite rotation_rotate, length_rotate in Hnil.
    simpl in Hnil. lia.
  - by intros ->.
Qed.

Lemma no_candidate_no_effect_witness :
  let c := {| tool_allowlist := Some ["browser"]; max_tokens := None;
              max_cost_usd := None; max_duration_ms := None |} in
  let d := WorkDistributor.new capability_match 300000 2 in
  (WorkDistributor.selectPeers refusing_env (Some c) d).2 = []
  ∧ WorkDistributor.distribute refusing_env 0 (Some c) d
    = (d, Thrown "No suitable peers available for task distribution").
Proof.
  intros c d.
  assert ((WorkDistributor.selectPeers refusing_env (Some c) d).2 = []) as H
    by reflexivity.
  split; [exact H|]. exact (no_candidate_no_effect refusing_env 0 (Some c) d H).
Defined.

(** ** What a distribution leaves behind, and what it returns *)

(** Events only take delegations out of the map. *)
Lemma handle_get ev d k dl :
  JsMap.get k (WorkDistributor.activeDelegations (WorkDistributor.handle ev d)) = Some dl →
  JsMap.get k (WorkDistributor.activeDelegations d) = Some dl.
Proof.
  destruct ev as [result|tid|]; simpl.
  - unfold WorkDistributor.resolveTask.
    destruct (WorkDistributor.findDelegationByTaskId _ d); [|done]. simpl.
    rewrite get_delete. by destruct (decide _).
  - unfold WorkDistributor.fireTimer.
    destruct (timers (WorkDistributor.runtime d) !! tid) as [tm|]; [|done].
    destruct (timer_state tm); try done. simpl.
    rewrite get_delete. by destruct (decide _).
  - done.
Qed.

(** One event either leaves an active delegation in place or settles its
    promise; a fulfilment carries a result for that very task. *)
Lemma handle_outcome env ev d task dl :
  reachable env d →
  JsMap.get task (WorkDistributor.activeDelegations d) = Some dl →
  let d1 := WorkDistributor.handle ev d in
  JsMap.get task (WorkDistributor.activeDelegations d1) = Some dl
  ∨ (∃ result,
       promises (WorkDistributor.runtime d1) !! ActiveDelegation.promise dl
       = Some (Fulfilled result)
       ∧ SwarmTaskResult.task_id result = task)
  ∨ (∃ message,
       promises (WorkDistributor.runtime d1) !! ActiveDelegation.promise dl
       = Some (Rejected message)).
Proof.
  intros Hr Hdl. pose proof (reachable_consistent env d Hr) as Hc.
  pose proof (consistent_pending d Hc _ _ Hdl) as Hpend.
  cbv zeta. destruct ev as [result|tid|]; simpl.
  - unfold WorkDistributor.resolveTask, WorkDistributor.findDelegationByTaskId.
    destruct (JsMap.get (SwarmTaskResult.task_id result) _) as [dl0|] eqn:Hdl0;
      [|by left].
    pose proof (consistent_key d Hc _ _ Hdl0) as Hk0. simpl. rewrite Hk0.
    destruct (decide (SwarmTaskResult.task_id result = task)) as [Heq|Hne].
    + right; left. exists result. split; [|done].
      rewrite Heq in Hdl0. assert (dl0 = dl) as -> by congruence.
      by rewrite lookup_settle, decide_True, Hpend.
    + left. rewrite get_delete. by rewrite decide_False.
  - unfold WorkDistributor.fireTimer.
    destruct (timers (WorkDistributor.runtime d) !! tid) as [tm|] eqn:Htm; [|by left].
    destruct (timer_state tm) eqn:Harmed; try by left.
    simpl. destruct (decide (timer_task_id tm = task)) as [Heq|Hne].
    + right; right. eexists.
      destruct (consistent_armed d Hc _ _ Htm Harmed) as (dl' & Hdl' & <-).
      rewrite Heq in Hdl'. assert (dl' = dl) as -> by congruence.
      destruct (consistent_timer d Hc _ _ Hdl) as (tm' & Htm' & _ & _ & Hp).
      assert (tm' = tm) as -> by congruence.
      rewrite Hp. by rewrite lookup_settle, decide_True, Hpend.
    + left. rewrite get_delete. by rewrite decide_False.
  - right; right. eexists. rewrite cancel_fold_promises, Hpend.
    rewrite decide_True; [done|].
    apply list_elem_of_fmap. exists (task, dl). split; [done | by apply get_Some_elem].
Qed.

Lemma await_contained env task p : ∀ events d d' c,
  reachable env d →
  (∀ dl, JsMap.get task (WorkDistributor.activeDelegations d) = Some dl →
         ActiveDelegation.promise dl = p) →
  WorkDistributor.await p events d = (d', c) →
  reachable env d'
  ∧ (∀ k dl, JsMap.get k (WorkDistributor.activeDelegations d') = Some dl →
             JsMap.get k (WorkDistributor.activeDelegations d) = Some dl)
  ∧ (c ≠ Blocked → JsMap.get task (WorkDistributor.activeDelegations d') = None)
  ∧ (∀ result, c = Returned result →
       is_Some (JsMap.get task (WorkDistributor.activeDelegations d)) →
       SwarmTaskResult.task_id result = task).
Proof.
  induction events as [|ev events IH]; intros d d' c Hr Hown Hawait.
  - pose proof (reachable_consistent env d Hr) as Hc.
    assert (promises (WorkDistributor.runtime d) !! p ≠ Some Pending →
            JsMap.get task (WorkDistributor.activeDelegations d) = None) as Hsettled.
    { intros Hnp. destruct (JsMap.get task _) as [dl|] eqn:Hdl; [|done].
      pose proof (consistent_pending d Hc _ _ Hdl) as Hp.
      rewrite (Hown dl eq_refl) in Hp. done. }
    simpl in Hawait.
    destruct (promises (WorkDistributor.runtime d) !! p) as [[|r|m]|] eqn:Hp;
      injection Hawait as <- <-; (split; [done|]); (split; [done|]); split; try done.
    + intros _. by apply Hsettled.
    + intros r' _ [dl Hdl]. rewrite Hsettled in Hdl; done.
    + intros _. by apply Hsettled.
  - pose proof (reachable_consistent env d Hr) as Hc.
    assert (promises (WorkDistributor.runtime d) !! p ≠ Some Pending →
            JsMap.get task (WorkDistributor.activeDelegations d) = None) as Hsettled.
    { intros Hnp. destruct (JsMap.get task _) as [dl|] eqn:Hdl; [|done].
      pose proof (consistent_pending d Hc _ _ Hdl) as Hp.
      rewrite (Hown dl eq_refl) in Hp. done. }
    assert (reachable env (WorkDistributor.handle ev d)) as Hr1
      by by apply reachable_handle.
    assert (∀ dl, JsMap.get task
                    (WorkDistributor.activeDelegations (WorkDistributor.handle ev d))
                  = Some dl → ActiveDelegation.promise dl = p) as Hown1.
    { intros dl Hdl. apply Hown. by apply handle_get in Hdl. }
    simpl in Hawait.
    destruct (promises (WorkDistributor.runtime d) !! p) as [[|r|m]|] eqn:Hp.
    + destruct (IH _ _ _ Hr1 Hown1 Hawait) as (H1 & H2 & H3 & H4).
      split; [done|]. split; [intros k dl Hk; by apply (handle_get ev), H2|].
      split; [done|].
      intros result -> [dl Hdl]. pose proof (Hown _ Hdl) as Hpdl.
      destruct (handle_outcome env ev d task dl Hr Hdl) as [Hkeep|[(r & Hful & Hid)|(m & Hrej)]].
      * apply (H4 result eq_refl). by eexists.
      * rewrite Hpdl in Hful.
        rewrite (await_fulfilled _ _ _ _ Hful) in Hawait. congruence.
      * rewrite Hpdl in Hrej.
        rewrite (await_rejected _ _ _ _ Hrej) in Hawait. congruence.
    + injection Hawait as <- <-. split; [done|]. split; [done|].
      split; [intros _; by apply Hsettled|].
      intros r' _ [dl Hdl]. rewrite Hsettled in Hdl; done.
    + injection Hawait as <- <-. split; [done|]. split; [done|].
      split; [intros _; by apply Hsettled|]. done.
    + destruct (IH _ _ _ Hr1 Hown1 Hawait) as (H1 & H2 & H3 & H4).
      split; [done|]. split; [intros k dl Hk; by apply (handle_get ev), H2|].
      split; [done|].
      intros result -> [dl Hdl]. pose proof (consistent_pending d Hc _ _ Hdl) as Hp'.
      rewrite (Hown _ Hdl) in Hp'. congruence.
Qed.

Lemma delegateToPeer_contained env now peer d d' c :
  reachable env d →
  JsMap.get (taskId (delegateTask env (node_id (identity peer))))
    (WorkDistributor.activeDelegations d) = None →
  WorkDistributor.delegateToPeer env now peer d = (d', c) →
  reachable env d'
  ∧ (c ≠ Blocked →
     ∀ k dl, JsMap.get k (WorkDistributor.activeDelegations d') = Some dl →
             JsMap.get k (WorkDistributor.activeDelegations d) = Some dl)
  ∧ (∀ result, c = Returned result →
       accepted (delegateTask env (node_id (identity peer))) = true
       ∧ SwarmTaskResult.task_id result
         = taskId (delegateTask env (node_id (identity peer)))).
Proof.
  intros Hr Hfresh. unfold WorkDistributor.delegateToPeer.
  set (task := taskId (delegateTask env (node_id (identity peer)))) in *.
  set (d0 := WorkDistributor.with_runtime
               (log (DelegateTaskCall (node_id (identity peer)))
                  (WorkDistributor.runtime d)) d).
  assert (reachable env d0) as Hr0 by by apply reachable_call.
  destruct (accepted (delegateTask env (node_id (identity peer)))) eqn:Hacc; cbn [negb].
  - destruct (WorkDistributor.register env now peer task d0) as [d1 p] eqn:Hreg.
    assert (d1 = (WorkDistributor.register env now peer task d0).1) as Hd1
      by by rewrite Hreg.
    assert (reachable env d1) as Hr1
      by (rewrite Hd1; by apply reachable_register).
    assert (∃ dl, JsMap.get task (WorkDistributor.activeDelegations d1) = Some dl
                  ∧ ActiveDelegation.promise dl = p) as (dlnew & Hnew & Hpnew).
    { eexists. rewrite Hd1. unfold WorkDistributor.register. simpl.
      rewrite get_set, decide_True by done. split; [done|].
      apply (f_equal snd) in Hreg. simpl in Hreg. by rewrite <- Hreg. }
    intros Hawait.
    destruct (await_contained env task p _ _ _ _ Hr1
                ltac:(intros dl Hdl; congruence) Hawait) as (H1 & H2 & H3 & H4).
    split; [done|]. split.
    + intros Hc k dl Hk. pose proof (H2 _ _ Hk) as Hk1.
      rewrite Hd1 in Hk1. unfold WorkDistributor.register in Hk1. simpl in Hk1.
      rewrite get_set in Hk1. destruct (decide (task = k)) as [<-|]; [|done].
      rewrite (H3 Hc) in Hk. done.
    + intros result ->. split; [done|]. apply (H4 result eq_refl). by eexists.
  - intros [= <- <-]. split; [done|]. split; [done|]. done.
Qed.

Lemma distribute_loop_contained env now : ∀ peers attempts lastError d d' c,
  reachable env d →
  (∀ peer, peer ∈ peers →
     JsMap.get (taskId (delegateTask env (node_id (identity peer))))
       (WorkDistributor.activeDelegations d) = None) →
  WorkDistributor.distribute_loop env now peers attempts lastError d = (d', c) →
  reachable env d'
  ∧ (c ≠ Blocked →
     ∀ k dl, JsMap.get k (WorkDistributor.activeDelegations d') = Some dl →
             JsMap.get k (WorkDistributor.activeDelegations d) = Some dl)
  ∧ (∀ result, c = Returned result →
       ∃ peer, peer ∈ peers
               ∧ accepted (delegateTask env (node_id (identity peer))) = true
               ∧ SwarmTaskResult.task_id result
                 = taskId (delegateTask env (node_id (identity peer)))).
Proof.
  induction peers as [|peer peers IH]; intros attempts lastError d d' c Hr Hfresh;
    cbn [WorkDistributor.distribute_loop].
  - intros [= <- <-]. by repeat split.
  - case_bool_decide as Hlim; [intros [= <- <-]; by repeat split|].
    destruct (WorkDistributor.delegateToPeer env now peer d) as [d1 c1] eqn:Hd.
    destruct (delegateToPeer_contained env now peer d d1 c1 Hr
                ltac:(apply Hfresh, elem_of_cons; by left) Hd) as (Hr1 & Hsub1 & Hret1).
    destruct c1 as [r|err|].
    + intros [= <- <-]. split; [done|]. split; [by apply Hsub1|].
      intros result [= <-]. exists peer. split; [apply elem_of_cons; by left|].
      by apply Hret1.
    + intros Hloop.
      assert (∀ peer', peer' ∈ peers →
                JsMap.get (taskId (delegateTask env (node_id (identity peer'))))
                  (WorkDistributor.activeDelegations d1) = None) as Hfresh1.
      { intros peer' Hin.
        destruct (JsMap.get _ (WorkDistributor.activeDelegations d1)) as [dl|] eqn:Hdl;
          [|done].
        apply Hsub1 in Hdl; [|done].
        rewrite Hfresh in Hdl; [done|]. apply elem_of_cons. by right. }
      destruct (IH _ _ _ _ _ Hr1 Hfresh1 Hloop) as (H1 & H2 & H3).
      split; [done|]. split.
      * intros Hc k dl Hk. apply Hsub1; [done|]. by apply H2.
      * intros result Hres. destruct (H3 result Hres) as (peer' & Hin & ?).
        exists peer'. split; [apply elem_of_cons; by right | done].
    + intros [= <- <-]. split; [done|]. split; [done|]. done.
Qed.

Lemma distribute_contained env now c d final out :
  reachable env d →
  fresh_task_ids env d →
  WorkDistributor.distribute env now c d = (final, out) →
  reachable env final
  ∧ (out ≠ Blocked →
     ∀ k dl, JsMap.get k (WorkDistributor.activeDelegations final) = Some dl →
             JsMap.get k (WorkDistributor.activeDelegations d) = Some dl)
  ∧ (∀ result, out = Returned result →
       ∃ peer, peer ∈ getActivePeers env
               ∧ accepted (delegateTask env (node_id (identity peer))) = true
               ∧ SwarmTaskResult.task_id result
                 = taskId (delegateTask env (node_id (identity peer)))).
Proof.
  intros Hr Hfresh. unfold WorkDistributor.distribute.
  pose proof (selectPeers_submseteq env c d) as Hsub.
  pose proof (selectPeers_delegations env c d) as Had.
  pose proof (reachable_select env c d Hr) as Hr1.
  destruct (WorkDistributor.selectPeers env c d) as [d1 peers]. cbn [fst snd] in *.
  case_bool_decide as Hlen.
  - intros [= <- <-]. split; [done|]. split; [by rewrite Had|]. done.
  - intros Hloop.
    destruct (distribute_loop_contained env now peers 0 None d1 final out Hr1) as (H1 & H2 & H3);
      [|done|].
    { intros peer Hin. rewrite Had. apply Hfresh. by eapply elem_of_submseteq. }
    split; [done|]. split; [intros Hc k dl Hk; rewrite <- Had; by apply H2|].
    intros result Hres. destruct (H3 result Hres) as (peer & Hin & ?).
    exists peer. split; [by eapply elem_of_submseteq | done].
Qed.

Lemma new_reachable env strat timeout retries :
  reachable env (WorkDistributor.new strat timeout retries)
  ∧ fresh_task_ids env (WorkDistributor.new strat timeout retries).
Proof. split; [apply reachable_new | by intros peer _]. Qed.



(** X19: a result that [distribute] returns belongs to a task it
    delegated itself: its task id is the one the mesh gave for an active
    peer that accepted, and that delegation is no longer active. *)
Theorem distribute_returns_own_task env now c d result :
  reachable env d →
  fresh_task_ids env d →
  (WorkDistributor.distribute env now c d).2 = Returned result →
  (∃ peer,
     peer ∈ getActivePeers env
     ∧ accepted (delegateTask env (node_id (identity peer))) = true
     ∧ SwarmTaskResult.task_id result
       = taskId (delegateTask env (node_id (identity peer))))
  ∧ WorkDistributor.findDelegationByTaskId (SwarmTaskResult.task_id result)
      (WorkDistributor.distribute env now c d).1 = None.
Proof.
  intros Hr Hfresh.
  destruct (WorkDistributor.distribute env now c d) as [final out] eqn:Hd.
  destruct (distribute_contained env now c d final out Hr Hfresh Hd) as (_ & Hsub & Hret).
  cbn [fst snd]. intros ->. destruct (Hret result eq_refl) as (peer & Hin & Hacc & Hid).
  split; [by exists peer|].
  unfold WorkDistributor.findDelegationByTaskId.
  destruct (JsMap.get _ (WorkDistributor.activeDelegations final)) as [dl|] eqn:Hdl; [|done].
  apply Hsub in Hdl; [|done]. rewrite Hid, (Hfresh peer Hin) in Hdl. done.
Qed.

Lemma distribute_returns_own_task_witness :
  let d := WorkDistributor.new round_robin 300000 1 in
  reachable retry_env d
  ∧ fresh_task_ids retry_env d
  ∧ (WorkDistributor.distribute retry_env 1000 None d).2 = Returned result_b
  ∧ WorkDistributor.findDelegationByTaskId (SwarmTaskResult.task_id result_b)
      (WorkDistributor.distribute retry_env 1000 None d).1 = None.
Proof.
  intros d.
  destruct (new_reachable retry_env round_robin 300000 1) as [Hr Hfresh].
  assert ((WorkDistributor.distribute retry_env 1000 None d).2 = Returned result_b) as Hout
    by reflexivity.
  split; [exact Hr|]. split; [exact Hfresh|]. split; [exact Hout|].
  exact (proj2 (distribute_returns_own_task retry_env 1000 None d result_b Hr Hfresh Hout)).
Defined.

(** ** The first peer that succeeds ends the walk *)

Lemma all_fail_calls env now ps d errs d' :
  all_fail env now ps d errs d' →
  delegate_calls (trace (WorkDistributor.runtime d'))
  = delegate_calls (trace (WorkDistributor.runtime d)) ++ (node_id ∘ identity <$> ps)
  ∧ WorkDistributor.maxRetries d' = WorkDistributor.maxRetries d.
Proof.
  induction 1 as [d|peer ps d d1 err errs d' Hd Hall [IH1 IH2]].
  - by rewrite app_nil_r.
  - pose proof (delegateToPeer_calls env now peer d) as Hcalls.
    pose proof (delegateToPeer_config env now peer d) as (_ & _ & Hmax & _).
    rewrite Hd in Hcalls, Hmax. simpl in Hcalls, Hmax.
    rewrite IH1, IH2, Hcalls, Hmax. by rewrite <- app_assoc.
Qed.

Lemma distribute_loop_first_success env now pre : ∀ attempts lastError d errs d2,
  all_fail env now pre d errs d2 →
  ∀ peer rest d3 result,
    WorkDistributor.delegateToPeer env now peer d2 = (d3, Returned result) →
    attempts + Z.of_nat (length pre) < WorkDistributor.maxRetries d + 1 →
    WorkDistributor.distribute_loop env now (pre ++ peer :: rest) attempts lastError d
    = (d3, Returned result).
Proof.
  induction pre as [|q pre IH]; intros attempts lastError d errs d2 Hall peer rest d3 r Hd Hlim.
  - inversion Hall; subst. simpl in *.
    rewrite bool_decide_eq_false_2 by lia. by rewrite Hd.
  - inversion Hall as [|? ? ? d1 err errs' ? Hq Hrest]; subst.
    cbn [app WorkDistributor.distribute_loop].
    rewrite bool_decide_eq_false_2 by (simpl in Hlim; lia). rewrite Hq.
    pose proof (delegateToPeer_config env now q d) as (_ & _ & Hmax & _).
    rewrite Hq in Hmax. simpl in Hmax.
    apply (IH _ _ _ _ _ Hrest _ _ _ _ Hd). rewrite Hmax. simpl in Hlim. lia.
Qed.

(** X20: the first candidate whose delegation succeeds ends the walk:
    when the candidates before it all fail and it is within the attempt
    limit, [distribute] returns its result, and the candidates after it
    are never asked. *)
Theorem first_success_wins env now c d pre peer rest errs d2 d3 result :
  (WorkDistributor.selectPeers env c d).2 = pre ++ peer :: rest →
  all_fail env now pre (WorkDistributor.selectPeers env c d).1 errs d2 →
  WorkDistributor.delegateToPeer env now peer d2 = (d3, Returned result) →
  Z.of_nat (length pre) < WorkDistributor.maxRetries d + 1 →
  WorkDistributor.distribute env now c d = (d3, Returned result)
  ∧ delegate_calls (trace (WorkDistributor.runtime d3))
    = delegate_calls (trace (WorkDistributor.runtime d))
      ++ (node_id ∘ identity <$> pre ++ [peer]).
Proof.
  intros Hsel Hall Hd Hlim. unfold WorkDistributor.distribute.
  destruct (selectPeers_runtime env c d) as [Hrt Hmax].
  destruct (WorkDistributor.selectPeers env c d) as [d1 peers]. cbn [fst snd] in *.
  subst peers. split.
  - rewrite bool_decide_eq_false_2 by (rewrite length_app; simpl; lia).
    apply (distribute_loop_first_success env now pre 0 None d1 errs d2 Hall _ _ _ _ Hd).
    rewrite Hmax. lia.
  - destruct (all_fail_calls env now pre d1 errs d2 Hall) as [Hcalls _].
    pose proof (delegateToPeer_calls env now peer d2) as Hlast.
    rewrite Hd in Hlast. simpl in Hlast.
    rewrite Hlast, Hcalls, Hrt, fmap_app. by rewrite <- app_assoc.
Qed.

Lemma first_success_wins_witness :
  let d := WorkDistributor.new capability_match 300000 1 in
  (WorkDistributor.selectPeers retry_env None d).2 = [peer_a] ++ peer_b :: []
  ∧ Z.of_nat (length [peer_a]) < WorkDistributor.maxRetries d + 1
  ∧ (WorkDistributor.distribute retry_env 1000 None d).2 = Returned result_b.
Proof.
  intros d.
  assert ((WorkDistributor.selectPeers retry_env None d).2 = [peer_a] ++ peer_b :: [])
    as Hsel by reflexivity.
  assert (Z.of_nat (length [peer_a]) < WorkDistributor.maxRetries d + 1) as Hlim
    by (vm_compute; reflexivity).
  split; [exact Hsel|]. split; [exact Hlim|].
  assert (∃ errs d2 d3,
            all_fail retry_env 1000 [peer_a]
              (WorkDistributor.selectPeers retry_env None d).1 errs d2
            ∧ WorkDistributor.delegateToPeer retry_env 1000 peer_b d2
              = (d3, Returned result_b)) as (errs & d2 & d3 & Hall & Hd).
  { eexists _, _, _. split.
    - eapply all_fail_cons; [reflexivity | apply all_fail_nil].
    - reflexivity. }
  exact (f_equal snd (proj1 (first_success_wins retry_env 1000 None d [peer_a] peer_b []
                               errs d2 d3 result_b Hsel Hall Hd Hlim))).
Defined.

(** ** getActiveDelegations *)

Lemma task_ids_keys (l : list (string * ActiveDelegation.t)) :
  (∀ k dl, (k, dl) ∈ l → ActiveDelegation.task_id dl = k) →
  (ActiveDelegation.task_id ∘ snd) <$> l = l.*1.
Proof.
  induction l as [|[k dl] l IH]; intros Hkey; [done|].
  csimpl. f_equal.
  - apply Hkey, elem_of_cons. by left.
  - apply IH. intros k' dl' Hin. apply Hkey, elem_of_cons. by right.
Qed.

(** X21: in every reachable state [getActiveDelegations] lists each active
    delegation once, in registration order: as many lines as
    [activeCount], with pairwise distinct task ids, each naming the peer
    of the delegation found under that task id and the time elapsed since
    it was sent. *)
Theorem getActiveDelegations_lists env now d :
  reachable env d →
  let infos := WorkDistributor.getActiveDelegations now d in
  Z.of_nat (length infos) = WorkDistributor.activeCount d
  ∧ WorkDistributor.info_task_id <$> infos = active_tasks d
  ∧ NoDup (WorkDistributor.info_task_id <$> infos)
  ∧ ∀ info, info ∈ infos →
      ∃ dl, WorkDistributor.findDelegationByTaskId (WorkDistributor.info_task_id info) d
            = Some dl
            ∧ WorkDistributor.info_peer_node_id info = ActiveDelegation.peer_node_id dl
            ∧ WorkDistributor.info_elapsed_ms info = now - ActiveDelegation.sent_at dl.
Proof.
  intros Hr. pose proof (reachable_consistent env d Hr) as Hc. cbv zeta.
  assert (∀ k dl, (k, dl) ∈ WorkDistributor.activeDelegations d →
                  ActiveDelegation.task_id dl = k) as Hkey.
  { intros k dl Hin. apply (consistent_key d Hc), elem_get; [|done].
    apply (consistent_wf d Hc). }
  assert (WorkDistributor.info_task_id <$> WorkDistributor.getActiveDelegations now d
          = active_tasks d) as Hids.
  { unfold WorkDistributor.getActiveDelegations, JsMap.values, active_tasks, JsMap.keys.
    rewrite <- !list_fmap_compose. by apply task_ids_keys. }
  split; [|split; [done|split]].
  - unfold WorkDistributor.getActiveDelegations, WorkDistributor.activeCount,
      JsMap.values, JsMap.size. by rewrite !length_fmap.
  - rewrite Hids. apply (consistent_wf d Hc).
  - intros info Hin. unfold WorkDistributor.getActiveDelegations, JsMap.values in Hin.
    apply list_elem_of_fmap in Hin as (dl & -> & Hdl).
    apply list_elem_of_fmap in Hdl as ([k dl'] & -> & Hel).
    exists dl'. simpl. split; [|done].
    unfold WorkDistributor.findDelegationByTaskId.
    rewrite (Hkey _ _ Hel). apply elem_get; [apply (consistent_wf d Hc) | done].
Qed.

Lemma getActiveDelegations_lists_witness :
  reachable silent_env delegation_a
  ∧ WorkDistributor.getActiveDelegations 1500 delegation_a
    = [{| WorkDistributor.info_task_id := "task-a";
          WorkDistributor.info_peer_node_id := "a";
          WorkDistributor.info_elapsed_ms := 500 |}]
  ∧ Z.of_nat (length (WorkDistributor.getActiveDelegations 1500 delegation_a))
    = WorkDistributor.activeCount delegation_a.
Proof.
  assert (reachable silent_env delegation_a) as Hr
    by (apply reachable_register; [apply reachable_new | reflexivity]).
  split; [exact Hr|]. split; [reflexivity|].
  exact (proj1 (getActiveDelegations_lists silent_env 1500 delegation_a Hr)).
Defined.

End WorkDistributorMore.

(** * The swarm tools *)

Module SwarmToolFacts.
Import JsMapFacts WorkDistributorFacts WorkDistributorMore.

Lemma distribute_calls env now c d :
  ∃ asked,
    delegate_calls (trace (WorkDistributor.runtime (WorkDistributor.distribute env now c d).1))
    = delegate_calls (trace (WorkDistributor.runtime d)) ++ asked
    ∧ asked ⊆+ ((λ p, node_id (identity p)) <$> getActivePeers env)
    ∧ Z.of_nat (length asked) <= Z.max 0 (WorkDistributor.maxRetries d + 1).
Proof.
  unfold WorkDistributor.distribute.
  pose proof (selectPeers_runtime env c d) as [Hrt Hmax].
  pose proof (selectPeers_submseteq env c d) as Hsub.
  destruct (WorkDistributor.selectPeers env c d) as [d1 peers]. cbn [fst snd] in *.
  case_bool_decide as Hlen.
  - exists []. cbn [fst]. rewrite Hrt, app_nil_r. split; [done|].
    split; [apply submseteq_nil_l | simpl; lia].
  - destruct (distribute_loop_calls env now peers 0 None d1) as (k & Hk & Hlim & Hcalls);
      [lia|].
    exists (node_id ∘ identity <$> take k peers). rewrite Hcalls, Hrt. split; [done|]. split.
    + apply (fmap_submseteq (node_id ∘ identity)).
      etrans; [|exact Hsub]. apply sublist_submseteq, sublist_take.
    + rewrite length_fmap, length_take. rewrite Hmax in Hlim. lia.
Qed.

(** X22: a dry run predicts a live run.  [dry_run] leaves the distributor
    as it is and lists the active peers; whatever the same call does in
    live mode, the peers it asks are among those listed, each at most as
    often as listed, and there are at most [maxRetries + 1] of them. *)
Theorem live_run_within_dry_run env now input d :
  ∃ ids,
    SwarmTool.swarmDistributeHandler env now input SwarmTool.dry_run d
    = (d, Returned (SwarmTool.DryRun ids (Z.of_nat (length ids)) (SwarmTool.task_text input)))
    ∧ ∃ asked,
        delegate_calls
          (trace (WorkDistributor.runtime
                    (SwarmTool.swarmDistributeHandler env now input SwarmTool.real d).1))
        = delegate_calls (trace (WorkDistributor.runtime d)) ++ asked
        ∧ asked ⊆+ ids
        ∧ Z.of_nat (length asked) <= Z.max 0 (WorkDistributor.maxRetries d + 1).
Proof.
  exists ((λ p, node_id (identity p)) <$> getActivePeers env). split.
  { unfold SwarmTool.swarmDistributeHandler. by rewrite length_fmap. }
  assert (∃ asked : list string,
            delegate_calls (trace (WorkDistributor.runtime d))
            = delegate_calls (trace (WorkDistributor.runtime d)) ++ asked
            ∧ asked ⊆+ ((λ p, node_id (identity p)) <$> getActivePeers env)
            ∧ Z.of_nat (length asked) <= Z.max 0 (WorkDistributor.maxRetries d + 1)) as Hnone.
  { exists []. rewrite app_nil_r. split; [done|]. split; [apply submseteq_nil_l | simpl; lia]. }
  unfold SwarmTool.swarmDistributeHandler.
  destruct (SwarmTool.task_text input) as [| |b|z|text]; try exact Hnone.
  case_bool_decide; [exact Hnone|].
  pose proof (distribute_calls env now (SwarmTool.cleanConstraints input) d) as Hcalls.
  by destruct (WorkDistributor.distribute env now (SwarmTool.cleanConstraints input) d)
    as [d' [result|message|]].
Qed.

(** X23: [task_text] is checked in live mode only.  With a [task_text]
    that is not a non-empty string the live handler throws before it
    touches the distributor, while the mock and the dry run still return
    a value; in no mode is the distributor changed. *)
Theorem task_text_checked_in_live_mode_only env now input mode d :
  (∀ text, SwarmTool.task_text input = SwarmTool.JsString text → text = "") →
  (SwarmTool.swarmDistributeHandler env now input mode d).1 = d
  ∧ (mode = SwarmTool.real →
     (SwarmTool.swarmDistributeHandler env now input mode d).2
     = Thrown "task_text is required and must be a string")
  ∧ (mode ≠ SwarmTool.real →
     ∃ out, (SwarmTool.swarmDistributeHandler env now input mode d).2 = Returned out).
Proof.
  intros Hbad. unfold SwarmTool.swarmDistributeHandler.
  destruct mode; cbn [fst snd].
  - split; [done|]. split; [done|]. intros _. by eexists.
  - split; [done|]. split; [done|]. intros _. by eexists.
  - destruct (SwarmTool.task_text input) as [| |b|z|text] eqn:Htext;
      try (split; [done|]; split; [done|]; by intros []).
    rewrite (Hbad text eq_refl). cbn [fst snd].
    rewrite bool_decide_eq_true_2 by done.
    split; [done|]. split; [done|]. by intros [].
Qed.

Lemma task_text_checked_in_live_mode_only_witness :
  let input := {| SwarmTool.task_text := SwarmTool.JsNumber 42;
                  SwarmTool.in_tool_allowlist := None;
                  SwarmTool.in_max_tokens := None;
                  SwarmTool.in_max_cost_usd := None;
                  SwarmTool.in_max_duration_ms := None |} in
  let d := WorkDistributor.new round_robin 300000 2 in
  (∀ text, SwarmTool.task_text input = SwarmTool.JsString text → text = "")
  ∧ SwarmTool.swarmDistributeHandler retry_env 0 input SwarmTool.real d
    = (d, Thrown "task_text is required and must be a string").
Proof.
  intros input d.
  assert (∀ text, SwarmTool.task_text input = SwarmTool.JsString text → text = "") as Hbad
    by (intros text Htext; discriminate Htext).
  split; [exact Hbad|].
  destruct (task_text_checked_in_live_mode_only retry_env 0 input SwarmTool.real d Hbad)
    as (Hstate & Hthrown & _).
  rewrite (surjective_pairing (SwarmTool.swarmDistributeHandler _ _ _ _ _)).
  by rewrite Hstate, (Hthrown eq_refl).
Defined.

Lemma given_Some filter text : SwarmTool.given filter = Some text → filter = Some text ∧ text ≠ "".
Proof.
  destruct filter as [f|]; [|done]. simpl. case_bool_decide; [done|]. by intros [= ->].
Qed.

Lemma given_nonempty text : text ≠ "" → SwarmTool.given (Some text) = Some text.
Proof. intros Hne. simpl. by rewrite bool_decide_eq_false_2. Qed.

Lemma list_filter_sublist {A} (f : A → bool) (l : list A) : sublist (List.filter f l) l.
Proof.
  induction l as [|x l IH]; [done|].
  cbn [List.filter]. destruct (f x); [by apply sublist_skip | by apply sublist_cons].
Qed.

Lemma elem_of_List_filter {A} (f : A → bool) (l : list A) (x : A) :
  x ∈ List.filter f l ↔ x ∈ l ∧ f x = true.
Proof. by rewrite !list_elem_of_In, filter_In. Qed.

Lemma status_name_inj s1 s2 : SwarmTool.status_name s1 = SwarmTool.status_name s2 → s1 = s2.
Proof. by destruct s1, s2. Qed.

(** X24: outside mock mode [swarm-peers] answers with the local identity
    and the peers that pass every filter given, in the order of the peer
    list; [total] is their number.  A filter that is absent or the empty
    string lets every peer pass. *)
Theorem swarmPeersHandler_filters localIdentity allPeers input mode :
  mode ≠ SwarmTool.mock →
  let out := SwarmTool.swarmPeersHandler localIdentity allPeers input mode in
  SwarmTool.self out = SwarmTool.LocalIdentity localIdentity
  ∧ SwarmTool.total out = Z.of_nat (length (SwarmTool.peers out))
  ∧ ∃ kept,
      SwarmTool.peers out = SwarmTool.projectPeer <$> kept
      ∧ sublist kept allPeers
      ∧ ∀ p, p ∈ kept ↔
             p ∈ allPeers
             ∧ (∀ wanted, SwarmTool.status_filter input = Some wanted → wanted ≠ "" →
                          SwarmTool.status_name (status p) = wanted)
             ∧ (∀ wanted, SwarmTool.capability_filter input = Some wanted → wanted ≠ "" →
                          wanted ∈ capabilities (identity p)).
Proof.
  intros Hmode. cbv zeta.
  set (peers1 := match SwarmTool.given (SwarmTool.status_filter input) with
                 | Some statusFilter =>
                     List.filter (λ p, bool_decide (SwarmTool.status_name (status p) = statusFilter))
                       allPeers
                 | None => allPeers
                 end).
  set (peers2 := match SwarmTool.given (SwarmTool.capability_filter input) with
                 | Some capFilter =>
                     List.filter (λ p, bool_decide (capFilter ∈ capabilities (identity p))) peers1
                 | None => peers1
                 end).
  assert (sublist peers1 allPeers
          ∧ ∀ p, p ∈ peers1 ↔
                 p ∈ allPeers
                 ∧ ∀ wanted, SwarmTool.status_filter input = Some wanted → wanted ≠ "" →
                             SwarmTool.status_name (status p) = wanted) as [Hsub1 H1].
  { unfold peers1. destruct (SwarmTool.given (SwarmTool.status_filter input)) as [f|] eqn:Hf.
    - apply given_Some in Hf as [Hf Hne]. split; [apply list_filter_sublist|].
      intros p. rewrite elem_of_List_filter, bool_decide_eq_true, Hf. split.
      + intros [Hin Hst]. split; [done|]. by intros wanted [= <-] _.
      + intros [Hin Hst]. split; [done|]. by apply Hst.
    - split; [done|]. intros p. split; [|by intros [? _]].
      intros Hin. split; [done|]. intros wanted Hw Hne.
      rewrite Hw, (given_nonempty _ Hne) in Hf. done. }
  assert (SwarmTool.swarmPeersHandler localIdentity allPeers input mode
          = {| SwarmTool.self := SwarmTool.LocalIdentity localIdentity;
               SwarmTool.peers := SwarmTool.projectPeer <$> peers2;
               SwarmTool.total := Z.of_nat (length peers2) |}) as ->
    by (by destruct mode).
  cbn [SwarmTool.self SwarmTool.peers SwarmTool.total].
  split; [reflexivity|]. split; [by rewrite length_fmap|].
  exists peers2. split; [reflexivity|]. split.
  - unfold peers2. destruct (SwarmTool.given (SwarmTool.capability_filter input));
      [|done]. etrans; [apply list_filter_sublist | done].
  - intros p. unfold peers2.
    destruct (SwarmTool.given (SwarmTool.capability_filter input)) as [c|] eqn:Hc.
    + apply given_Some in Hc as [Hc Hne].
      rewrite elem_of_List_filter, bool_decide_eq_true, H1, Hc. split.
      * intros ((Hin & Hst) & Hcap). split; [done|]. split; [done|].
        by intros wanted [= <-] _.
      * intros (Hin & Hst & Hcap). split; [done | by apply Hcap].
    + rewrite H1. split.
      * intros [Hin Hst]. split; [done|]. split; [done|]. intros wanted Hw Hne.
        rewrite Hw, (given_nonempty _ Hne) in Hc. done.
      * by intros (Hin & Hst & _).
Qed.

Lemma swarmPeersHandler_filters_witness :
  let input := {| SwarmTool.status_filter := Some "active";
                  SwarmTool.capability_filter := Some "shell-exec" |} in
  let out := SwarmTool.swarmPeersHandler (makeIdentity "self" []) [peer_a; peer_b] input
               SwarmTool.real in
  SwarmTool.real ≠ SwarmTool.mock
  ∧ SwarmTool.peers out = [SwarmTool.projectPeer peer_b]
  ∧ SwarmTool.total out = Z.of_nat (length (SwarmTool.peers out)).
Proof.
  intros input out.
  assert (SwarmTool.real ≠ SwarmTool.mock) as Hmode by discriminate.
  split; [exact Hmode|]. split; [reflexivity|].
  exact (proj1 (proj2 (swarmPeersHandler_filters (makeIdentity "self" []) [peer_a; peer_b]
                         input SwarmTool.real Hmode))).
Defined.

(** X25: over the peers of a table, the filters of [swarm-peers] are the
    table's own queries: a status filter lists what [getByStatus] returns,
    a capability filter together with the status filter "active" lists
    what [getByCapability] returns, and without a filter the tool lists
    [getAll]. *)
Theorem swarmPeersHandler_matches_table localIdentity tbl s capability mode :
  mode ≠ SwarmTool.mock →
  capability ≠ "" →
  let listed input :=
    SwarmTool.peers (SwarmTool.swarmPeersHandler localIdentity (PeerTable.getAll tbl) input mode) in
  listed {| SwarmTool.status_filter := None; SwarmTool.capability_filter := None |}
  = SwarmTool.projectPeer <$> PeerTable.getAll tbl
  ∧ listed {| SwarmTool.status_filter := Some (SwarmTool.status_name s);
              SwarmTool.capability_filter := None |}
    = SwarmTool.projectPeer <$> PeerTable.getByStatus s tbl
  ∧ listed {| SwarmTool.status_filter := Some "active";
              SwarmTool.capability_filter := Some capability |}
    = SwarmTool.projectPeer <$> PeerTable.getByCapability capability tbl.
Proof.
  intros Hmode Hcap. cbv zeta.
  assert (∀ wanted l,
            List.filter (λ p, bool_decide (SwarmTool.status_name (status p)
                                           = SwarmTool.status_name wanted)) l
            = List.filter (λ p, bool_decide (status p = wanted)) l) as Hfilter.
  { intros wanted l. induction l as [|p l IH]; [done|]. cbn [List.filter]. rewrite IH.
    destruct (decide (status p = wanted)) as [Heq|Hne].
    - by rewrite !bool_decide_eq_true_2 by (by rewrite ?Heq).
    - rewrite !bool_decide_eq_false_2; [done..|].
      intros Heq. by apply Hne, status_name_inj. }
  assert (SwarmTool.given (Some (SwarmTool.status_name s)) = Some (SwarmTool.status_name s))
    as Hs by (by destruct s).
  unfold SwarmTool.swarmPeersHandler, PeerTable.getByStatus, PeerTable.getByCapability,
    PeerTable.getActive, PeerTable.getAll.
  destruct mode; [done| |]; cbn [SwarmTool.peers SwarmTool.status_filter
                                   SwarmTool.capability_filter];
    rewrite Hs, (given_nonempty _ Hcap), Hfilter;
    change (SwarmTool.given (Some "active")) with (Some (SwarmTool.status_name Active));
    cbv iota; rewrite Hfilter; done.
Qed.

Lemma swarmPeersHandler_matches_table_witness :
  let listed input :=
    SwarmTool.peers (SwarmTool.swarmPeersHandler (makeIdentity "self" [])
                       (PeerTable.getAll one_peer_table) input SwarmTool.dry_run) in
  SwarmTool.dry_run ≠ SwarmTool.mock
  ∧ "read-file" ≠ ""
  ∧ listed {| SwarmTool.status_filter := Some "active";
              SwarmTool.capability_filter := Some "read-file" |}
    = SwarmTool.projectPeer <$> PeerTable.getByCapability "read-file" one_peer_table.
Proof.
  intros listed.
  assert (SwarmTool.dry_run ≠ SwarmTool.mock) as Hmode by discriminate.
  assert ("read-file" ≠ "") as Hcap by discriminate.
  split; [exact Hmode|]. split; [exact Hcap|].
  exact (proj2 (proj2 (swarmPeersHandler_matches_table (makeIdentity "self" [])
                         one_peer_table Active "read-file" SwarmTool.dry_run Hmode Hcap))).
Defined.

End SwarmToolFacts.
